(** * Baza AI chat client: session store and send orchestrator

    A shallow embedding of the message life cycle implemented by the
    [App] component (handleSendMessage, handleRetry, handleRegenerate and
    the streaming callbacks), of the older [handleSend] of App.tsx, and of
    the [useChatHistory] hook with its persistence through the browser's
    local storage.

    JavaScript strings are sequences of UTF-16 code units, the numbers
    that the program produces are the integer results of [Date.now()],
    and the asynchronous handlers are cut at their [await] points into
    the steps of a transition system whose other events are the answers
    of the remote chat service.  [JSON.stringify] and [JSON.parse] are
    written out for the values the hook stores.

    Part I holds the definitions: the embedding of the sources, module
    by module, then the vocabulary of the properties and sample data.
    Part II holds the properties. *)

From Stdlib Require Import String Ascii ZArith NArith List Bool Lia.
From Stdlib Require DecimalN DecimalPos DecimalFacts.
Import ListNotations.


(* ================================================================== *)
(** * Part I: definitions                                              *)
(* ================================================================== *)

(** ** JavaScript strings *)

Module JS.

(** A string is the list of its UTF-16 code units. *)
Definition jsstring := list N.

(** String literals of the source, written as Rocq strings. *)
Definition str (s : string) : jsstring :=
  map N_of_ascii (list_ascii_of_string s).

(** [a === b] on strings. *)
Fixpoint streq (a b : jsstring) : bool :=
  match a, b with
  | [], [] => true
  | x :: a', y :: b' => N.eqb x y && streq a' b'
  | _, _ => false
  end.

(** The code units that [String.prototype.trim] strips: WhiteSpace and
    LineTerminator of ECMAScript. *)
Definition is_whitespace (c : N) : bool :=
  ((9 <=? c) && (c <=? 13) || (c =? 32) || (c =? 160) || (c =? 5760)
   || (8192 <=? c) && (c <=? 8202) || (c =? 8232) || (c =? 8233)
   || (c =? 8239) || (c =? 8287) || (c =? 12288) || (c =? 65279))%N.

Fixpoint trimStart (s : jsstring) : jsstring :=
  match s with
  | c :: s' => if is_whitespace c then trimStart s' else s
  | [] => []
  end.

Definition trim (s : jsstring) : jsstring :=
  rev (trimStart (rev (trimStart s))).

(** Truthiness of a string: only the empty string is falsy. *)
Definition truthy (s : jsstring) : bool :=
  match s with [] => false | _ :: _ => true end.

(** A value of type [T | null | undefined]. *)
Inductive optional (A : Type) : Type :=
| Undefined : optional A
| Null : optional A
| Has : A -> optional A.
Arguments Undefined {A}.
Arguments Null {A}.
Arguments Has {A} _.

Definition present {A} (o : optional A) : bool :=
  match o with Has _ => true | _ => false end.

(** [o || undefined] *)
Definition orUndefined {A} (o : optional A) : optional A :=
  match o with Has a => Has a | _ => Undefined end.

(** The exceptions that the calls made by this program can throw. *)
Inductive exn := SyntaxError | SecurityError | QuotaExceededError.

(** A computation that returns or throws. *)
Inductive result (A : Type) : Type :=
| Ok : A -> result A
| Throw : exn -> result A.
Arguments Ok {A} _.
Arguments Throw {A} _.

Definition bind {A B} (r : result A) (k : A -> result B) : result B :=
  match r with Ok a => k a | Throw e => Throw e end.

(** [try { body } catch (error) { handler }] *)
Definition tryCatch {A} (body : result A) (handler : exn -> result A) :=
  match body with Ok a => Ok a | Throw e => handler e end.

End JS.

(** ** JSON values *)

Module JSON.
Import JS.

(** The values [JSON.parse] can return.  A number is kept as an integer
    when it is a safe integer written without fraction or exponent, the
    only numbers this program stores; any other number token stays a
    token, its IEEE-754 value is not modelled.  The fields of an object
    come in property enumeration order. *)
#[local] Unset Elimination Schemes.
Inductive js : Type :=
| JNull : js
| JBool : bool -> js
| JNum : Z -> js
| JNumToken : jsstring -> js
| JStr : jsstring -> js
| JArr : list js -> js
| JObj : list (jsstring * js) -> js.
#[local] Set Elimination Schemes.

(** *** Numbers *)

Definition isDigit (c : N) : bool := ((48 <=? c) && (c <=? 57))%N.

Fixpoint uintText (d : Decimal.uint) : jsstring :=
  match d with
  | Decimal.Nil => []
  | Decimal.D0 r => 48%N :: uintText r
  | Decimal.D1 r => 49%N :: uintText r
  | Decimal.D2 r => 50%N :: uintText r
  | Decimal.D3 r => 51%N :: uintText r
  | Decimal.D4 r => 52%N :: uintText r
  | Decimal.D5 r => 53%N :: uintText r
  | Decimal.D6 r => 54%N :: uintText r
  | Decimal.D7 r => 55%N :: uintText r
  | Decimal.D8 r => 56%N :: uintText r
  | Decimal.D9 r => 57%N :: uintText r
  end.

(** [Number.prototype.toString] on an integer below 10^21: its decimal
    digits, with a minus sign in front of a negative one. *)
Definition numberText (z : Z) : jsstring :=
  match z with
  | Z0 => [48%N]
  | Zpos p => uintText (Pos.to_uint p)
  | Zneg p => 45%N :: uintText (Pos.to_uint p)
  end.

Definition consDigit (c : N) (d : Decimal.uint) : Decimal.uint :=
  if (c =? 48)%N then Decimal.D0 d
  else if (c =? 49)%N then Decimal.D1 d
  else if (c =? 50)%N then Decimal.D2 d
  else if (c =? 51)%N then Decimal.D3 d
  else if (c =? 52)%N then Decimal.D4 d
  else if (c =? 53)%N then Decimal.D5 d
  else if (c =? 54)%N then Decimal.D6 d
  else if (c =? 55)%N then Decimal.D7 d
  else if (c =? 56)%N then Decimal.D8 d
  else Decimal.D9 d.

(** The longest run of decimal digits at the head of the text. *)
Fixpoint takeDigits (s : jsstring) : Decimal.uint * jsstring :=
  match s with
  | c :: r =>
    if isDigit c
    then let (d, r') := takeDigits r in (consDigit c d, r')
    else (Decimal.Nil, s)
  | [] => (Decimal.Nil, [])
  end.

Definition maxSafeInteger : N := 9007199254740991.

Definition isNil (d : Decimal.uint) : bool :=
  match d with Decimal.Nil => true | _ => false end.

(** The integer part of a number token: a lone [0], or digits that do
    not start with [0]. *)
Definition lexInt (s : jsstring) : option (Decimal.uint * jsstring) :=
  match s with
  | c :: r =>
    if (c =? 48)%N then Some (Decimal.D0 Decimal.Nil, r)
    else if isDigit c then Some (takeDigits s)
    else None
  | [] => None
  end.

(** The fraction of a number token, when there is one: [Some (true, _)]
    when a fraction was read, [None] when the point has no digit after
    it. *)
Definition lexFraction (s : jsstring) : option (bool * jsstring) :=
  match s with
  | c :: r =>
    if (c =? 46)%N
    then let (d, r') := takeDigits r in
         if isNil d then None else Some (true, r')
    else Some (false, s)
  | [] => Some (false, [])
  end.

Definition lexExponent (s : jsstring) : option (bool * jsstring) :=
  match s with
  | c :: r =>
    if ((c =? 101) || (c =? 69))%N
    then let r1 := match r with
                   | sg :: r0 => if ((sg =? 43) || (sg =? 45))%N then r0 else r
                   | [] => r
                   end in
         let (d, r') := takeDigits r1 in
         if isNil d then None else Some (true, r')
    else Some (false, s)
  | [] => Some (false, [])
  end.

(** A number token at the head of the text, and the value it stands
    for. *)
Definition lexNumber (s : jsstring) : option (js * jsstring) :=
  let (negative, s1) :=
    match s with
    | c :: r => if (c =? 45)%N then (true, r) else (false, s)
    | [] => (false, s)
    end in
  match lexInt s1 with
  | Some (d, s2) =>
    match lexFraction s2 with
    | Some (hasFraction, s3) =>
      match lexExponent s3 with
      | Some (hasExponent, s4) =>
        let n := N.of_uint d in
        if negb hasFraction && negb hasExponent
           && (n <=? maxSafeInteger)%N && negb (negative && (n =? 0)%N)
        then Some (JNum (if negative then Z.opp (Z.of_N n) else Z.of_N n), s4)
        else Some (JNumToken (firstn (length s - length s4) s), s4)
      | None => None
      end
    | None => None
    end
  | None => None
  end.

(** *** Strings *)

(** The lower-case hexadecimal digit of a value below 16. *)
Definition hexDigit (d : N) : N := (if d <? 10 then 48 + d else 87 + d)%N.

Definition hexValue (c : N) : option N :=
  (if (48 <=? c) && (c <=? 57) then Some (c - 48)
   else if (97 <=? c) && (c <=? 102) then Some (c - 87)
   else if (65 <=? c) && (c <=? 70) then Some (c - 55)
   else None)%N.

(** [\uXXXX] *)
Definition unicodeEscape (c : N) : jsstring :=
  [92; 117; hexDigit ((c / 4096) mod 16); hexDigit ((c / 256) mod 16);
   hexDigit ((c / 16) mod 16); hexDigit (c mod 16)]%N.

Definition hex4 (a b c d : N) : option N :=
  match hexValue a, hexValue b, hexValue c, hexValue d with
  | Some x, Some y, Some z, Some w => Some (4096 * x + 256 * y + 16 * z + w)%N
  | _, _, _, _ => None
  end.

Definition isHighSurrogate (c : N) : bool := ((55296 <=? c) && (c <=? 56319))%N.
Definition isLowSurrogate (c : N) : bool := ((56320 <=? c) && (c <=? 57343))%N.

(** [QuoteJSONString] without the enclosing quotes: the short escapes,
    [\uXXXX] for the other control characters and for surrogates that
    stand alone, every other code unit as it is. *)
Fixpoint quoteChars (s : jsstring) : jsstring :=
  match s with
  | [] => []
  | c :: r =>
    if (c =? 8)%N then 92%N :: 98%N :: quoteChars r
    else if (c =? 9)%N then 92%N :: 116%N :: quoteChars r
    else if (c =? 10)%N then 92%N :: 110%N :: quoteChars r
    else if (c =? 12)%N then 92%N :: 102%N :: quoteChars r
    else if (c =? 13)%N then 92%N :: 114%N :: quoteChars r
    else if (c =? 34)%N then 92%N :: 34%N :: quoteChars r
    else if (c =? 92)%N then 92%N :: 92%N :: quoteChars r
    else if (c <? 32)%N then unicodeEscape c ++ quoteChars r
    else if isHighSurrogate c then
      match r with
      | d :: r' =>
        if isLowSurrogate d then c :: d :: quoteChars r'
        else unicodeEscape c ++ quoteChars r
      | [] => unicodeEscape c
      end
    else if isLowSurrogate c then unicodeEscape c ++ quoteChars r
    else c :: quoteChars r
  end.

Definition quote (s : jsstring) : jsstring := 34%N :: quoteChars s ++ [34%N].

(** The character a short escape stands for. *)
Definition unescape (e : N) : option N :=
  (if e =? 34 then Some 34
   else if e =? 92 then Some 92
   else if e =? 47 then Some 47
   else if e =? 98 then Some 8
   else if e =? 102 then Some 12
   else if e =? 110 then Some 10
   else if e =? 114 then Some 13
   else if e =? 116 then Some 9
   else None)%N.

Definition push (c : N) (r : option (jsstring * jsstring)) :=
  match r with Some (s, rest) => Some (c :: s, rest) | None => None end.

(** The characters of a string literal up to its closing quote. *)
Fixpoint parseChars (s : jsstring) : option (jsstring * jsstring) :=
  match s with
  | [] => None
  | c :: r =>
    if (c =? 34)%N then Some ([], r)
    else if (c =? 92)%N then
      match r with
      | e :: r1 =>
        if (e =? 117)%N then
          match r1 with
          | h1 :: h2 :: h3 :: h4 :: r2 =>
            match hex4 h1 h2 h3 h4 with
            | Some u => push u (parseChars r2)
            | None => None
            end
          | _ => None
          end
        else
          match unescape e with
          | Some u => push u (parseChars r1)
          | None => None
          end
      | [] => None
      end
    else if (c <? 32)%N then None
    else push c (parseChars r)
  end.

(** *** Objects *)

(** An array index: the canonical decimal form of an integer below
    2^32 - 1.  Such keys come first when the properties of an object are
    enumerated, in ascending order. *)
Definition arrayIndex (k : jsstring) : option N :=
  match k with
  | [] => None
  | c :: r =>
    if forallb isDigit k && (negb (c =? 48)%N || (length r =? 0)%nat)
    then let n := N.of_uint (fst (takeDigits k)) in
         if (n <? 4294967295)%N then Some n else None
    else None
  end.

Fixpoint hasKey (k : jsstring) (fields : list (jsstring * js)) : bool :=
  match fields with
  | [] => false
  | (k', _) :: rest => streq k' k || hasKey k rest
  end.

Fixpoint replaceValue (k : jsstring) (v : js) (fields : list (jsstring * js)) :=
  match fields with
  | [] => []
  | (k', v') :: rest =>
    if streq k' k then (k', v) :: rest else (k', v') :: replaceValue k v rest
  end.

Fixpoint insertIndex (i : N) (k : jsstring) (v : js)
    (fields : list (jsstring * js)) :=
  match fields with
  | [] => [(k, v)]
  | (k', v') :: rest =>
    match arrayIndex k' with
    | Some j => if (j <? i)%N then (k', v') :: insertIndex i k v rest
                else (k, v) :: fields
    | None => (k, v) :: fields
    end
  end.

(** [CreateDataProperty] on an object whose properties are listed in
    enumeration order: a key that is there keeps its place and takes the
    new value, a new array index goes to its place among the indices, any
    other new key goes to the end. *)
Definition defineProperty (k : jsstring) (v : js)
    (fields : list (jsstring * js)) : list (jsstring * js) :=
  if hasKey k fields then replaceValue k v fields
  else match arrayIndex k with
       | Some i => insertIndex i k v fields
       | None => fields ++ [(k, v)]
       end.

(** *** JSON.stringify *)

Fixpoint join (parts : list jsstring) : jsstring :=
  match parts with
  | [] => []
  | [p] => p
  | p :: rest => p ++ 44%N :: join rest
  end.

(** [JSON.stringify(v)] without indentation.  A number token that is not
    a safe integer is outside the model: it is written back as it was
    read. *)
Fixpoint stringify (v : js) : jsstring :=
  match v with
  | JNull => str "null"
  | JBool true => str "true"
  | JBool false => str "false"
  | JNum n => numberText n
  | JNumToken t => t
  | JStr s => quote s
  | JArr l => 91%N :: join (map stringify l) ++ [93%N]
  | JObj fields =>
    123%N :: join (map (fun kv => quote (fst kv) ++ 58%N :: stringify (snd kv))
                       fields) ++ [125%N]
  end.

(** *** JSON.parse *)

Definition isJsonSpace (c : N) : bool :=
  ((c =? 32) || (c =? 9) || (c =? 10) || (c =? 13))%N.

Fixpoint skipSpace (s : jsstring) : jsstring :=
  match s with
  | c :: r => if isJsonSpace c then skipSpace r else s
  | [] => []
  end.

Fixpoint stripPrefix (p s : jsstring) : option jsstring :=
  match p, s with
  | [], _ => Some s
  | x :: p', y :: s' => if (x =? y)%N then stripPrefix p' s' else None
  | _ :: _, [] => None
  end.

Definition literal (word : string) (v : js) (s : jsstring) :=
  match stripPrefix (str word) s with
  | Some rest => Some (v, rest)
  | None => None
  end.

(** The elements of an array after the first has been announced; [n]
    bounds their number. *)
Fixpoint parseElements (value : jsstring -> option (js * jsstring))
    (n : nat) (acc : list js) (s : jsstring) : option (js * jsstring) :=
  match n with
  | O => None
  | S n' =>
    match value s with
    | Some (v, r) =>
      match skipSpace r with
      | c :: r' =>
        if (c =? 44)%N then parseElements value n' (v :: acc) r'
        else if (c =? 93)%N then Some (JArr (rev (v :: acc)), r')
        else None
      | [] => None
      end
    | None => None
    end
  end.

(** The members of an object; [acc] holds the properties defined so
    far. *)
Fixpoint parseMembers (value : jsstring -> option (js * jsstring))
    (n : nat) (acc : list (jsstring * js)) (s : jsstring)
    : option (js * jsstring) :=
  match n with
  | O => None
  | S n' =>
    match skipSpace s with
    | q :: r0 =>
      if (q =? 34)%N then
        match parseChars r0 with
        | Some (k, r1) =>
          match skipSpace r1 with
          | colon :: r2 =>
            if (colon =? 58)%N then
              match value r2 with
              | Some (v, r3) =>
                match skipSpace r3 with
                | c :: r4 =>
                  if (c =? 44)%N
                  then parseMembers value n' (defineProperty k v acc) r4
                  else if (c =? 125)%N
                  then Some (JObj (defineProperty k v acc), r4)
                  else None
                | [] => None
                end
              | None => None
              end
            else None
          | [] => None
          end
        | None => None
        end
      else None
    | [] => None
    end
  end.

(** One JSON value at the head of the text; [fuel] bounds the depth of
    nesting. *)
Fixpoint parseValue (fuel : nat) (s : jsstring) : option (js * jsstring) :=
  match fuel with
  | O => None
  | S fuel' =>
    match skipSpace s with
    | [] => None
    | c :: r =>
      if isDigit c || (c =? 45)%N then lexNumber (c :: r)
      else if (c =? 34)%N then
        match parseChars r with
        | Some (t, r') => Some (JStr t, r')
        | None => None
        end
      else if (c =? 91)%N then
        match skipSpace r with
        | c' :: r' =>
          if (c' =? 93)%N then Some (JArr [], r')
          else parseElements (parseValue fuel') (length r) [] r
        | [] => None
        end
      else if (c =? 123)%N then
        match skipSpace r with
        | c' :: r' =>
          if (c' =? 125)%N then Some (JObj [], r')
          else parseMembers (parseValue fuel') (length r) [] r
        | [] => None
        end
      else if (c =? 116)%N then literal "true" (JBool true) (c :: r)
      else if (c =? 102)%N then literal "false" (JBool false) (c :: r)
      else if (c =? 110)%N then literal "null" JNull (c :: r)
      else None
    end
  end.

(** [JSON.parse(text)]: one value, white space around it, nothing else;
    a [SyntaxError] otherwise. *)
Definition parse (text : jsstring) : result js :=
  match parseValue (length text) text with
  | Some (v, rest) =>
    match skipSpace rest with
    | [] => Ok v
    | _ :: _ => Throw SyntaxError
    end
  | None => Throw SyntaxError
  end.

(** The values that the model covers in full: every number is a safe
    integer, and the keys of an object are distinct and none of them is
    an array index. *)
Fixpoint distinctKeys (fields : list (jsstring * js)) : bool :=
  match fields with
  | [] => true
  | (k, _) :: rest => negb (hasKey k rest) && distinctKeys rest
  end.

Fixpoint covered (v : js) : bool :=
  match v with
  | JNull | JBool _ | JStr _ => true
  | JNum n => (Z.abs_N n <=? maxSafeInteger)%N
  | JNumToken _ => false
  | JArr l => forallb covered l
  | JObj fields =>
    forallb (fun kv => match arrayIndex (fst kv) with
                       | Some _ => false
                       | None => covered (snd kv)
                       end) fields
    && distinctKeys fields
  end.

End JSON.

(** ** The chat data model (types.ts) *)

Module Chat.
Import JS.

Record ChatFile := {
  file_name : jsstring;
  file_type : jsstring;
  file_dataUrl : jsstring
}.

Record GroundingChunk := {
  web_uri : jsstring;
  web_title : jsstring
}.

Inductive Role := user | model.
Inductive Status := pending | error | complete.

Record ChatMessage := {
  msg_id : jsstring;
  msg_role : Role;
  msg_text : jsstring;
  msg_file : optional ChatFile;
  msg_timestamp : Z;
  msg_status : option Status;
  msg_groundingChunks : option (list GroundingChunk)
}.

(** [Content] of the remote API: opaque to the application, which
    stores it and hands it back to the remote client. *)
Definition Content := JSON.js.

Record ChatSession := {
  ses_id : jsstring;
  ses_title : jsstring;
  ses_messages : list ChatMessage;
  ses_history : list Content;
  ses_createdAt : Z
}.

Definition role_eqb (a b : Role) : bool :=
  match a, b with
  | user, user | model, model => true
  | _, _ => false
  end.

Definition is_pending (m : ChatMessage) : bool :=
  match msg_status m with Some pending => true | _ => false end.

(** Record updates [{ ...msg, field: v }]. *)
Definition with_text_status (t : jsstring) (s : Status) (m : ChatMessage) :=
  {| msg_id := msg_id m; msg_role := msg_role m; msg_text := t;
     msg_file := msg_file m; msg_timestamp := msg_timestamp m;
     msg_status := Some s; msg_groundingChunks := msg_groundingChunks m |}.

Definition with_status (s : Status) (m : ChatMessage) :=
  {| msg_id := msg_id m; msg_role := msg_role m; msg_text := msg_text m;
     msg_file := msg_file m; msg_timestamp := msg_timestamp m;
     msg_status := Some s; msg_groundingChunks := msg_groundingChunks m |}.

Definition completed (t : jsstring) (now : Z)
    (g : option (list GroundingChunk)) (m : ChatMessage) :=
  {| msg_id := msg_id m; msg_role := msg_role m; msg_text := t;
     msg_file := msg_file m; msg_timestamp := now;
     msg_status := Some complete; msg_groundingChunks := g |}.

(** *** The session store *)

(** The patch object handed to [updateChat]: each field is optional, and
    the messages are given as a function of the previous message list
    (a plain list is the constant function). *)
Record Patch := {
  patch_title : option jsstring;
  patch_history : option (list Content);
  patch_messages : option (list ChatMessage -> list ChatMessage)
}.

Definition messagesPatch (f : list ChatMessage -> list ChatMessage) :=
  {| patch_title := None; patch_history := None; patch_messages := Some f |}.

Definition from_option {A} (o : option A) (d : A) : A :=
  match o with Some a => a | None => d end.

Definition applyPatch (p : Patch) (s : ChatSession) : ChatSession :=
  {| ses_id := ses_id s;
     ses_title := from_option (patch_title p) (ses_title s);
     ses_messages :=
       match patch_messages p with
       | Some f => f (ses_messages s)
       | None => ses_messages s
       end;
     ses_history := from_option (patch_history p) (ses_history s);
     ses_createdAt := ses_createdAt s |}.

(** Modelled from the spec: [updateChat] of the hook the orchestrator
    imports is not among the sources.  The store's [update(id,
    partialOrFn)] takes a field patch whose messages may be a function
    of the previous message list, and the store is a map keyed by
    session id: the session with that id is patched, every other
    session is left alone. *)
Definition updateChat (id : jsstring) (p : Patch)
    (sessions : list ChatSession) : list ChatSession :=
  map (fun s => if streq (ses_id s) id then applyPatch p s else s) sessions.

(** Modelled from the spec: [currentSession] of the same hook, the one
    session that is current, looked up by [currentChatId]. *)
Definition findSession (id : jsstring) (sessions : list ChatSession) :=
  find (fun s => streq (ses_id s) id) sessions.

End Chat.

(** ** The send orchestrator (the App component) *)

Module App.
Import JS Chat.

(** The two [await] points of [handleSendMessage]. *)
Inductive Phase := AwaitStartChat | AwaitSendMessage.

(** A call of [handleSendMessage] suspended at an [await]: the constants
    of its closure and the point it waits at. *)
Record Task := {
  task_chatId : jsstring;
  task_userMessageId : jsstring;
  task_modelMessageId : jsstring;
  task_messageText : jsstring;
  task_messageFile : optional ChatFile;
  task_history : list Content;
  task_phase : Phase
}.

(** The state of the component: what [useChatHistory] and the [useState]
    cells hold, and the calls that are in flight. *)
Record AppState := {
  sessions : list ChatSession;
  currentChatId : option jsstring;
  input : jsstring;
  file : optional ChatFile;
  isSending : bool;
  cameraModalOpen : bool;
  tasks : list Task
}.

(** What one call of [handleSendMessage] reads from its environment: the
    results of [uuidv4()] and of [Date.now()], in program order. *)
Record SendEnv := {
  uuid_user : jsstring;
  uuid_model : jsstring;
  now_user : Z;
  now_model : Z
}.

(** [currentSession] as the hook hands it to the component: undefined
    when no chat is selected. *)
Definition currentSession (st : AppState) : option ChatSession :=
  match currentChatId st with
  | Some id => findSession id (sessions st)
  | None => None
  end.

Definition set_sessions (ss : list ChatSession) (st : AppState) :=
  {| sessions := ss; currentChatId := currentChatId st; input := input st;
     file := file st; isSending := isSending st;
     cameraModalOpen := cameraModalOpen st; tasks := tasks st |}.

Definition setInput (s : jsstring) (st : AppState) :=
  {| sessions := sessions st; currentChatId := currentChatId st; input := s;
     file := file st; isSending := isSending st;
     cameraModalOpen := cameraModalOpen st; tasks := tasks st |}.

Definition setFile (f : optional ChatFile) (st : AppState) :=
  {| sessions := sessions st; currentChatId := currentChatId st;
     input := input st; file := f; isSending := isSending st;
     cameraModalOpen := cameraModalOpen st; tasks := tasks st |}.

Definition setIsSending (b : bool) (st : AppState) :=
  {| sessions := sessions st; currentChatId := currentChatId st;
     input := input st; file := file st; isSending := b;
     cameraModalOpen := cameraModalOpen st; tasks := tasks st |}.

Definition setCameraModalOpen (b : bool) (st : AppState) :=
  {| sessions := sessions st; currentChatId := currentChatId st;
     input := input st; file := file st; isSending := isSending st;
     cameraModalOpen := b; tasks := tasks st |}.

Definition set_tasks (ts : list Task) (st : AppState) :=
  {| sessions := sessions st; currentChatId := currentChatId st;
     input := input st; file := file st; isSending := isSending st;
     cameraModalOpen := cameraModalOpen st; tasks := ts |}.

(** [updateChat] acting on the component state. *)
Definition update (id : jsstring) (p : Patch) (st : AppState) :=
  set_sessions (updateChat id p (sessions st)) st.

(** [!messageText.trim() && !messageFile] *)
Definition nothingToSend (messageText : jsstring)
    (messageFile : optional ChatFile) : bool :=
  negb (truthy (trim messageText)) && negb (present messageFile).

(** [messageIdToRetry] when it is given and truthy. *)
Definition retriedId (messageIdToRetry : option jsstring) : option jsstring :=
  match messageIdToRetry with
  | Some id => if truthy id then Some id else None
  | None => None
  end.

Definition newUserMessage (id text : jsstring) (f : optional ChatFile)
    (now : Z) : ChatMessage :=
  {| msg_id := id; msg_role := user; msg_text := text; msg_file := f;
     msg_timestamp := now; msg_status := Some complete;
     msg_groundingChunks := None |}.

Definition newModelMessage (id : jsstring) (now : Z) : ChatMessage :=
  {| msg_id := id; msg_role := model; msg_text := []; msg_file := Undefined;
     msg_timestamp := now; msg_status := Some pending;
     msg_groundingChunks := None |}.

(** [prev.filter(m => m.id !== id)] *)
Definition dropId (id : jsstring) (prev : list ChatMessage) :=
  filter (fun m => negb (streq (msg_id m) id)) prev.

(** [handleSendMessage] up to its first [await]: the guard, the two
    optimistic store updates, the reset of the composer, and the call of
    [startChat] that leaves the handler suspended. *)
Definition handleSendMessage (env : SendEnv) (messageText : jsstring)
    (messageFile : optional ChatFile) (messageIdToRetry : option jsstring)
    (st : AppState) : AppState :=
  match currentChatId st, currentSession st with
  | Some chatId, Some session =>
    if nothingToSend messageText messageFile || negb (truthy chatId) then st
    else
      let st := setIsSending true st in
      let userMessageId := from_option (retriedId messageIdToRetry)
                                       (uuid_user env) in
      let userMessage :=
        newUserMessage userMessageId messageText messageFile (now_user env) in
      let modelMessageId := uuid_model env in
      let modelMessage := newModelMessage modelMessageId (now_model env) in
      let st :=
        match retriedId messageIdToRetry with
        | Some rid => update chatId (messagesPatch (dropId rid)) st
        | None => st
        end in
      let st :=
        update chatId
          (messagesPatch (fun prev => prev ++ [userMessage; modelMessage]))
          st in
      let st := setFile Null (setInput [] st) in
      set_tasks
        (tasks st ++
         [{| task_chatId := chatId; task_userMessageId := userMessageId;
             task_modelMessageId := modelMessageId;
             task_messageText := messageText;
             task_messageFile := messageFile;
             task_history := ses_history session;
             task_phase := AwaitStartChat |}]) st
  | _, _ => st
  end.

(** [handleStreamChunk], the callback given to [sendMessage]. *)
Definition streamChunkUpdate (modelMessageId text : jsstring)
    (prev : list ChatMessage) : list ChatMessage :=
  map (fun msg => if streq (msg_id msg) modelMessageId
                  then with_text_status text pending msg else msg) prev.

Definition handleStreamChunk (t : Task) (text : jsstring) (st : AppState) :=
  update (task_chatId t)
    (messagesPatch (streamChunkUpdate (task_modelMessageId t) text)) st.

(** The store update after [sendMessage] has resolved. *)
Definition completionUpdate (modelMessageId finalResponseText : jsstring)
    (now : Z) (groundingChunks : option (list GroundingChunk))
    (prev : list ChatMessage) : list ChatMessage :=
  map (fun msg => if streq (msg_id msg) modelMessageId
                  then completed finalResponseText now groundingChunks msg
                  else msg) prev.

(** The store update of the [catch] block. *)
Definition failureUpdate (userMessageId modelMessageId : jsstring)
    (prev : list ChatMessage) : list ChatMessage :=
  dropId modelMessageId
    (map (fun msg => if streq (msg_id msg) userMessageId
                     then with_status error msg else msg) prev).

Definition sameTask (id : jsstring) (t : Task) : bool :=
  streq (task_modelMessageId t) id.

Definition findTask (id : jsstring) (st : AppState) : option Task :=
  find (sameTask id) (tasks st).

(** The handler has run to its end: it leaves the list of suspended
    calls, after its [finally] block. *)
Definition finish (t : Task) (st : AppState) : AppState :=
  set_tasks
    (filter (fun t' => negb (sameTask (task_modelMessageId t) t')) (tasks st))
    (setIsSending false st).

Definition onResolved (t : Task) (finalResponseText : jsstring)
    (groundingChunks : option (list GroundingChunk))
    (chatHistory : list Content) (now : Z) (st : AppState) : AppState :=
  finish t
    (update (task_chatId t)
       {| patch_title := None; patch_history := Some chatHistory;
          patch_messages :=
            Some (completionUpdate (task_modelMessageId t)
                    finalResponseText now groundingChunks) |} st).

Definition onRejected (t : Task) (st : AppState) : AppState :=
  finish t
    (update (task_chatId t)
       (messagesPatch
          (failureUpdate (task_userMessageId t) (task_modelMessageId t))) st).

Definition handleSuggestedQuestionClick (env : SendEnv) (question : jsstring)
    (st : AppState) : AppState :=
  handleSendMessage env question Null None st.

Definition handleRetry (env : SendEnv) (messageId : jsstring)
    (st : AppState) : AppState :=
  match currentSession st with
  | Some session =>
    match find (fun m => streq (msg_id m) messageId) (ses_messages session) with
    | Some messageToRetry =>
      handleSendMessage env (msg_text messageToRetry)
        (msg_file messageToRetry) (Some messageId) st
    | None => st
    end
  | None => st
  end.

(** [[...messages].reverse().find(m => m.role === 'user')] *)
Definition lastUser (messages : list ChatMessage) : option ChatMessage :=
  find (fun m => role_eqb (msg_role m) user) (rev messages).

(** The filter of [handleRegenerate]; [lastId] is the id of the last
    message of the session the handler was rendered with. *)
Definition dropLastModel (lastId : jsstring) (prev : list ChatMessage) :=
  filter (fun m => negb (role_eqb (msg_role m) model)
                   || negb (streq (msg_id m) lastId)) prev.

Definition handleRegenerate (env : SendEnv) (st : AppState) : AppState :=
  match currentSession st with
  | Some session =>
    if isSending st then st
    else
      match lastUser (ses_messages session) with
      | Some lastUserMessage =>
        match last (map (fun m => Some (msg_id m)) (ses_messages session)) None with
        | Some lastId =>
          handleSendMessage env (msg_text lastUserMessage)
            (msg_file lastUserMessage) None
            (update (ses_id session) (messagesPatch (dropLastModel lastId)) st)
        | None => st
        end
      | None => st
      end
  | None => st
  end.

Definition handleSendFromCamera (env : SendEnv) (isoTime dataUrl prompt : jsstring)
    (st : AppState) : AppState :=
  let cameraFile :=
    {| file_name := str "capture_" ++ isoTime ++ str ".jpg";
       file_type := str "image/jpeg";
       file_dataUrl := dataUrl |} in
  setCameraModalOpen false (handleSendMessage env prompt (Has cameraFile) None st).

Definition handleUpdateTitle (id title : jsstring) (st : AppState) :=
  update id {| patch_title := Some title; patch_history := None;
               patch_messages := None |} st.

(** What can happen to the component: the user acts on a control, or the
    remote service answers a suspended call, named by the id of its model
    message. *)
Inductive Event :=
| TypeInput (s : jsstring)
| AttachFile (f : optional ChatFile)
| ComposerSubmit (env : SendEnv)
| SuggestedQuestionClick (env : SendEnv) (question : jsstring)
| RetryClick (env : SendEnv) (messageId : jsstring)
| RegenerateClick (env : SendEnv)
| OpenCamera
| CameraSend (env : SendEnv) (isoTime dataUrl prompt : jsstring)
| TitleEdit (id title : jsstring)
| StartChatResolved (task : jsstring)
| StartChatRejected (task : jsstring)
| StreamChunk (task : jsstring) (text : jsstring)
| SendMessageResolved (task : jsstring) (finalResponseText : jsstring)
    (groundingChunks : option (list GroundingChunk))
    (chatHistory : list Content) (now : Z)
| SendMessageRejected (task : jsstring).

Definition set_phase (p : Phase) (t : Task) : Task :=
  {| task_chatId := task_chatId t; task_userMessageId := task_userMessageId t;
     task_modelMessageId := task_modelMessageId t;
     task_messageText := task_messageText t;
     task_messageFile := task_messageFile t;
     task_history := task_history t; task_phase := p |}.

Definition atPhase (p : Phase) (t : Task) : bool :=
  match p, task_phase t with
  | AwaitStartChat, AwaitStartChat | AwaitSendMessage, AwaitSendMessage => true
  | _, _ => false
  end.

(** One event.  An answer of the remote service is possible only for a
    call suspended at the matching [await]; the composer's controls are
    disabled while [isSending] is set, so a submit does nothing then. *)
Definition step (st : AppState) (e : Event) : option AppState :=
  match e with
  | TypeInput s => Some (setInput s st)
  | AttachFile f => Some (setFile f st)
  | ComposerSubmit env =>
    Some (if isSending st then st
          else handleSendMessage env (input st) (file st) None st)
  | SuggestedQuestionClick env q => Some (handleSuggestedQuestionClick env q st)
  | RetryClick env id => Some (handleRetry env id st)
  | RegenerateClick env => Some (handleRegenerate env st)
  | OpenCamera => Some (setCameraModalOpen true st)
  | CameraSend env iso url prompt =>
    if cameraModalOpen st then Some (handleSendFromCamera env iso url prompt st)
    else None
  | TitleEdit id title => Some (handleUpdateTitle id title st)
  | StartChatResolved id =>
    match findTask id st with
    | Some t =>
      if atPhase AwaitStartChat t
      then Some (set_tasks
                   (map (fun t' => if sameTask id t'
                                   then set_phase AwaitSendMessage t' else t')
                        (tasks st)) st)
      else None
    | None => None
    end
  | StartChatRejected id =>
    match findTask id st with
    | Some t => if atPhase AwaitStartChat t then Some (onRejected t st) else None
    | None => None
    end
  | StreamChunk id text =>
    match findTask id st with
    | Some t =>
      if atPhase AwaitSendMessage t then Some (handleStreamChunk t text st)
      else None
    | None => None
    end
  | SendMessageResolved id text g h now =>
    match findTask id st with
    | Some t =>
      if atPhase AwaitSendMessage t then Some (onResolved t text g h now st)
      else None
    | None => None
    end
  | SendMessageRejected id =>
    match findTask id st with
    | Some t =>
      if atPhase AwaitSendMessage t then Some (onRejected t st) else None
    | None => None
    end
  end.

Fixpoint run (st : AppState) (es : list Event) : option AppState :=
  match es with
  | [] => Some st
  | e :: es' =>
    match step st e with
    | Some st' => run st' es'
    | None => None
    end
  end.

(** The messages of the current session, as [ChatDisplay] receives them:
    [currentSession?.messages || []]. *)
Definition shownMessages (st : AppState) : list ChatMessage :=
  match currentSession st with
  | Some s => ses_messages s
  | None => []
  end.

End App.

(** ** The chat history hook (hooks/useChatHistory.ts) *)

Module History.
Import JS JSON.

Inductive Role := user | assistant.

Record ChatMessage := {
  m_id : jsstring;
  m_role : Role;
  m_content : jsstring;
  m_timestamp : Z
}.

Record ChatSession := {
  s_id : jsstring;
  s_messages : list ChatMessage;
  s_createdAt : Z;
  s_updatedAt : Z
}.

Definition STORAGE_KEY : jsstring := str "chat_history".

(** The state of the hook's two [useState] cells. *)
Record HookState := {
  sessions : list ChatSession;
  currentSessionId : option jsstring
}.

(** [Omit<ChatMessage, 'id' | 'timestamp'>] *)
Record MessageInput := {
  in_role : Role;
  in_content : jsstring
}.

(** What the hook reads from its environment: the successive results of
    [Date.now()], and the successive results of
    [Math.random().toString(36).substr(2, 9)]. *)
Record Env := {
  now : nat -> Z;
  random : nat -> jsstring
}.

(** [`session_${Date.now()}_${...}`] *)
Definition sessionId (t : Z) (r : jsstring) : jsstring :=
  str "session_" ++ numberText t ++ str "_" ++ r.

(** [`msg_${Date.now()}_${...}`] *)
Definition messageId (t : Z) (r : jsstring) : jsstring :=
  str "msg_" ++ numberText t ++ str "_" ++ r.

(** [createSession]; [k] and [j] count the readings of the clock and of
    the random source made so far. *)
Definition createSession (env : Env) (k j : nat) (st : HookState)
    : jsstring * HookState :=
  let newSession :=
    {| s_id := sessionId (now env k) (random env j); s_messages := [];
       s_createdAt := now env (k + 1); s_updatedAt := now env (k + 2) |} in
  (s_id newSession,
   {| sessions := sessions st ++ [newSession];
      currentSessionId := Some (s_id newSession) |}).

(** The state update of [addMessage]: every session with the id gets the
    message appended and [updatedAt] set to a new reading of the clock,
    the [k]th; the other sessions are passed on. *)
Fixpoint appendMessage (env : Env) (k : nat) (sessionId : jsstring)
    (newMessage : ChatMessage) (prev : list ChatSession) : list ChatSession :=
  match prev with
  | [] => []
  | session :: rest =>
    if streq (s_id session) sessionId
    then {| s_id := s_id session;
            s_messages := s_messages session ++ [newMessage];
            s_createdAt := s_createdAt session;
            s_updatedAt := now env k |}
         :: appendMessage env (S k) sessionId newMessage rest
    else session :: appendMessage env k sessionId newMessage rest
  end.

Definition newMessage (env : Env) (k j : nat) (message : MessageInput)
    : ChatMessage :=
  {| m_id := messageId (now env k) (random env j);
     m_role := in_role message; m_content := in_content message;
     m_timestamp := now env (k + 1) |}.

Definition addMessage (env : Env) (k j : nat) (sessionId : jsstring)
    (message : MessageInput) (st : HookState) : HookState :=
  {| sessions := appendMessage env (k + 2) sessionId
                   (newMessage env k j message) (sessions st);
     currentSessionId := currentSessionId st |}.

Definition optEq (a : option jsstring) (b : jsstring) : bool :=
  match a with Some x => streq x b | None => false end.

Definition deleteSession (sessionId : jsstring) (st : HookState) : HookState :=
  {| sessions := filter (fun session => negb (streq (s_id session) sessionId))
                        (sessions st);
     currentSessionId :=
       if optEq (currentSessionId st) sessionId then None
       else currentSessionId st |}.

Definition clearAllSessions (st : HookState) : HookState :=
  {| sessions := []; currentSessionId := None |}.

Definition getSession (sessionId : jsstring) (st : HookState) :=
  find (fun session => streq (s_id session) sessionId) (sessions st).

Definition getCurrentSession (st : HookState) : option ChatSession :=
  match currentSessionId st with
  | Some id => if truthy id then getSession id st else None
  | None => None
  end.

(** *** Persistence *)

(** The session list as the JavaScript value it is: an object per
    session and per message, with its properties in the order in which
    the hook writes them ([{ ...message, id, timestamp }] for a
    message). *)
Definition roleValue (r : Role) : js :=
  JStr (match r with user => str "user" | assistant => str "assistant" end).

Definition messageValue (m : ChatMessage) : js :=
  JObj [(str "role", roleValue (m_role m));
        (str "content", JStr (m_content m));
        (str "id", JStr (m_id m));
        (str "timestamp", JNum (m_timestamp m))].

Definition sessionValue (s : ChatSession) : js :=
  JObj [(str "id", JStr (s_id s));
        (str "messages", JArr (map messageValue (s_messages s)));
        (str "createdAt", JNum (s_createdAt s));
        (str "updatedAt", JNum (s_updatedAt s))].

Definition sessionsValue (l : list ChatSession) : js :=
  JArr (map sessionValue l).

(** The browser's local storage, seen from this hook: the entry under
    the hook's key, the room the other entries take, the quota of the
    origin, and whether access to the storage is refused. *)
Record Storage := {
  entry : option jsstring;
  otherUse : nat;
  quota : nat;
  denied : bool
}.

(** [localStorage.getItem(STORAGE_KEY)] *)
Definition getItem (st : Storage) : result (option jsstring) :=
  if denied st then Throw SecurityError else Ok (entry st).

(** [localStorage.setItem(STORAGE_KEY, value)] *)
Definition setItem (value : jsstring) (st : Storage) : result Storage :=
  if denied st then Throw SecurityError
  else if (otherUse st + length STORAGE_KEY + length value <=? quota st)%nat
  then Ok {| entry := Some value; otherUse := otherUse st;
             quota := quota st; denied := false |}
  else Throw QuotaExceededError.

(** The hook at run time: the value its [sessions] cell holds, whether
    a render with a new value is due, the storage, and what went to the
    console. *)
Record World := {
  held : js;
  renderDue : bool;
  storage : Storage;
  console : list (jsstring * exn)
}.

Definition setSessions (v : js) (w : World) : World :=
  {| held := v; renderDue := true; storage := storage w; console := console w |}.

Definition setStorage (st : Storage) (w : World) : World :=
  {| held := held w; renderDue := renderDue w; storage := st;
     console := console w |}.

Definition consoleError (text : jsstring) (e : exn) (w : World) : World :=
  {| held := held w; renderDue := renderDue w; storage := storage w;
     console := console w ++ [(text, e)] |}.

(** The effect that loads the sessions on mount. *)
Definition loadEffect (w : World) : result World :=
  tryCatch
    (bind (getItem (storage w)) (fun stored =>
       match stored with
       | Some text =>
         if truthy text
         then bind (parse text) (fun parsed => Ok (setSessions parsed w))
         else Ok w
       | None => Ok w
       end))
    (fun e => Ok (consoleError (str "Failed to load chat history:") e w)).

(** The effect that saves the sessions; [rendered] is the value of
    [sessions] in the render the effect belongs to. *)
Definition saveEffect (rendered : js) (w : World) : result World :=
  tryCatch
    (bind (setItem (stringify rendered) (storage w)) (fun st =>
       Ok (setStorage st w)))
    (fun e => Ok (consoleError (str "Failed to save chat history:") e w)).

Definition rendered (w : World) : World :=
  {| held := held w; renderDue := false; storage := storage w;
     console := console w |}.

(** Mounting the hook: the first render sees the empty list, its two
    effects run in the order of the source, and when the load has set
    the sessions the next render runs the save effect again. *)
Definition mount (st : Storage) : result World :=
  let w0 := {| held := JArr []; renderDue := false; storage := st;
               console := [] |} in
  bind (loadEffect w0) (fun w1 =>
  bind (saveEffect (JArr []) w1) (fun w2 =>
  if renderDue w2 then saveEffect (held w2) (rendered w2) else Ok w2)).

(** A change of the sessions: the next render runs the save effect. *)
Definition change (l : list ChatSession) (w : World) : result World :=
  saveEffect (sessionsValue l) (rendered (setSessions (sessionsValue l) w)).

End History.

(** ** The older send handler (App.tsx) *)

Module LegacyApp.
Import JS.

(** The [ChatFile] of this version: a browser [File], kept here by its
    name, and the URL of its preview. *)
Record ChatFile := {
  cf_file : jsstring;
  cf_preview : jsstring
}.

Inductive Role := user | model.

Record ChatMessage := {
  lm_id : jsstring;
  lm_role : Role;
  lm_content : jsstring;
  lm_timestamp : Z;
  lm_file : optional ChatFile
}.

(** What [handleSend] closes over: the composer's cells, and of the
    current session its messages ([currentSession?.messages || []]) and
    whether it has a chat handle. *)
Record Closure := {
  input : jsstring;
  file : optional ChatFile;
  isSending : bool;
  currentChatId : option jsstring;
  messages : list ChatMessage;
  hasChat : bool
}.

(** What the handler does to the world outside it, in order. *)
Inductive Effect :=
| SetIsSending (b : bool)
| SetInput (s : jsstring)
| SetFile (f : optional ChatFile)
| UpdateChat (id : option jsstring) (messages : list ChatMessage)
    (withChat : bool)
| StartChat
| SendMessage (text : jsstring) (file : optional jsstring).

(** The answers of the remote service: whether [startChat] resolves,
    and what [sendMessage] resolves to, if it does. *)
Record Remote := {
  startChatResolves : bool;
  response : option jsstring
}.

Record Env := {
  uuid_user : jsstring;
  now_user : Z;
  uuid_reply : jsstring;
  now_reply : Z
}.

Definition errorText : jsstring :=
  str "Sorry, there was an error processing your request.".

Definition reply (env : Env) (content : jsstring) : ChatMessage :=
  {| lm_id := uuid_reply env; lm_role := model; lm_content := content;
     lm_timestamp := now_reply env; lm_file := Undefined |}.

(** The [try] block: its effects, and whether it threw. *)
Definition attempt (env : Env) (c : Closure) (remote : Remote)
    (updatedMessages : list ChatMessage) : list Effect * bool :=
  let send :=
    SendMessage (trim (input c))
      (match file c with Has f => Has (cf_file f) | _ => Undefined end) in
  let sent :=
    match response remote with
    | Some text =>
      ([send; UpdateChat (currentChatId c)
                (updatedMessages ++ [reply env text]) true], false)
    | None => ([send], true)
    end in
  if hasChat c then sent
  else if startChatResolves remote
       then (StartChat :: UpdateChat (currentChatId c) updatedMessages true
             :: fst sent, snd sent)
       else ([StartChat], true).

Definition handleSend (env : Env) (c : Closure) (remote : Remote)
    : list Effect :=
  if (negb (truthy (trim (input c))) && negb (present (file c)))
     || isSending c
  then []
  else
    let userMessage :=
      {| lm_id := uuid_user env; lm_role := user;
         lm_content := trim (input c); lm_timestamp := now_user env;
         lm_file := orUndefined (file c) |} in
    let updatedMessages := messages c ++ [userMessage] in
    let (effects, threw) := attempt env c remote updatedMessages in
    [SetIsSending true; SetInput []; SetFile Null;
     UpdateChat (currentChatId c) updatedMessages false]
    ++ effects
    ++ (if threw
        then [UpdateChat (currentChatId c)
                (updatedMessages ++ [reply env errorText]) false]
        else [])
    ++ [SetIsSending false].

(** The message list of the last [updateChat] of a run. *)
Fixpoint lastUpdate (effects : list Effect) : option (list ChatMessage) :=
  match effects with
  | [] => None
  | e :: rest =>
    match lastUpdate rest with
    | Some l => Some l
    | None => match e with UpdateChat _ l _ => Some l | _ => None end
    end
  end.

End LegacyApp.

(** ** Vocabulary for the orchestrator's properties *)

Module AppSpec.
Import JS Chat App.

(** No message of the list carries the id. *)
Definition fresh (id : jsstring) (l : list ChatMessage) : Prop :=
  ~ In id (map msg_id l).

Definition isModel (m : ChatMessage) : bool := role_eqb (msg_role m) model.
Definition isUser (m : ChatMessage) : bool := role_eqb (msg_role m) user.

(** The state in which [handleSendMessage] leaves the component when its
    guard lets the call through. *)
Definition sentTask (env : SendEnv) (cid text : jsstring)
    (f : optional ChatFile) (rid : option jsstring) (s : ChatSession) : Task :=
  {| task_chatId := cid;
     task_userMessageId := from_option (retriedId rid) (uuid_user env);
     task_modelMessageId := uuid_model env;
     task_messageText := text; task_messageFile := f;
     task_history := ses_history s; task_phase := AwaitStartChat |}.

Definition sentMessages (env : SendEnv) (text : jsstring)
    (f : optional ChatFile) (rid : option jsstring)
    (prev : list ChatMessage) : list ChatMessage :=
  match retriedId rid with Some r => dropId r prev | None => prev end
  ++ [newUserMessage (from_option (retriedId rid) (uuid_user env)) text f
        (now_user env);
      newModelMessage (uuid_model env) (now_model env)].

(** The messages a send leaves in front of the pair it appends. *)
Definition sentBase (rid : option jsstring) (prev : list ChatMessage) :=
  match retriedId rid with Some r => dropId r prev | None => prev end.

(** *** A call in flight

    The component state while one call of [handleSendMessage] for the
    chat [cid] is suspended: [F] is what the handler has made of the
    message list so far, [t] the suspended call. *)
Definition flying (st : AppState) (cid : jsstring)
    (F : list ChatMessage -> list ChatMessage) (t : Task) : AppState :=
  {| sessions := updateChat cid (messagesPatch F) (sessions st);
     currentChatId := Some cid; input := []; file := Null;
     isSending := true; cameraModalOpen := cameraModalOpen st;
     tasks := tasks st ++ [t] |}.

(** The state after the handler has run to its end. *)
Definition landed (st : AppState) (cid : jsstring) (p : Patch) : AppState :=
  {| sessions := updateChat cid p (sessions st);
     currentChatId := Some cid; input := []; file := Null;
     isSending := false; cameraModalOpen := cameraModalOpen st;
     tasks := tasks st |}.

(** The message list after the chunks [cs] have been applied in order. *)
Definition streamed (mid : jsstring) (cs : list jsstring)
    (l : list ChatMessage) : list ChatMessage :=
  fold_left (fun acc c => streamChunkUpdate mid c acc) cs l.

(** Each chunk overwrites the text: only the last one shows. *)
Definition lastChunk (cs : list jsstring) (m : ChatMessage) : ChatMessage :=
  match cs with
  | [] => m
  | _ :: _ => with_text_status (last cs []) pending m
  end.

(** How a send fails: [startChat] rejects, or [sendMessage] rejects after
    it has delivered the chunks [cs]. *)
Inductive Failure := StartFails | SendFails (cs : list jsstring).

Definition failingRun (mid : jsstring) (how : Failure) : list Event :=
  match how with
  | StartFails => [StartChatRejected mid]
  | SendFails cs =>
    StartChatResolved mid :: map (StreamChunk mid) cs ++ [SendMessageRejected mid]
  end.

(** The outcome the specification asks of a failed send: the user
    message is marked, the placeholder is gone, one message was added,
    and the model messages are those from before. *)
Definition failedSendOutcome (st : AppState) (env : SendEnv)
    (text : jsstring) (f : optional ChatFile) (rid : option jsstring)
    (how : Failure) : Prop :=
  exists st',
    run (handleSendMessage env text f rid st)
        (failingRun (uuid_model env) how) = Some st' /\
    (exists u, In u (shownMessages st') /\
               msg_id u = from_option (retriedId rid) (uuid_user env) /\
               msg_status u = Some error) /\
    fresh (uuid_model env) (shownMessages st') /\
    length (shownMessages st') = length (shownMessages st) + 1 /\
    filter isModel (shownMessages st') = filter isModel (shownMessages st).



(** What the specification says of retry, on the message lists before
    and after: the message with the id is replaced where it stands by a
    user message with the same id, and a model reply is appended. *)
Definition retryInPlace (id : jsstring)
    (before after : list ChatMessage) : Prop :=
  exists l1 m l2 m' r,
    before = l1 ++ m :: l2 /\ msg_id m = id /\
    after = l1 ++ m' :: l2 ++ [r] /\ msg_id m' = id /\
    isUser m' = true /\ isModel r = true.

(** *** Single flight *)

(** The events that reach [handleSendMessage] without a test of
    [isSending] on their way. *)
Definition startsUnguarded (e : Event) : bool :=
  match e with
  | SuggestedQuestionClick _ _ | RetryClick _ _ | CameraSend _ _ _ _ => true
  | _ => false
  end.

Definition envOf (e : Event) : option SendEnv :=
  match e with
  | ComposerSubmit env | SuggestedQuestionClick env _ | RetryClick env _
  | RegenerateClick env | CameraSend env _ _ _ => Some env
  | _ => None
  end.

(** The ids that occur in the messages of the sessions. *)
Definition messageIds (st : AppState) : list jsstring :=
  flat_map (fun s => map msg_id (ses_messages s)) (sessions st).

(** [uuidv4] hands out ids that are new. *)
Definition freshEnv (st : AppState) (env : SendEnv) : Prop :=
  ~ In (uuid_user env) (messageIds st) /\
  ~ In (uuid_model env) (messageIds st) /\
  uuid_user env <> uuid_model env.

(** The discipline that the in-flight flag is there for: an event that
    would start a send unguarded comes only while nothing is in
    flight. *)
Definition disciplined (st : AppState) (e : Event) : Prop :=
  (startsUnguarded e = true -> isSending st = false) /\
  (forall env, envOf e = Some env -> freshEnv st env).

Inductive reaches (st0 : AppState) : AppState -> Prop :=
| reaches_start : reaches st0 st0
| reaches_step st e st' :
    reaches st0 st -> disciplined st e -> step st e = Some st' ->
    reaches st0 st'.

(** A session whose ids are distinct and whose pending messages all
    belong to the one call in flight. *)
Definition sessionOk (ts : list Task) (s : ChatSession) : Prop :=
  NoDup (map msg_id (ses_messages s)) /\
  forall m, In m (ses_messages s) -> is_pending m = true ->
    exists t, ts = [t] /\ msg_id m = task_modelMessageId t
              /\ ses_id s = task_chatId t.

Definition singleFlight (st : AppState) : Prop :=
  (isSending st = false -> tasks st = []) /\
  (length (tasks st) <= 1)%nat /\
  Forall (sessionOk (tasks st)) (sessions st).

End AppSpec.

(** ** Vocabulary for the properties of JSON texts *)

Module JSONSpec.
Import JS JSON.

(** The text goes on with something that cannot belong to a value: it is
    at its end, or a comma, a closing bracket or a closing brace
    follows. *)
Definition delimited (rest : jsstring) : Prop :=
  match rest with
  | [] => True
  | c :: _ => c = 44%N \/ c = 93%N \/ c = 125%N
  end.

(** How deep the arrays and objects of a value are nested. *)
Fixpoint depth (v : js) : nat :=
  match v with
  | JArr l => S (fold_right (fun x acc => Nat.max (depth x) acc) 0%nat l)
  | JObj fields =>
    S (fold_right (fun kv acc => Nat.max (depth (snd kv)) acc) 0%nat fields)
  | _ => 0%nat
  end.

Definition memberText (kv : jsstring * js) : jsstring :=
  quote (fst kv) ++ 58%N :: stringify (snd kv).

(** The characters a printed value can start with. *)
Definition valueStart (c : N) : bool :=
  (isDigit c || (c =? 45) || (c =? 34) || (c =? 91) || (c =? 123)
   || (c =? 116) || (c =? 102) || (c =? 110))%N.

(** A value is read back at the given depth of fuel. *)
Definition readsBack (fuel : nat) (v : js) : Prop :=
  forall rest, delimited rest ->
    parseValue fuel (stringify v ++ rest) = Some (v, rest).

End JSONSpec.

(** ** Vocabulary for the properties of the persistence *)

Module HistorySpec.
Import JS JSON History.

Definition safeInteger (z : Z) : bool := (Z.abs_N z <=? maxSafeInteger)%N.

(** Every time stamp of the list is a safe integer, as the results of
    [Date.now()] are. *)
Definition storable (l : list ChatSession) : bool :=
  forallb (fun s => safeInteger (s_createdAt s) && safeInteger (s_updatedAt s)
                    && forallb (fun m => safeInteger (m_timestamp m))
                               (s_messages s)) l.

(** The load finds nothing it can use: access is refused, there is no
    entry or an empty one, or the entry does not parse. *)
Definition loadFails (st : Storage) : Prop :=
  denied st = true \/ entry st = None \/ entry st = Some [] \/
  exists text e, entry st = Some text /\ parse text = Throw e.

Definition saveFails (v : js) (st : Storage) : Prop :=
  exists e, setItem (stringify v) st = Throw e.

(** The text is not the text of a session list: what it parses to, if
    it parses, is no list of sessions. *)
Definition corrupt (text : jsstring) : Prop :=
  forall l, parse text <> Ok (sessionsValue l).

(** What the specification says of a corrupt entry: the mount returns
    with the empty session list. *)
Definition degradesToEmpty (st : Storage) : Prop :=
  exists w, mount st = Ok w /\ held w = JArr [].

End HistorySpec.

(** ** Vocabulary for the life cycle of a send *)

Module SendSpec.
Import JS Chat App AppSpec.

(** The answers of the remote service to a send that succeeds: the chat
    is opened, the chunks [cs] arrive, and the call resolves. *)
Definition completingRun (mid : jsstring) (cs : list jsstring)
    (final : jsstring) (g : option (list GroundingChunk))
    (h : list Content) (now : Z) : list Event :=
  StartChatResolved mid :: map (StreamChunk mid) cs
  ++ [SendMessageResolved mid final g h now].

(** The call that the event brings to its end, if it ends one. *)
Definition finishes (e : Event) : option jsstring :=
  match e with
  | StartChatRejected id | SendMessageResolved id _ _ _ _
  | SendMessageRejected id => Some id
  | _ => None
  end.

(** The sessions with another id than [cid] are where and what they
    were. *)
Definition othersUntouched (cid : jsstring)
    (before after : list ChatSession) : Prop :=
  length after = length before /\
  forall i s, nth_error before i = Some s -> ses_id s <> cid ->
              nth_error after i = Some s.

(** The user message of a send, as it is appended. *)
Definition sentUser (env : SendEnv) (text : jsstring) (f : optional ChatFile)
    (rid : option jsstring) : ChatMessage :=
  newUserMessage (from_option (retriedId rid) (uuid_user env)) text f
    (now_user env).


(** The suspended call that an answer of the remote service belongs
    to. *)
Definition answers (e : Event) : option jsstring :=
  match e with
  | StartChatResolved id | StartChatRejected id | StreamChunk id _
  | SendMessageResolved id _ _ _ _ | SendMessageRejected id => Some id
  | _ => None
  end.

End SendSpec.

(** ** Vocabulary for the operations of the history hook *)

Module HookSpec.
Import JS JSON History.

Definition sessionIds (st : HookState) : list jsstring :=
  map s_id (sessions st).

(** The session that [createSession] makes. *)
Definition createdSession (env : Env) (k j : nat) : ChatSession :=
  {| s_id := sessionId (now env k) (random env j); s_messages := [];
     s_createdAt := now env (k + 1); s_updatedAt := now env (k + 2) |}.

(** A session after [addMessage] has reached it first. *)
Definition withMessage (env : Env) (k : nat) (msg : ChatMessage)
    (s : ChatSession) : ChatSession :=
  {| s_id := s_id s; s_messages := s_messages s ++ [msg];
     s_createdAt := s_createdAt s; s_updatedAt := now env k |}.

(** The calls a component can make on the hook, each from a render that
    has seen the state the call before it has left. *)
Inductive Op :=
| Create (k j : nat)
| Add (k j : nat) (sessionId : jsstring) (message : MessageInput)
| Delete (sessionId : jsstring)
| Clear.

Definition perform (env : Env) (st : HookState) (op : Op) : HookState :=
  match op with
  | Create k j => snd (createSession env k j st)
  | Add k j sid message => addMessage env k j sid message st
  | Delete sid => deleteSession sid st
  | Clear => clearAllSessions st
  end.

Definition performAll (env : Env) (ops : list Op) (st : HookState) :=
  fold_left (perform env) ops st.


(** Every [createSession] of the sequence draws an id that no session
    carries at that moment. *)
Fixpoint createsFresh (env : Env) (st : HookState) (ops : list Op) : Prop :=
  match ops with
  | [] => True
  | op :: rest =>
    match op with
    | Create k j => ~ In (sessionId (now env k) (random env j)) (sessionIds st)
    | _ => True
    end /\ createsFresh env (perform env st op) rest
  end.

(** A reading of the clock: an integer that [toString] prints in plain
    decimal digits. *)
Definition clockReading (t : Z) : Prop := (Z.abs t < 10 ^ 21)%Z.

End HookSpec.

(** ** Vocabulary for the properties of the storage *)

Module StorageSpec.
Import JS JSON History.

(** The storage has room for the text under the hook's key. *)
Definition fits (text : jsstring) (st : Storage) : Prop :=
  (otherUse st + length STORAGE_KEY + length text <= quota st)%nat.

(** The storage with the text under the hook's key. *)
Definition holding (text : jsstring) (st : Storage) : Storage :=
  {| entry := Some text; otherUse := otherUse st; quota := quota st;
     denied := false |}.

End StorageSpec.

(** ** Vocabulary for the properties of the older send handler *)

Module LegacySpec.
Import JS LegacyApp.

(** Whether the remote service gets as far as an answer: a chat handle
    is there or [startChat] provides one, and [sendMessage] resolves. *)
Definition answered (c : Closure) (remote : Remote) : option jsstring :=
  if hasChat c || startChatResolves remote then response remote else None.

Definition isFlag (e : Effect) : bool :=
  match e with SetIsSending _ => true | _ => false end.

Definition isRemoteCall (e : Effect) : bool :=
  match e with StartChat | SendMessage _ _ => true | _ => false end.

Definition isSendMessage (e : Effect) : bool :=
  match e with SendMessage _ _ => true | _ => false end.

End LegacySpec.

(** ** Sample data *)

Module Scenario.
Import JS Chat App.

Definition chat1 : jsstring := str "chat-1".

Definition emptySession : ChatSession :=
  {| ses_id := chat1; ses_title := str "Ikiganiro gishya"; ses_messages := [];
     ses_history := []; ses_createdAt := 1700000000000 |}.

(** A freshly created chat is selected and nothing is in flight. *)
Definition idle : AppState :=
  {| sessions := [emptySession]; currentChatId := Some chat1; input := [];
     file := Null; isSending := false; cameraModalOpen := false; tasks := [] |}.

Definition env1 : SendEnv :=
  {| uuid_user := str "u-1"; uuid_model := str "m-1";
     now_user := 1700000000100; now_model := 1700000000100 |}.

Definition env2 : SendEnv :=
  {| uuid_user := str "u-2"; uuid_model := str "m-2";
     now_user := 1700000000200; now_model := 1700000000200 |}.

Definition muraho : jsstring := str "Muraho".

Definition userMuraho (st : Status) : ChatMessage :=
  {| msg_id := str "u-1"; msg_role := user; msg_text := muraho;
     msg_file := Null; msg_timestamp := 1700000000100; msg_status := Some st;
     msg_groundingChunks := None |}.

Definition withMessages (ms : list ChatMessage) (sending : bool)
    (ts : list Task) : AppState :=
  {| sessions :=
       [{| ses_id := chat1; ses_title := str "Ikiganiro gishya";
           ses_messages := ms; ses_history := [];
           ses_createdAt := 1700000000000 |}];
     currentChatId := Some chat1; input := []; file := Null;
     isSending := sending; cameraModalOpen := false; tasks := ts |}.

(** The id of a chat that is not in the list is selected. *)
Definition strayChat : AppState :=
  {| sessions := [emptySession]; currentChatId := Some (str "chat-9");
     input := []; file := Null; isSending := false; cameraModalOpen := false;
     tasks := [] |}.

(** The chat after the send of "Muraho" has failed. *)
Definition afterFailure : AppState := withMessages [userMuraho error] false [].

(** The chat while the send of "Muraho" waits for the remote service. *)
Definition murahoTask : Task :=
  {| task_chatId := chat1; task_userMessageId := str "u-1";
     task_modelMessageId := str "m-1"; task_messageText := muraho;
     task_messageFile := Null; task_history := [];
     task_phase := AwaitStartChat |}.

Definition modelReply : ChatMessage :=
  {| msg_id := str "m-0"; msg_role := model;
     msg_text := str "Muraho, nagufasha gute?"; msg_file := Undefined;
     msg_timestamp := 1700000000050; msg_status := Some complete;
     msg_groundingChunks := None |}.

Definition userEarlier : ChatMessage :=
  {| msg_id := str "u-0"; msg_role := user; msg_text := str "Mwaramutse";
     msg_file := Null; msg_timestamp := 1700000000040;
     msg_status := Some complete; msg_groundingChunks := None |}.


(** A failed send followed by an answered turn. *)
Definition failedThenAnswered : AppState :=
  withMessages [userMuraho error; userEarlier; modelReply] false [].

(** One answered turn. *)
Definition answered : AppState :=
  withMessages [userEarlier; modelReply] false [].

Definition inFlight : AppState :=
  withMessages [userMuraho complete; newModelMessage (str "m-1") 1700000000100]
    true [murahoTask].

End Scenario.

(** ** Sample data: calls that overlap *)

Module Overlap.
Import JS Chat App.

Definition captureTime : jsstring := str "2023-11-14T22:13:20.200Z".
Definition captureUrl : jsstring := str "data:image/jpeg;base64,AAAA".

(** "Muraho" waits for the remote service; the camera dialog has been
    opened and a capture was sent from it. *)
Definition twoInFlight : AppState :=
  handleSendFromCamera Scenario.env2 captureTime captureUrl (str "Iki ni iki?")
    (setCameraModalOpen true Scenario.inFlight).

Definition cameraTask : Task :=
  {| task_chatId := Scenario.chat1; task_userMessageId := str "u-2";
     task_modelMessageId := str "m-2"; task_messageText := str "Iki ni iki?";
     task_messageFile :=
       Has {| file_name := str "capture_2023-11-14T22:13:20.200Z.jpg";
              file_type := str "image/jpeg"; file_dataUrl := captureUrl |};
     task_history := []; task_phase := AwaitStartChat |}.

(** "Muraho" is in flight and the remote chat has been opened. *)
Definition streaming : AppState :=
  set_tasks [set_phase AwaitSendMessage Scenario.murahoTask] Scenario.inFlight.

Definition chat2 : jsstring := str "chat-2".

Definition otherSession : ChatSession :=
  {| ses_id := chat2; ses_title := str "Ikindi kiganiro";
     ses_messages := [Scenario.userEarlier; Scenario.modelReply];
     ses_history := []; ses_createdAt := 1700000000010 |}.

(** "Muraho" streams into the first chat while the second chat is the
    selected one. *)
Definition switched : AppState :=
  {| sessions := sessions Scenario.inFlight ++ [otherSession];
     currentChatId := Some chat2; input := []; file := Null;
     isSending := true; cameraModalOpen := false;
     tasks := [set_phase AwaitSendMessage Scenario.murahoTask] |}.

End Overlap.

(* ================================================================== *)
(** * Part II: properties                                              *)
(* ================================================================== *)

(** ** Strings and lists *)

Section ListFacts.
Import JS.

Lemma streq_eq (a b : jsstring) : streq a b = true <-> a = b.
Proof.
  revert b; induction a as [|x a IH]; intros [|y b]; simpl; split;
    try congruence; try reflexivity.
  - intros H. apply andb_true_iff in H as [Hx Hab].
    apply N.eqb_eq in Hx. apply IH in Hab. congruence.
  - intros H. injection H as -> ->. rewrite N.eqb_refl. simpl.
    now apply IH.
Qed.

Lemma streq_refl (a : jsstring) : streq a a = true.
Proof. now apply streq_eq. Qed.

Lemma streq_neq (a b : jsstring) : a <> b -> streq a b = false.
Proof.
  intros H. destruct (streq a b) eqn:E; [|reflexivity].
  apply streq_eq in E. contradiction.
Qed.

Lemma streq_false (a b : jsstring) : streq a b = false -> a <> b.
Proof. intros H ->. rewrite streq_refl in H. discriminate. Qed.

Lemma filter_all {A} (p : A -> bool) (l : list A) :
  (forall x, In x l -> p x = true) -> filter p l = l.
Proof.
  induction l as [|a l IH]; simpl; intros H; [reflexivity|].
  rewrite (H a) by now left. f_equal. apply IH. intros x Hx. apply H. now right.
Qed.

Lemma map_unchanged {A} (f : A -> A) (l : list A) :
  (forall x, In x l -> f x = x) -> map f l = l.
Proof.
  induction l as [|a l IH]; simpl; intros H; [reflexivity|].
  rewrite (H a) by now left. f_equal. apply IH. intros x Hx. apply H. now right.
Qed.

End ListFacts.

(** ** The store *)

Section StoreFacts.
Import JS Chat.

Lemma applyPatch_id (p : Patch) (s : ChatSession) :
  ses_id (applyPatch p s) = ses_id s.
Proof. reflexivity. Qed.

(** Patching the session that is looked up patches the result of the
    lookup. *)
Lemma findSession_updateChat (id : jsstring) (p : Patch) ss :
  findSession id (updateChat id p ss)
  = option_map (applyPatch p) (findSession id ss).
Proof.
  unfold findSession, updateChat.
  induction ss as [|s ss IH]; simpl; [reflexivity|].
  destruct (streq (ses_id s) id) eqn:E; simpl; rewrite E; [reflexivity|exact IH].
Qed.

End StoreFacts.

(** ** The orchestrator *)

Section AppFacts.
Import JS Chat App AppSpec.

Lemma fresh_streq id l m : fresh id l -> In m l -> streq (msg_id m) id = false.
Proof.
  intros Hf Hin. apply streq_neq. intros <-. apply Hf. now apply in_map.
Qed.

Lemma dropId_fresh id l : fresh id l -> dropId id l = l.
Proof.
  intros Hf. apply filter_all. intros m Hm.
  now rewrite (fresh_streq _ _ m Hf Hm).
Qed.

Lemma currentSession_update cid p st :
  currentChatId st = Some cid ->
  currentSession (update cid p st)
  = option_map (applyPatch p) (currentSession st).
Proof.
  intros H. unfold currentSession, update. simpl. rewrite H.
  apply findSession_updateChat.
Qed.

Lemma shownMessages_update cid f st s :
  currentChatId st = Some cid -> currentSession st = Some s ->
  shownMessages (update cid (messagesPatch f) st) = f (ses_messages s).
Proof.
  intros Hc Hs. unfold shownMessages.
  rewrite (currentSession_update _ _ _ Hc), Hs. reflexivity.
Qed.

Lemma updateChat_compose cid f g ss :
  updateChat cid (messagesPatch g) (updateChat cid (messagesPatch f) ss)
  = updateChat cid (messagesPatch (fun prev => g (f prev))) ss.
Proof.
  unfold updateChat. rewrite map_map. apply map_ext. intros s.
  destruct (streq (ses_id s) cid) eqn:E; simpl; rewrite ?E; reflexivity.
Qed.

Lemma handleSendMessage_sent env text f rid st cid s :
  currentChatId st = Some cid -> truthy cid = true ->
  currentSession st = Some s ->
  nothingToSend text f = false ->
  handleSendMessage env text f rid st
  = {| sessions := updateChat cid (messagesPatch (sentMessages env text f rid))
                     (sessions st);
       currentChatId := Some cid; input := []; file := Null;
       isSending := true; cameraModalOpen := cameraModalOpen st;
       tasks := tasks st ++ [sentTask env cid text f rid s] |}.
Proof.
  intros Hc Ht Hs Hn. unfold handleSendMessage. rewrite Hc, Hs, Hn, Ht. simpl.
  unfold sentMessages, sentTask.
  destruct (retriedId rid) as [r|]; simpl.
  - unfold update, set_sessions, set_tasks, setFile, setInput, setIsSending.
    simpl. rewrite updateChat_compose, Hc. reflexivity.
  - unfold update, set_sessions, set_tasks, setFile, setInput, setIsSending.
    simpl. rewrite Hc. reflexivity.
Qed.

Lemma findTask_flying st cid F t :
  findTask (task_modelMessageId t) st = None ->
  findTask (task_modelMessageId t) (flying st cid F t) = Some t.
Proof.
  unfold findTask. simpl. intros Hn.
  induction (tasks st) as [|t' ts IH]; simpl in *.
  - unfold sameTask. now rewrite streq_refl.
  - destruct (sameTask (task_modelMessageId t) t'); [discriminate|]. now apply IH.
Qed.

Lemma others_kept st t (f : Task -> Task) :
  findTask (task_modelMessageId t) st = None ->
  map (fun t' => if sameTask (task_modelMessageId t) t' then f t' else t')
      (tasks st) = tasks st.
Proof.
  unfold findTask. intros Hn. apply map_unchanged. intros t' Hin.
  now rewrite (find_none _ _ Hn t' Hin).
Qed.

Lemma others_stay st t :
  findTask (task_modelMessageId t) st = None ->
  filter (fun t' => negb (sameTask (task_modelMessageId t) t')) (tasks st)
  = tasks st.
Proof.
  unfold findTask. intros Hn. apply filter_all. intros t' Hin.
  now rewrite (find_none _ _ Hn t' Hin).
Qed.

Lemma finish_flying st cid F t p :
  findTask (task_modelMessageId t) st = None -> task_chatId t = cid ->
  finish t (update (task_chatId t) p (flying st cid F t))
  = landed st cid
      {| patch_title := patch_title p; patch_history := patch_history p;
         patch_messages :=
           Some (fun prev => match patch_messages p with
                             | Some G => G (F prev)
                             | None => F prev
                             end) |}.
Proof.
  intros Hn Hc. unfold finish, update, flying, landed, set_tasks, setIsSending,
    set_sessions. simpl. f_equal.
  - rewrite Hc. unfold updateChat. rewrite map_map. apply map_ext. intros s.
    destruct (streq (ses_id s) cid) eqn:E; simpl; rewrite ?E; reflexivity.
  - rewrite filter_app, (others_stay _ _ Hn). simpl.
    unfold sameTask. rewrite streq_refl. simpl. apply app_nil_r.
Qed.

Lemma step_startChat_resolved st cid F t :
  findTask (task_modelMessageId t) st = None ->
  task_phase t = AwaitStartChat ->
  step (flying st cid F t) (StartChatResolved (task_modelMessageId t))
  = Some (flying st cid F (set_phase AwaitSendMessage t)).
Proof.
  intros Hn Hp. unfold step. rewrite (findTask_flying _ _ _ _ Hn).
  unfold atPhase. rewrite Hp. unfold flying, set_tasks. simpl. do 2 f_equal.
  rewrite map_app, (others_kept _ _ _ Hn). simpl.
  unfold sameTask. now rewrite streq_refl.
Qed.

Lemma step_streamChunk st cid F t text :
  findTask (task_modelMessageId t) st = None -> task_chatId t = cid ->
  task_phase t = AwaitSendMessage ->
  step (flying st cid F t) (StreamChunk (task_modelMessageId t) text)
  = Some (flying st cid
            (fun prev => streamChunkUpdate (task_modelMessageId t) text (F prev))
            t).
Proof.
  intros Hn Hc Hp. unfold step. rewrite (findTask_flying _ _ _ _ Hn).
  unfold atPhase. rewrite Hp. f_equal.
  unfold handleStreamChunk, update, flying, set_sessions. simpl. f_equal.
  rewrite Hc. apply updateChat_compose.
Qed.

Lemma step_rejected st cid F t e :
  findTask (task_modelMessageId t) st = None -> task_chatId t = cid ->
  (e = StartChatRejected (task_modelMessageId t)
     /\ task_phase t = AwaitStartChat) \/
  (e = SendMessageRejected (task_modelMessageId t)
     /\ task_phase t = AwaitSendMessage) ->
  step (flying st cid F t) e
  = Some (landed st cid
            (messagesPatch
               (fun prev => failureUpdate (task_userMessageId t)
                              (task_modelMessageId t) (F prev)))).
Proof.
  intros Hn Hc [[-> Hp]|[-> Hp]]; unfold step;
    rewrite (findTask_flying _ _ _ _ Hn); unfold atPhase; rewrite Hp;
    unfold onRejected; now rewrite (finish_flying _ _ _ _ _ Hn Hc).
Qed.

Lemma step_resolved st cid F t text g h now :
  findTask (task_modelMessageId t) st = None -> task_chatId t = cid ->
  task_phase t = AwaitSendMessage ->
  step (flying st cid F t)
       (SendMessageResolved (task_modelMessageId t) text g h now)
  = Some (landed st cid
            {| patch_title := None; patch_history := Some h;
               patch_messages :=
                 Some (fun prev => completionUpdate (task_modelMessageId t)
                                     text now g (F prev)) |}).
Proof.
  intros Hn Hc Hp. unfold step. rewrite (findTask_flying _ _ _ _ Hn).
  unfold atPhase. rewrite Hp. unfold onResolved.
  now rewrite (finish_flying _ _ _ _ _ Hn Hc).
Qed.

Lemma run_chunks cs : forall st cid F t,
  findTask (task_modelMessageId t) st = None -> task_chatId t = cid ->
  task_phase t = AwaitSendMessage ->
  forall rest,
  run (flying st cid F t)
      (map (StreamChunk (task_modelMessageId t)) cs ++ rest)
  = run (flying st cid
           (fun prev => streamed (task_modelMessageId t) cs (F prev)) t) rest.
Proof.
  induction cs as [|c cs IH]; intros st cid F t Hn Hc Hp rest;
    cbn [map app run streamed fold_left].
  - reflexivity.
  - rewrite (step_streamChunk _ _ _ _ _ Hn Hc Hp). now rewrite IH.
Qed.

Lemma shownMessages_flying st cid F t s :
  currentChatId st = Some cid -> currentSession st = Some s ->
  shownMessages (flying st cid F t) = F (ses_messages s).
Proof.
  intros Hc Hs. unfold shownMessages, currentSession, flying. simpl.
  unfold currentSession in Hs. rewrite Hc in Hs.
  now rewrite findSession_updateChat, Hs.
Qed.

Lemma shownMessages_landed st cid p G s :
  currentChatId st = Some cid -> currentSession st = Some s ->
  patch_messages p = Some G ->
  shownMessages (landed st cid p) = G (ses_messages s).
Proof.
  intros Hc Hs Hp. unfold shownMessages, currentSession, landed. simpl.
  unfold currentSession in Hs. rewrite Hc in Hs.
  rewrite findSession_updateChat, Hs. simpl. now rewrite Hp.
Qed.

Lemma handleSendMessage_flying env text f rid st cid s :
  currentChatId st = Some cid -> truthy cid = true ->
  currentSession st = Some s ->
  nothingToSend text f = false ->
  handleSendMessage env text f rid st
  = flying st cid (sentMessages env text f rid) (sentTask env cid text f rid s).
Proof. apply handleSendMessage_sent. Qed.

(** *** The tail of the message list during a send *)

Lemma streamChunkUpdate_tail mid text base u m :
  fresh mid base -> msg_id u <> mid -> msg_id m = mid ->
  streamChunkUpdate mid text (base ++ [u; m])
  = base ++ [u; with_text_status text pending m].
Proof.
  intros Hb Hu Hm. unfold streamChunkUpdate. rewrite map_app. simpl.
  rewrite (streq_neq _ _ Hu), Hm, streq_refl. f_equal.
  apply map_unchanged. intros x Hx. now rewrite (fresh_streq _ _ x Hb Hx).
Qed.

Lemma streamed_tail mid cs : forall base u m,
  fresh mid base -> msg_id u <> mid -> msg_id m = mid ->
  streamed mid cs (base ++ [u; m]) = base ++ [u; lastChunk cs m].
Proof.
  induction cs as [|c cs IH]; intros base u m Hb Hu Hm; [reflexivity|].
  change (streamed mid (c :: cs) (base ++ [u; m]))
    with (streamed mid cs (streamChunkUpdate mid c (base ++ [u; m]))).
  rewrite (streamChunkUpdate_tail _ _ _ _ _ Hb Hu Hm).
  rewrite (IH base u (with_text_status c pending m) Hb Hu Hm). do 3 f_equal.
  destruct cs; reflexivity.
Qed.

Lemma failureUpdate_tail uid mid base u m :
  fresh uid base -> fresh mid base -> uid <> mid ->
  msg_id u = uid -> msg_id m = mid ->
  failureUpdate uid mid (base ++ [u; m]) = base ++ [with_status error u].
Proof.
  intros Hu Hm Hne Eu Em. unfold failureUpdate.
  rewrite map_app. simpl. rewrite Eu, Em, streq_refl.
  rewrite (streq_neq mid uid) by congruence.
  rewrite (map_unchanged _ base).
  2:{ intros x Hx. now rewrite (fresh_streq _ _ x Hu Hx). }
  unfold dropId. rewrite filter_app. simpl.
  rewrite Eu, Em, streq_refl, (streq_neq _ _ Hne). simpl.
  f_equal. now apply dropId_fresh.
Qed.

Lemma completionUpdate_tail mid text now g base u m :
  fresh mid base -> msg_id u <> mid -> msg_id m = mid ->
  completionUpdate mid text now g (base ++ [u; m])
  = base ++ [u; completed text now g m].
Proof.
  intros Hb Hu Hm. unfold completionUpdate. rewrite map_app. simpl.
  rewrite (streq_neq _ _ Hu), Hm, streq_refl. f_equal.
  apply map_unchanged. intros x Hx. now rewrite (fresh_streq _ _ x Hb Hx).
Qed.

Lemma shownMessages_current st s :
  currentSession st = Some s -> shownMessages st = ses_messages s.
Proof. unfold shownMessages. now intros ->. Qed.

(** *** Sends that fail *)

Lemma run_failing st cid F t how :
  findTask (task_modelMessageId t) st = None -> task_chatId t = cid ->
  task_phase t = AwaitStartChat ->
  run (flying st cid F t) (failingRun (task_modelMessageId t) how)
  = Some (landed st cid
            (messagesPatch
               (fun prev =>
                  failureUpdate (task_userMessageId t) (task_modelMessageId t)
                    (match how with
                     | StartFails => F prev
                     | SendFails cs => streamed (task_modelMessageId t) cs (F prev)
                     end)))).
Proof.
  intros Hn Hc Hp. destruct how as [|cs]; cbn [failingRun run].
  - rewrite (step_rejected st cid F t _ Hn Hc) by (left; split; auto).
    reflexivity.
  - rewrite (step_startChat_resolved _ _ _ _ Hn Hp).
    change (task_modelMessageId t)
      with (task_modelMessageId (set_phase AwaitSendMessage t)) at 1 2.
    rewrite run_chunks by auto. cbn [run].
    rewrite (step_rejected st cid _ (set_phase AwaitSendMessage t)
               (SendMessageRejected (task_modelMessageId t)))
      by (auto; right; split; auto).
    reflexivity.
Qed.

(** C1, amended.  A send that does not reuse a message id, in a chat that
    is selected, with ids that [uuidv4] has not handed out before: when
    the remote call fails, before the stream or after any number of
    chunks, the user message just sent is in the session with status
    [error], the placeholder is gone, the session holds one message more
    than before the send, and no model message was added. *)
Theorem failed_send_marks_user_message st env text f rid how cid s :
  currentChatId st = Some cid -> truthy cid = true ->
  currentSession st = Some s ->
  nothingToSend text f = false ->
  retriedId rid = None ->
  fresh (uuid_user env) (ses_messages s) ->
  fresh (uuid_model env) (ses_messages s) ->
  uuid_user env <> uuid_model env ->
  findTask (uuid_model env) st = None ->
  failedSendOutcome st env text f rid how.
Proof.
  intros Hc Ht Hs Hn Hr Hfu Hfm Hne Hnt. unfold failedSendOutcome.
  rewrite (handleSendMessage_flying env text f rid st cid s Hc Ht Hs Hn).
  change (uuid_model env)
    with (task_modelMessageId (sentTask env cid text f rid s)) at 1.
  rewrite run_failing by (auto; reflexivity).
  eexists. split; [reflexivity|].
  erewrite shownMessages_landed; [|exact Hc|exact Hs|reflexivity].
  rewrite (shownMessages_current _ _ Hs).
  unfold sentMessages, sentTask. cbn [task_userMessageId task_modelMessageId].
  rewrite Hr. cbn [from_option].
  assert (Hlast :
    failureUpdate (uuid_user env) (uuid_model env)
      match how with
      | StartFails =>
        ses_messages s ++
        [newUserMessage (uuid_user env) text f (now_user env);
         newModelMessage (uuid_model env) (now_model env)]
      | SendFails cs =>
        streamed (uuid_model env) cs
          (ses_messages s ++
           [newUserMessage (uuid_user env) text f (now_user env);
            newModelMessage (uuid_model env) (now_model env)])
      end
    = ses_messages s ++
      [with_status error (newUserMessage (uuid_user env) text f (now_user env))]).
  { destruct how as [|cs].
    - now apply failureUpdate_tail.
    - rewrite streamed_tail by auto.
      apply failureUpdate_tail; auto. now destruct cs. }
  rewrite Hlast. repeat split.
  - eexists. split; [apply in_or_app; right; left; reflexivity|].
    split; reflexivity.
  - unfold fresh. rewrite map_app, in_app_iff. simpl.
    intros [H|[H|[]]]; [now apply Hfm|]. congruence.
  - rewrite length_app. reflexivity.
  - rewrite filter_app. simpl. apply app_nil_r.
Qed.

Lemma failed_send_marks_user_message_witness :
  currentChatId Scenario.idle = Some Scenario.chat1 /\
  findTask (uuid_model Scenario.env1) Scenario.idle = None /\
  failedSendOutcome Scenario.idle Scenario.env1 Scenario.muraho Null None
    (SendFails [str "Mu"]).
Proof.
  split; [reflexivity|]. split; [reflexivity|].
  apply (failed_send_marks_user_message Scenario.idle Scenario.env1
           Scenario.muraho Null None (SendFails [str "Mu"])
           Scenario.chat1 Scenario.emptySession);
    first [reflexivity | discriminate | intros []].
Defined.

(** The retry of the failed "Muraho" is the send that the next lemma
    looks at. *)
Lemma retry_is_a_send :
  handleRetry Scenario.env2 (str "u-1") Scenario.afterFailure
  = handleSendMessage Scenario.env2 Scenario.muraho Null (Some (str "u-1"))
      Scenario.afterFailure.
Proof. reflexivity. Qed.

(** C1 as stated fails for a send that reuses the id of the failed
    message it retries: the old message is taken out before the new pair
    goes in, so after the failure the session holds as many messages as
    before, not one more. *)
Lemma failed_retry_keeps_message_count :
  ~ failedSendOutcome Scenario.afterFailure Scenario.env2 Scenario.muraho Null
      (Some (str "u-1")) StartFails.
Proof.
  intros [st' [Hrun [_ [_ [Hlen _]]]]].
  vm_compute in Hrun. injection Hrun as <-.
  vm_compute in Hlen. discriminate.
Qed.

(** *** No chat selected *)

Lemma handleSendMessage_unselected st env text f rid :
  currentSession st = None -> handleSendMessage env text f rid st = st.
Proof.
  intros H. unfold handleSendMessage. rewrite H.
  now destruct (currentChatId st).
Qed.

(** C9.  When no chat is selected, because [currentChatId] is null or
    because no session carries it, [handleSendMessage] returns the state
    it was given: no session is created or changed, nothing is appended,
    [isSending] keeps its value and no remote call is started. *)
Theorem send_without_chat_is_noop st env text f rid :
  currentChatId st = None \/
  (exists id, currentChatId st = Some id /\ findSession id (sessions st) = None) ->
  handleSendMessage env text f rid st = st.
Proof.
  intros H. apply handleSendMessage_unselected. unfold currentSession.
  destruct H as [H|[id [H Hf]]]; rewrite H; [reflexivity|exact Hf].
Qed.

Lemma send_without_chat_is_noop_witness :
  handleSendMessage Scenario.env1 Scenario.muraho Null None Scenario.strayChat
  = Scenario.strayChat.
Proof.
  apply (send_without_chat_is_noop Scenario.strayChat).
  right. exists (str "chat-9"). split; reflexivity.
Defined.

(** *** Streaming *)

Lemma fresh_dropId id r l : fresh id l -> fresh id (dropId r l).
Proof.
  unfold fresh, dropId. intros H Hin. apply H.
  apply in_map_iff in Hin as [m [<- Hm]]. apply filter_In in Hm as [Hm _].
  now apply in_map.
Qed.

Lemma lastChunk_snoc cs c m :
  lastChunk (cs ++ [c]) m = with_text_status c pending m.
Proof.
  unfold lastChunk. destruct (cs ++ [c]) eqn:E.
  - now destruct cs.
  - rewrite <- E. now rewrite last_last.
Qed.

Lemma run_streaming st cid F t cs rest :
  findTask (task_modelMessageId t) st = None -> task_chatId t = cid ->
  task_phase t = AwaitStartChat ->
  run (flying st cid F t)
      (StartChatResolved (task_modelMessageId t)
       :: map (StreamChunk (task_modelMessageId t)) cs ++ rest)
  = run (flying st cid
           (fun prev => streamed (task_modelMessageId t) cs (F prev))
           (set_phase AwaitSendMessage t)) rest.
Proof.
  intros Hn Hc Hp. cbn [run].
  rewrite (step_startChat_resolved _ _ _ _ Hn Hp).
  change (task_modelMessageId t)
    with (task_modelMessageId (set_phase AwaitSendMessage t)).
  now rewrite run_chunks.
Qed.

Lemma sentBase_fresh id rid l : fresh id l -> fresh id (sentBase rid l).
Proof.
  unfold sentBase. destruct (retriedId rid); auto using fresh_dropId.
Qed.

Lemma sentMessages_front env text f rid prev :
  sentMessages env text f rid prev
  = (sentBase rid prev
     ++ [newUserMessage (from_option (retriedId rid) (uuid_user env)) text f
           (now_user env)])
    ++ [newModelMessage (uuid_model env) (now_model env)].
Proof. unfold sentMessages, sentBase. now rewrite <- app_assoc. Qed.

(** The messages in front of the placeholder during a send. *)
Lemma send_streams st env text f rid cid s cs :
  currentChatId st = Some cid -> truthy cid = true ->
  currentSession st = Some s ->
  nothingToSend text f = false ->
  fresh (uuid_model env) (ses_messages s) ->
  from_option (retriedId rid) (uuid_user env) <> uuid_model env ->
  findTask (uuid_model env) st = None ->
  exists st2,
    run (handleSendMessage env text f rid st)
        (StartChatResolved (uuid_model env)
         :: map (StreamChunk (uuid_model env)) cs) = Some st2 /\
    shownMessages st2
    = (sentBase rid (ses_messages s)
       ++ [newUserMessage (from_option (retriedId rid) (uuid_user env)) text f
             (now_user env)])
      ++ [lastChunk cs (newModelMessage (uuid_model env) (now_model env))].
Proof.
  intros Hc Ht Hs Hn Hfm Hne Hnt.
  rewrite (handleSendMessage_flying env text f rid st cid s Hc Ht Hs Hn).
  eexists. split.
  - rewrite <- (app_nil_r (map _ _)).
    change (uuid_model env)
      with (task_modelMessageId (sentTask env cid text f rid s)).
    rewrite run_streaming by (auto; reflexivity). reflexivity.
  - rewrite (shownMessages_flying _ _ _ _ s Hc Hs), sentMessages_front.
    rewrite <- app_assoc. cbn [app sentTask task_modelMessageId].
    rewrite streamed_tail by (auto using sentBase_fresh).
    now rewrite <- app_assoc.
Qed.

Lemma send_completes st env text f rid cid s cs final g h now :
  currentChatId st = Some cid -> truthy cid = true ->
  currentSession st = Some s ->
  nothingToSend text f = false ->
  fresh (uuid_model env) (ses_messages s) ->
  from_option (retriedId rid) (uuid_user env) <> uuid_model env ->
  findTask (uuid_model env) st = None ->
  exists st3,
    run (handleSendMessage env text f rid st)
        (StartChatResolved (uuid_model env)
         :: map (StreamChunk (uuid_model env)) cs
         ++ [SendMessageResolved (uuid_model env) final g h now]) = Some st3 /\
    shownMessages st3
    = (sentBase rid (ses_messages s)
       ++ [newUserMessage (from_option (retriedId rid) (uuid_user env)) text f
             (now_user env)])
      ++ [completed final now g
            (newModelMessage (uuid_model env) (now_model env))].
Proof.
  intros Hc Ht Hs Hn Hfm Hne Hnt.
  rewrite (handleSendMessage_flying env text f rid st cid s Hc Ht Hs Hn).
  eexists. split.
  - change (uuid_model env)
      with (task_modelMessageId (sentTask env cid text f rid s)).
    rewrite run_streaming by (auto; reflexivity). cbn [run].
    rewrite (step_resolved st cid _
               (set_phase AwaitSendMessage (sentTask env cid text f rid s))
               final g h now) by (auto; reflexivity).
    reflexivity.
  - erewrite shownMessages_landed; [|exact Hc|exact Hs|reflexivity].
    cbv beta. rewrite sentMessages_front, <- app_assoc.
    cbn [app sentTask task_modelMessageId set_phase].
    rewrite streamed_tail by (auto using sentBase_fresh).
    rewrite completionUpdate_tail
      by (auto using sentBase_fresh; now destruct cs).
    rewrite <- app_assoc. cbn [app]. now destruct cs.
Qed.

(** C6.  A send whose placeholder got a fresh id.  Right after the
    send the session ends with the user message and the placeholder: a
    model message with the empty text and status [pending].  After the
    chunks delivered so far, the last of them being [c], the text of
    the placeholder is exactly [c] and its status is still [pending];
    once the stream has completed its text is the final text, its
    status is [complete], and it carries the time of the completion and
    the grounding chunks.  Id and role of the placeholder and the
    messages in front of it are the same at every one of these
    instants. *)
Theorem chunks_replace_placeholder_text
    st env text f rid cid s cs c cs' final g h now :
  currentChatId st = Some cid -> truthy cid = true ->
  currentSession st = Some s ->
  nothingToSend text f = false ->
  fresh (uuid_model env) (ses_messages s) ->
  from_option (retriedId rid) (uuid_user env) <> uuid_model env ->
  findTask (uuid_model env) st = None ->
  let mid := uuid_model env in
  let front :=
    sentBase rid (ses_messages s)
    ++ [{| msg_id := from_option (retriedId rid) (uuid_user env);
           msg_role := user; msg_text := text; msg_file := f;
           msg_timestamp := now_user env; msg_status := Some complete;
           msg_groundingChunks := None |}] in
  let st1 := handleSendMessage env text f rid st in
  shownMessages st1
  = front ++ [{| msg_id := mid; msg_role := model; msg_text := [];
                 msg_file := Undefined; msg_timestamp := now_model env;
                 msg_status := Some pending; msg_groundingChunks := None |}] /\
  (exists st2,
     run st1 (StartChatResolved mid :: map (StreamChunk mid) (cs ++ [c]))
     = Some st2 /\
     shownMessages st2
     = front ++ [{| msg_id := mid; msg_role := model; msg_text := c;
                    msg_file := Undefined; msg_timestamp := now_model env;
                    msg_status := Some pending;
                    msg_groundingChunks := None |}]) /\
  (exists st3,
     run st1 (StartChatResolved mid :: map (StreamChunk mid) cs'
              ++ [SendMessageResolved mid final g h now])
     = Some st3 /\
     shownMessages st3
     = front ++ [{| msg_id := mid; msg_role := model; msg_text := final;
                    msg_file := Undefined; msg_timestamp := now;
                    msg_status := Some complete;
                    msg_groundingChunks := g |}]).
Proof.
  intros Hc Ht Hs Hn Hfm Hne Hnt mid front st1.
  split; [|split].
  - subst st1.
    rewrite (handleSendMessage_flying env text f rid st cid s Hc Ht Hs Hn).
    rewrite (shownMessages_flying _ _ _ _ s Hc Hs). apply sentMessages_front.
  - destruct (send_streams st env text f rid cid s (cs ++ [c])
                Hc Ht Hs Hn Hfm Hne Hnt) as [st2 [Hrun Hshown]].
    exists st2. split; [exact Hrun|]. rewrite Hshown.
    rewrite lastChunk_snoc. reflexivity.
  - destruct (send_completes st env text f rid cid s cs' final g h now
                Hc Ht Hs Hn Hfm Hne Hnt) as [st3 [Hrun Hshown]].
    exists st3. split; [exact Hrun|]. rewrite Hshown. reflexivity.
Qed.

(** X7.  One chunk, in whatever state it arrives: the sessions keep
    their places, the calls in flight and [isSending] stay as they are,
    no message is added or removed, and a message that is not the
    placeholder of the call stays where and what it was. *)
Lemma streamChunk_touches_placeholder_only st id text st' :
  step st (StreamChunk id text) = Some st' ->
  tasks st' = tasks st /\ isSending st' = isSending st /\
  forall i s, nth_error (sessions st) i = Some s ->
    exists s',
      nth_error (sessions st') i = Some s' /\ ses_id s' = ses_id s /\
      length (ses_messages s') = length (ses_messages s) /\
      forall j m, nth_error (ses_messages s) j = Some m ->
                  streq (msg_id m) id = false ->
                  nth_error (ses_messages s') j = Some m.
Proof.
  cbn [step]. destruct (findTask id st) as [t|] eqn:Hf; [|discriminate].
  destruct (atPhase AwaitSendMessage t); [|discriminate].
  intros H. injection H as <-.
  unfold findTask in Hf. apply find_some in Hf as [_ Hid].
  unfold sameTask in Hid. apply streq_eq in Hid.
  split; [reflexivity|]. split; [reflexivity|]. intros i s Hs.
  unfold handleStreamChunk, update, set_sessions, updateChat.
  cbn [sessions]. rewrite nth_error_map, Hs. cbn [option_map].
  eexists. split; [reflexivity|].
  destruct (streq (ses_id s) (task_chatId t)).
  - split; [reflexivity|]. cbn [applyPatch messagesPatch patch_messages
      ses_messages]. unfold streamChunkUpdate. split; [apply length_map|].
    intros j m Hm Hne. rewrite nth_error_map, Hm. cbn [option_map].
    now rewrite Hid, Hne.
  - split; [reflexivity|]. split; [reflexivity|]. auto.
Qed.

(** The scenario of the specification: "Muraho" is sent, the remote
    client streams "Mu" and then "Muraho, nagufasha gute?". *)
Lemma chunks_replace_placeholder_text_witness :
  let placeholder (t : jsstring) (time : Z) (status : Status) :=
    {| msg_id := str "m-1"; msg_role := model; msg_text := t;
       msg_file := Undefined; msg_timestamp := time;
       msg_status := Some status; msg_groundingChunks := None |} in
  let st1 := handleSendMessage Scenario.env1 Scenario.muraho Null None
               Scenario.idle in
  shownMessages st1
  = [Scenario.userMuraho complete; placeholder [] 1700000000100%Z pending] /\
  (exists st2,
     run st1 [StartChatResolved (str "m-1"); StreamChunk (str "m-1") (str "Mu");
              StreamChunk (str "m-1") (str "Muraho, nagufasha gute?")]
     = Some st2 /\
     shownMessages st2
     = [Scenario.userMuraho complete;
        placeholder (str "Muraho, nagufasha gute?") 1700000000100%Z pending]) /\
  (exists st3,
     run st1 [StartChatResolved (str "m-1"); StreamChunk (str "m-1") (str "Mu");
              StreamChunk (str "m-1") (str "Muraho, nagufasha gute?");
              SendMessageResolved (str "m-1") (str "Muraho, nagufasha gute?")
                None [] 1700000000900]
     = Some st3 /\
     shownMessages st3
     = [Scenario.userMuraho complete;
        placeholder (str "Muraho, nagufasha gute?") 1700000000900%Z
          complete]).
Proof.
  apply (chunks_replace_placeholder_text Scenario.idle Scenario.env1
           Scenario.muraho Null None Scenario.chat1 Scenario.emptySession
           [str "Mu"] (str "Muraho, nagufasha gute?")
           [str "Mu"; str "Muraho, nagufasha gute?"]
           (str "Muraho, nagufasha gute?") None [] 1700000000900);
    first [reflexivity | discriminate | intros []].
Defined.

(** *** Retry *)

Lemma find_by_id l : forall m,
  NoDup (map msg_id l) -> In m l ->
  find (fun x => streq (msg_id x) (msg_id m)) l = Some m.
Proof.
  induction l as [|a l IH]; intros m Hnd Hin; [contradiction|].
  simpl in *. inversion Hnd as [|? ? Hna Hnd']; subst.
  destruct Hin as [->|Hin].
  - now rewrite streq_refl.
  - rewrite streq_neq; [now apply IH|].
    intros E. apply Hna. rewrite E. now apply in_map.
Qed.

Lemma dropId_absent id l : fresh id (dropId id l).
Proof.
  unfold fresh, dropId. intros Hin.
  apply in_map_iff in Hin as [m [E Hm]]. apply filter_In in Hm as [_ Hm].
  rewrite E, streq_refl in Hm. discriminate.
Qed.

Lemma dropId_users l : forall m,
  NoDup (map msg_id l) -> In m l -> isUser m = true ->
  length (filter isUser (dropId (msg_id m) l)) + 1 = length (filter isUser l).
Proof.
  induction l as [|a l IH]; intros m Hnd Hin Hu; [contradiction|].
  simpl in *. inversion Hnd as [|? ? Hna Hnd']; subst.
  destruct Hin as [->|Hin].
  - rewrite streq_refl, Hu. simpl.
    rewrite dropId_fresh by exact Hna. lia.
  - rewrite streq_neq.
    2:{ intros E. apply Hna. rewrite E. now apply in_map. }
    simpl. destruct (isUser a); simpl; rewrite <- (IH m Hnd' Hin Hu); lia.
Qed.

Lemma occurrences_fresh id l :
  fresh id l -> filter (fun x => streq (msg_id x) id) l = [].
Proof.
  intros Hf. induction l as [|a l IH]; [reflexivity|]. simpl.
  rewrite (fresh_streq id (a :: l) a Hf) by now left.
  apply IH. intros Hin. apply Hf. now right.
Qed.

Lemma dropId_middle l1 m l2 :
  NoDup (map msg_id (l1 ++ m :: l2)) ->
  dropId (msg_id m) (l1 ++ m :: l2) = l1 ++ l2.
Proof.
  intros Hnd. rewrite map_app in Hnd. cbn [map] in Hnd.
  pose proof (NoDup_remove_2 _ _ _ Hnd) as Hni.
  unfold dropId. rewrite filter_app. cbn [filter].
  rewrite streq_refl. cbn [negb].
  assert (Hkeep : forall l, (forall x, In x l -> In x l1 \/ In x l2) ->
            filter (fun x => negb (streq (msg_id x) (msg_id m))) l = l).
  { intros l Hl. apply filter_all. intros x Hx.
    rewrite streq_neq; [reflexivity|]. intros E. apply Hni. rewrite <- E.
    apply in_or_app. destruct (Hl x Hx); [left|right]; now apply in_map. }
  rewrite (Hkeep l1), (Hkeep l2); auto.
Qed.

(** C5, amended.  Retrying the failed user message [m] with id [id] of
    the selected chat.  The message is taken out of the list and a user
    message with the same id, text and file, status [complete] and a
    new time stamp is appended at the end, followed by a fresh pending
    placeholder: with [l1] the messages in front of [m] and [l2] those
    behind it, the session then holds [l1], [l2], the user message and
    the placeholder, so the message keeps its place exactly when
    nothing stood behind it.  The session holds as many user messages
    as before and exactly one message with the id; once the remote call
    has completed the placeholder is complete and shows the final
    text. *)
Theorem retry_reuses_message_id st env id cid s m cs final g h now :
  currentChatId st = Some cid -> truthy cid = true ->
  currentSession st = Some s ->
  In m (ses_messages s) -> msg_id m = id -> truthy id = true ->
  msg_role m = user -> msg_status m = Some error ->
  nothingToSend (msg_text m) (msg_file m) = false ->
  NoDup (map msg_id (ses_messages s)) ->
  fresh (uuid_model env) (ses_messages s) ->
  findTask (uuid_model env) st = None ->
  let mid := uuid_model env in
  let again :=
    {| msg_id := id; msg_role := user; msg_text := msg_text m;
       msg_file := msg_file m; msg_timestamp := now_user env;
       msg_status := Some complete; msg_groundingChunks := None |} in
  let placeholder :=
    {| msg_id := mid; msg_role := model; msg_text := [];
       msg_file := Undefined; msg_timestamp := now_model env;
       msg_status := Some pending; msg_groundingChunks := None |} in
  let reply :=
    {| msg_id := mid; msg_role := model; msg_text := final;
       msg_file := Undefined; msg_timestamp := now;
       msg_status := Some complete; msg_groundingChunks := g |} in
  let others :=
    filter (fun x => negb (streq (msg_id x) id)) (ses_messages s) in
  let st1 := handleRetry env id st in
  shownMessages st1 = others ++ [again; placeholder] /\
  (forall l1 l2, ses_messages s = l1 ++ m :: l2 ->
     shownMessages st1 = l1 ++ l2 ++ [again; placeholder]) /\
  length (filter isUser (shownMessages st1))
  = length (filter isUser (ses_messages s)) /\
  filter (fun x => streq (msg_id x) id) (shownMessages st1) = [again] /\
  (exists st2,
     run st1 (StartChatResolved mid :: map (StreamChunk mid) cs
              ++ [SendMessageResolved mid final g h now]) = Some st2 /\
     shownMessages st2 = others ++ [again; reply]).
Proof.
  intros Hc Ht Hs Hin Hid Hti Hrole Hst Hn Hnd Hfm Hnt
    mid again placeholder reply others st1.
  assert (Hne : id <> mid).
  { intros E. apply Hfm. fold mid. rewrite <- E, <- Hid. now apply in_map. }
  assert (Hret : handleRetry env id st
                 = handleSendMessage env (msg_text m) (msg_file m) (Some id) st).
  { unfold handleRetry. rewrite Hs, <- Hid. now rewrite (find_by_id _ m Hnd Hin). }
  assert (Hrid : retriedId (Some id) = Some id).
  { unfold retriedId. now rewrite Hti. }
  assert (Hothers : others = dropId id (ses_messages s)) by reflexivity.
  assert (Hshown : shownMessages st1 = others ++ [again; placeholder]).
  { subst st1. rewrite Hret.
    rewrite (handleSendMessage_flying _ _ _ _ st cid s Hc Ht Hs Hn).
    rewrite (shownMessages_flying _ _ _ _ s Hc Hs).
    unfold sentMessages. rewrite Hrid. reflexivity. }
  split; [exact Hshown|]. rewrite Hshown. split; [|split; [|split]].
  - intros l1 l2 El. rewrite Hothers, <- Hid, El.
    rewrite dropId_middle by (rewrite <- El; exact Hnd).
    now rewrite <- app_assoc.
  - rewrite filter_app, length_app. cbn [filter].
    unfold isUser at 2 3. cbn [again placeholder msg_role role_eqb length].
    rewrite Hothers, <- Hid.
    rewrite <- (dropId_users _ m Hnd Hin); [reflexivity|].
    unfold isUser. now rewrite Hrole.
  - rewrite Hothers.
    rewrite filter_app, (occurrences_fresh _ _ (dropId_absent id _)).
    cbn [app filter again placeholder msg_id].
    rewrite streq_refl, (streq_neq mid id) by congruence. reflexivity.
  - destruct (send_completes st env (msg_text m) (msg_file m)
                (Some id) cid s cs final g h now Hc Ht Hs Hn Hfm)
      as [st3 [Hrun Hsh]].
    + now rewrite Hrid.
    + exact Hnt.
    + exists st3. subst st1. rewrite Hret. split; [exact Hrun|].
      rewrite Hsh. unfold sentBase. rewrite Hrid. cbn [from_option].
      rewrite <- app_assoc. reflexivity.
Qed.

(** Where the retried message ends up: it is appended again, which is
    its old place when it was the last message of the session, and
    behind the later messages otherwise. *)
Lemma retry_of_last_message_keeps_place l m :
  NoDup (map msg_id (l ++ [m])) -> dropId (msg_id m) (l ++ [m]) = l.
Proof.
  intros Hnd. unfold dropId. rewrite filter_app. simpl.
  rewrite streq_refl. simpl. rewrite app_nil_r. apply filter_all.
  intros x Hx. rewrite streq_neq; [reflexivity|].
  intros E. rewrite map_app in Hnd. simpl in Hnd.
  apply NoDup_remove_2 in Hnd. apply Hnd. rewrite app_nil_r, <- E.
  now apply in_map.
Qed.

Lemma retry_moves_earlier_message :
  map msg_id (shownMessages Scenario.failedThenAnswered)
  = [str "u-1"; str "u-0"; str "m-0"] /\
  map msg_id
    (shownMessages
       (handleRetry Scenario.env2 (str "u-1") Scenario.failedThenAnswered))
  = [str "u-0"; str "m-0"; str "u-1"; str "m-2"].
Proof. split; vm_compute; reflexivity. Qed.

(** A failed "Muraho" with an answered turn behind it is retried: it
    leaves the head of the list and comes back at its end. *)
Lemma retry_reuses_message_id_witness :
  let again :=
    {| msg_id := str "u-1"; msg_role := user; msg_text := Scenario.muraho;
       msg_file := Null; msg_timestamp := 1700000000200;
       msg_status := Some complete; msg_groundingChunks := None |} in
  let placeholder :=
    {| msg_id := str "m-2"; msg_role := model; msg_text := [];
       msg_file := Undefined; msg_timestamp := 1700000000200;
       msg_status := Some pending; msg_groundingChunks := None |} in
  let reply :=
    {| msg_id := str "m-2"; msg_role := model; msg_text := str "Muraho!";
       msg_file := Undefined; msg_timestamp := 1700000000900;
       msg_status := Some complete; msg_groundingChunks := None |} in
  let st1 := handleRetry Scenario.env2 (str "u-1") Scenario.failedThenAnswered in
  shownMessages Scenario.failedThenAnswered
  = [Scenario.userMuraho error; Scenario.userEarlier; Scenario.modelReply] /\
  shownMessages st1
  = [Scenario.userEarlier; Scenario.modelReply; again; placeholder] /\
  length (filter isUser (shownMessages st1)) = 2 /\
  filter (fun x => streq (msg_id x) (str "u-1")) (shownMessages st1) = [again] /\
  (exists st2,
     run st1 [StartChatResolved (str "m-2"); StreamChunk (str "m-2") (str "Mu");
              SendMessageResolved (str "m-2") (str "Muraho!") None []
                1700000000900] = Some st2 /\
     shownMessages st2
     = [Scenario.userEarlier; Scenario.modelReply; again; reply]).
Proof.
  intros again placeholder reply st1. split; [reflexivity|].
  destruct (retry_reuses_message_id Scenario.failedThenAnswered Scenario.env2
              (str "u-1") Scenario.chat1
              {| ses_id := Scenario.chat1; ses_title := str "Ikiganiro gishya";
                 ses_messages := [Scenario.userMuraho error; Scenario.userEarlier;
                                  Scenario.modelReply];
                 ses_history := []; ses_createdAt := 1700000000000 |}
              (Scenario.userMuraho error) [str "Mu"] (str "Muraho!") None []
              1700000000900)
    as [H1 [_ [H3 [H4 H5]]]]; try reflexivity.
  - now left.
  - repeat constructor; cbn [map msg_id In]; intros H;
      repeat (destruct H as [H|H]; [discriminate H|]); exact H.
  - cbn [map msg_id ses_messages]. intros H.
    repeat (destruct H as [H|H]; [discriminate H|]). exact H.
  - split; [exact H1|]. split; [exact H3|]. split; [exact H4|exact H5].
Defined.

(** C5 as stated fails when messages stand behind the failed one: the
    retried message is not replaced where it stood but moves to the end
    of the list. *)
Lemma retry_is_not_in_place :
  ~ retryInPlace (str "u-1")
      (shownMessages Scenario.failedThenAnswered)
      (shownMessages
         (handleRetry Scenario.env2 (str "u-1") Scenario.failedThenAnswered)).
Proof.
  intros [l1 [m [l2 [m' [r [Hb [Hm [Ha [Hm' _]]]]]]]]].
  destruct retry_moves_earlier_message as [Eb Ea].
  apply (f_equal (map msg_id)) in Hb, Ha. rewrite Eb in Hb. rewrite Ea in Ha.
  rewrite map_app in Hb, Ha. cbn [map] in Hb, Ha.
  destruct l1 as [|a l1]; cbn [map app] in Hb, Ha.
  - injection Ha as Ha _. rewrite Hm' in Ha. vm_compute in Ha. discriminate.
  - injection Hb as Hb _. injection Ha as Ha _. rewrite <- Hb in Ha.
    vm_compute in Ha. discriminate.
Qed.

(** *** Regenerate *)








(** *** Sends while a send is in flight *)

(** [handleRegenerate] looks at [isSending] and gives up. *)
Lemma regenerate_while_sending st env :
  isSending st = true -> handleRegenerate env st = st.
Proof.
  intros H. unfold handleRegenerate. rewrite H. now destruct (currentSession st).
Qed.

(** The composer is disabled. *)
Lemma submit_while_sending st env :
  isSending st = true -> step st (ComposerSubmit env) = Some st.
Proof. intros H. unfold step. now rewrite H. Qed.

(** [handleSendMessage] does not look at [isSending]: whatever the flag,
    a call that passes the guard appends its pair. *)
Lemma send_ignores_isSending st env text f cid s :
  currentChatId st = Some cid -> truthy cid = true ->
  currentSession st = Some s ->
  nothingToSend text f = false ->
  length (shownMessages (handleSendMessage env text f None st))
  = length (shownMessages st) + 2.
Proof.
  intros Hc Ht Hs Hn.
  rewrite (handleSendMessage_flying _ _ _ _ st cid s Hc Ht Hs Hn).
  rewrite (shownMessages_flying _ _ _ _ s Hc Hs), (shownMessages_current _ _ Hs).
  unfold sentMessages. cbn [retriedId]. now rewrite length_app.
Qed.

(** C2 at a failing input.  "Muraho" has been submitted and waits for the
    remote service, [isSending] is set.  A click on a suggested question,
    or a capture sent from the camera dialog, appends a second pair of
    messages all the same; only regenerate and the composer hold back. *)
Theorem send_while_sending_appends_pair :
  run Scenario.idle [TypeInput Scenario.muraho; ComposerSubmit Scenario.env1]
  = Some Scenario.inFlight /\
  isSending Scenario.inFlight = true /\
  length (shownMessages Scenario.inFlight) = 2 /\
  length (shownMessages
            (handleSuggestedQuestionClick Scenario.env2 (str "Amakuru?")
               Scenario.inFlight)) = 4 /\
  length (shownMessages
            (handleSendFromCamera Scenario.env2 (str "2023-11-14T22:13:20.200Z")
               (str "data:image/jpeg;base64,AAAA") (str "Iki ni iki?")
               Scenario.inFlight)) = 4 /\
  handleRegenerate Scenario.env2 Scenario.inFlight = Scenario.inFlight /\
  step Scenario.inFlight (ComposerSubmit Scenario.env2) = Some Scenario.inFlight.
Proof. repeat split; vm_compute; reflexivity. Qed.

(** C3 at a failing input.  A message is submitted from the composer;
    while it is in flight the camera dialog is opened and a capture is
    sent: the session then shows two pending placeholders. *)
Theorem overlapping_sends_leave_two_pending :
  exists st,
    run Scenario.idle
      [TypeInput Scenario.muraho; ComposerSubmit Scenario.env1; OpenCamera;
       CameraSend Scenario.env2 (str "2023-11-14T22:13:20.200Z")
         (str "data:image/jpeg;base64,AAAA") (str "Iki ni iki?")]
    = Some st /\
    map msg_status (shownMessages st)
    = [Some complete; Some pending; Some complete; Some pending] /\
    length (filter is_pending (shownMessages st)) = 2.
Proof. eexists. repeat split; vm_compute; reflexivity. Qed.

End AppFacts.

(** ** The history hook *)

Section HistoryFacts.
Import JS JSON History.

Lemma appendMessage_absent env sid msg : forall prev k,
  ~ In sid (map s_id prev) -> appendMessage env k sid msg prev = prev.
Proof.
  induction prev as [|s prev IH]; intros k Hni; [reflexivity|].
  simpl in *. rewrite streq_neq by tauto. f_equal. apply IH. tauto.
Qed.

Lemma appendMessage_pointwise env sid msg : forall prev k i s,
  nth_error prev i = Some s ->
  exists s',
    nth_error (appendMessage env k sid msg prev) i = Some s' /\
    if streq (s_id s) sid
    then s_id s' = s_id s /\ s_createdAt s' = s_createdAt s /\
         s_messages s' = s_messages s ++ [msg] /\
         exists n, (k <= n)%nat /\ s_updatedAt s' = now env n
    else s' = s.
Proof.
  induction prev as [|a prev IH]; intros k i s Hi; [now destruct i|].
  destruct i as [|i]; simpl in Hi.
  - injection Hi as ->. simpl. destruct (streq (s_id s) sid) eqn:E.
    + eexists. split; [reflexivity|]. simpl. eauto 6.
    + eexists. split; [reflexivity|]. reflexivity.
  - simpl. destruct (streq (s_id a) sid) eqn:E; simpl.
    + destruct (IH (S k) i s Hi) as [s' [H1 H2]]. exists s'. split; [exact H1|].
      destruct (streq (s_id s) sid); [|exact H2].
      destruct H2 as [A [B [C [n [Hn D]]]]]. repeat split; auto.
      exists n. split; [lia|exact D].
    + now apply IH.
Qed.

Lemma appendMessage_length env sid msg : forall prev k,
  length (appendMessage env k sid msg prev) = length prev.
Proof.
  induction prev as [|a prev IH]; intros k; [reflexivity|].
  simpl. destruct (streq (s_id a) sid); simpl; now rewrite IH.
Qed.

(** C10.  [addMessage] with an id that no session carries leaves the
    session list as it is.  In general it keeps the number and the order
    of the sessions and the current session id; a session with another
    id is passed on unchanged, and a session with the id keeps its id and
    its creation time and gets exactly the one new message appended. *)
Theorem addMessage_touches_one_session env k j sid message st :
  (~ In sid (map s_id (sessions st)) ->
   addMessage env k j sid message st = st) /\
  length (sessions (addMessage env k j sid message st)) = length (sessions st) /\
  currentSessionId (addMessage env k j sid message st) = currentSessionId st /\
  (forall i s,
     nth_error (sessions st) i = Some s ->
     exists s',
       nth_error (sessions (addMessage env k j sid message st)) i = Some s' /\
       if streq (s_id s) sid
       then s_id s' = s_id s /\ s_createdAt s' = s_createdAt s /\
            s_messages s' = s_messages s ++ [newMessage env k j message] /\
            exists n, (k + 2 <= n)%nat /\ s_updatedAt s' = now env n
       else s' = s).
Proof.
  repeat split.
  - intros Hni. unfold addMessage. rewrite appendMessage_absent by exact Hni.
    now destruct st.
  - apply appendMessage_length.
  - intros i s Hi. now apply appendMessage_pointwise.
Qed.

Lemma addMessage_touches_one_session_witness :
  let env := {| now := fun n => (1700000000000 + Z.of_nat n)%Z;
                random := fun _ => str "k3x9q2mzp" |} in
  let one := {| s_id := str "session_1_a"; s_messages := [];
                s_createdAt := 1; s_updatedAt := 1 |} in
  let two := {| s_id := str "session_2_b"; s_messages := [];
                s_createdAt := 2; s_updatedAt := 2 |} in
  let st := {| sessions := [one; two]; currentSessionId := None |} in
  let message := {| in_role := user; in_content := str "Muraho" |} in
  addMessage env 0 0 (str "session_9_z") message st = st /\
  sessions (addMessage env 0 0 (str "session_2_b") message st)
  = [one;
     {| s_id := str "session_2_b";
        s_messages :=
          [{| m_id := str "msg_1700000000000_k3x9q2mzp"; m_role := user;
              m_content := str "Muraho"; m_timestamp := 1700000000001 |}];
        s_createdAt := 2; s_updatedAt := 1700000000002 |}].
Proof.
  intros env one two st message. split.
  - apply (addMessage_touches_one_session env 0 0 (str "session_9_z") message st).
    vm_compute. intros [H|[H|[]]]; discriminate.
  - vm_compute. reflexivity.
Defined.

End HistoryFacts.

(** ** JSON: what is written is read back *)

Section JSONFacts.
Import JS JSON JSONSpec.

(** *** Numbers *)

Lemma delimited_cases rest :
  delimited rest ->
  rest = [] \/ exists c r, rest = c :: r /\ (c = 44 \/ c = 93 \/ c = 125)%N.
Proof. destruct rest as [|c r]; [now left|]. intros H. right. eauto. Qed.

Lemma takeDigits_delimited rest :
  delimited rest -> takeDigits rest = (Decimal.Nil, rest).
Proof.
  intros H. destruct (delimited_cases rest H) as [->|[c [r [-> Hc]]]];
    [reflexivity|].
  destruct Hc as [->|[->| ->]]; reflexivity.
Qed.

Lemma takeDigits_uintText d rest :
  delimited rest -> takeDigits (uintText d ++ rest) = (d, rest).
Proof.
  intros H. induction d; cbn [uintText app];
    [now apply takeDigits_delimited|..];
    cbn [takeDigits]; rewrite IHd; reflexivity.
Qed.

Lemma lexFraction_delimited rest :
  delimited rest -> lexFraction rest = Some (false, rest).
Proof.
  intros H. destruct (delimited_cases rest H) as [->|[c [r [-> Hc]]]];
    [reflexivity|].
  destruct Hc as [->|[->| ->]]; reflexivity.
Qed.

Lemma lexExponent_delimited rest :
  delimited rest -> lexExponent rest = Some (false, rest).
Proof.
  intros H. destruct (delimited_cases rest H) as [->|[c [r [-> Hc]]]];
    [reflexivity|].
  destruct Hc as [->|[->| ->]]; reflexivity.
Qed.

(** The decimal digits of a positive number do not start with a zero. *)
Lemma to_uint_normal p : Decimal.nzhead (Pos.to_uint p) = Pos.to_uint p.
Proof.
  pose proof (DecimalPos.Unsigned.to_of (Pos.to_uint p)) as H.
  rewrite DecimalPos.Unsigned.of_to in H. simpl in H.
  unfold Decimal.unorm in H.
  destruct (Decimal.nzhead (Pos.to_uint p)) eqn:E; try (symmetry; exact H).
  exfalso. apply (DecimalPos.Unsigned.to_uint_nonzero p). exact H.
Qed.

Lemma nzhead_head d :
  Decimal.nzhead d = d ->
  d = Decimal.Nil \/
  exists c t, uintText d = c :: t /\ isDigit c = true /\ (c =? 48)%N = false
              /\ (c =? 45)%N = false.
Proof.
  destruct d; intros H; try (right; do 2 eexists; split; [reflexivity|];
    repeat split; reflexivity); [now left|].
  exfalso. simpl in H.
  pose proof (DecimalFacts.nb_digits_nzhead d) as L. rewrite H in L.
  simpl in L. lia.
Qed.

Lemma positive_head p :
  exists c t, uintText (Pos.to_uint p) = c :: t /\ isDigit c = true
              /\ (c =? 48)%N = false /\ (c =? 45)%N = false.
Proof.
  destruct (nzhead_head _ (to_uint_normal p)) as [H|H]; [|exact H].
  exfalso. now apply (DecimalPos.Unsigned.to_uint_nonnil p).
Qed.

Lemma lexNumber_positive p rest (negative : bool) :
  (Npos p <=? maxSafeInteger)%N = true -> delimited rest ->
  lexNumber ((if negative then [45%N] else []) ++ uintText (Pos.to_uint p) ++ rest)
  = Some (JNum (if negative then Zneg p else Zpos p), rest).
Proof.
  intros Hsafe Hd.
  destruct (positive_head p) as [c [t [E [Hdig [H48 H45]]]]].
  assert (Hint : lexInt (uintText (Pos.to_uint p) ++ rest)
                 = Some (Pos.to_uint p, rest)).
  { unfold lexInt. rewrite E. cbn [app]. rewrite H48, Hdig.
    change (c :: t ++ rest) with ((c :: t) ++ rest). rewrite <- E.
    now rewrite takeDigits_uintText. }
  rewrite E in Hint |- *. cbn [app] in Hint |- *.
  unfold lexNumber. destruct negative; cbn [app].
  - cbn [N.eqb Pos.eqb]. rewrite Hint, (lexFraction_delimited _ Hd),
      (lexExponent_delimited _ Hd).
    change (N.of_uint (Pos.to_uint p)) with (Pos.of_uint (Pos.to_uint p)).
    rewrite DecimalPos.Unsigned.of_to, Hsafe. reflexivity.
  - rewrite H45, Hint, (lexFraction_delimited _ Hd), (lexExponent_delimited _ Hd).
    change (N.of_uint (Pos.to_uint p)) with (Pos.of_uint (Pos.to_uint p)).
    rewrite DecimalPos.Unsigned.of_to, Hsafe. reflexivity.
Qed.

Lemma covered_number z :
  covered (JNum z) = (Z.abs_N z <=? maxSafeInteger)%N.
Proof. reflexivity. Qed.

Lemma lexNumber_numberText z rest :
  covered (JNum z) = true -> delimited rest ->
  lexNumber (numberText z ++ rest) = Some (JNum z, rest).
Proof.
  intros Hc Hd. rewrite covered_number in Hc.
  destruct z as [|p|p]; unfold numberText.
  - change ([48%N] ++ rest) with (48%N :: rest). unfold lexNumber.
    change ((48 =? 45)%N) with false. cbv iota. unfold lexInt.
    change ((48 =? 48)%N) with true. cbv iota.
    rewrite (lexFraction_delimited _ Hd), (lexExponent_delimited _ Hd).
    change (N.of_uint (Decimal.D0 Decimal.Nil)) with 0%N.
    change ((0 <=? maxSafeInteger)%N) with true.
    reflexivity.
  - change (Z.abs_N (Z.pos p)) with (N.pos p) in Hc.
    pose proof (lexNumber_positive p rest false Hc Hd) as H.
    cbn [app] in H. exact H.
  - change (Z.abs_N (Z.neg p)) with (N.pos p) in Hc.
    pose proof (lexNumber_positive p rest true Hc Hd) as H.
    cbn [app] in H. exact H.
Qed.

(** *** Strings *)

Lemma hexValue_hexDigit d : (d < 16)%N -> hexValue (hexDigit d) = Some d.
Proof.
  intros H. unfold hexDigit, hexValue.
  destruct (d <? 10)%N eqn:E.
  - apply N.ltb_lt in E.
    replace ((48 <=? 48 + d) && (48 + d <=? 57))%N with true.
    + f_equal. lia.
    + symmetry. apply andb_true_iff. split; apply N.leb_le; lia.
  - apply N.ltb_ge in E.
    replace ((48 <=? 87 + d) && (87 + d <=? 57))%N with false.
    2:{ symmetry. apply andb_false_iff. right. apply N.leb_gt. lia. }
    replace ((97 <=? 87 + d) && (87 + d <=? 102))%N with true.
    + f_equal. lia.
    + symmetry. apply andb_true_iff. split; apply N.leb_le; lia.
Qed.

Lemma hex4_unicodeEscape c :
  (c < 65536)%N ->
  hex4 (hexDigit ((c / 4096) mod 16)) (hexDigit ((c / 256) mod 16))
       (hexDigit ((c / 16) mod 16)) (hexDigit (c mod 16)) = Some c.
Proof.
  intros H. unfold hex4.
  rewrite !hexValue_hexDigit by (apply N.mod_upper_bound; discriminate).
  f_equal.
  replace (c / 4096)%N with (c / 16 / 16 / 16)%N
    by (rewrite !N.Div0.div_div; reflexivity).
  replace (c / 256)%N with (c / 16 / 16)%N
    by (rewrite !N.Div0.div_div; reflexivity).
  zify. Z.to_euclidean_division_equations. lia.
Qed.

(** Reading an escape written by [unicodeEscape]. *)
Lemma parseChars_unicodeEscape c s :
  (c < 65536)%N ->
  parseChars (unicodeEscape c ++ s) = push c (parseChars s).
Proof.
  intros H. unfold unicodeEscape. cbn [app parseChars].
  change ((92 =? 34)%N) with false. change ((92 =? 92)%N) with true.
  change ((117 =? 117)%N) with true. cbv iota.
  now rewrite hex4_unicodeEscape.
Qed.

Lemma parseChars_short e u s :
  (e =? 117)%N = false -> unescape e = Some u ->
  parseChars (92%N :: e :: s) = push u (parseChars s).
Proof.
  intros He Hu. cbn [parseChars].
  change ((92 =? 34)%N) with false. change ((92 =? 92)%N) with true. cbv iota.
  now rewrite He, Hu.
Qed.

Lemma parseChars_plain c s :
  (c =? 34)%N = false -> (c =? 92)%N = false -> (c <? 32)%N = false ->
  parseChars (c :: s) = push c (parseChars s).
Proof. intros H1 H2 H3. cbn [parseChars]. now rewrite H1, H2, H3. Qed.

Lemma surrogate_plain c :
  isHighSurrogate c = true \/ isLowSurrogate c = true ->
  (c =? 34)%N = false /\ (c =? 92)%N = false /\ (c <? 32)%N = false
  /\ (c < 65536)%N.
Proof.
  unfold isHighSurrogate, isLowSurrogate.
  intros [H|H]; apply andb_true_iff in H as [H1 H2];
    apply N.leb_le in H1, H2;
    (repeat split; [apply N.eqb_neq|apply N.eqb_neq|apply N.ltb_ge|]; lia).
Qed.

Lemma parseChars_quoteChars_bounded n : forall s rest,
  (length s <= n)%nat ->
  parseChars (quoteChars s ++ 34%N :: rest) = Some (s, rest).
Proof.
  induction n as [|n IH]; intros s rest Hlen.
  - destruct s; [reflexivity|simpl in Hlen; lia].
  - destruct s as [|c r]; [reflexivity|].
    assert (Hr : parseChars (quoteChars r ++ 34%N :: rest) = Some (r, rest))
      by (apply IH; simpl in Hlen; lia).
    cbn [quoteChars].
    destruct (c =? 8)%N eqn:E8;
      [apply N.eqb_eq in E8; subst c; cbn [app];
       rewrite (parseChars_short 98 8) by reflexivity; now rewrite Hr|].
    destruct (c =? 9)%N eqn:E9;
      [apply N.eqb_eq in E9; subst c; cbn [app];
       rewrite (parseChars_short 116 9) by reflexivity; now rewrite Hr|].
    destruct (c =? 10)%N eqn:E10;
      [apply N.eqb_eq in E10; subst c; cbn [app];
       rewrite (parseChars_short 110 10) by reflexivity; now rewrite Hr|].
    destruct (c =? 12)%N eqn:E12;
      [apply N.eqb_eq in E12; subst c; cbn [app];
       rewrite (parseChars_short 102 12) by reflexivity; now rewrite Hr|].
    destruct (c =? 13)%N eqn:E13;
      [apply N.eqb_eq in E13; subst c; cbn [app];
       rewrite (parseChars_short 114 13) by reflexivity; now rewrite Hr|].
    destruct (c =? 34)%N eqn:E34;
      [apply N.eqb_eq in E34; subst c; cbn [app];
       rewrite (parseChars_short 34 34) by reflexivity; now rewrite Hr|].
    destruct (c =? 92)%N eqn:E92;
      [apply N.eqb_eq in E92; subst c; cbn [app];
       rewrite (parseChars_short 92 92) by reflexivity; now rewrite Hr|].
    destruct (c <? 32)%N eqn:E32.
    { apply N.ltb_lt in E32. rewrite <- app_assoc.
      rewrite parseChars_unicodeEscape by lia. now rewrite Hr. }
    destruct (isHighSurrogate c) eqn:Eh.
    { destruct (surrogate_plain c (or_introl Eh)) as [_ [_ [_ Hc]]].
      destruct r as [|d r'].
      - rewrite parseChars_unicodeEscape by exact Hc. reflexivity.
      - destruct (isLowSurrogate d) eqn:El.
        + destruct (surrogate_plain d (or_intror El)) as [D1 [D2 [D3 _]]].
          cbn [app]. rewrite (parseChars_plain c) by assumption.
          rewrite (parseChars_plain d) by assumption.
          rewrite IH by (simpl in Hlen; lia). reflexivity.
        + rewrite <- app_assoc, parseChars_unicodeEscape by exact Hc.
          now rewrite Hr. }
    destruct (isLowSurrogate c) eqn:El.
    { destruct (surrogate_plain c (or_intror El)) as [_ [_ [_ Hc]]].
      rewrite <- app_assoc, parseChars_unicodeEscape by exact Hc.
      now rewrite Hr. }
    cbn [app]. rewrite (parseChars_plain c) by assumption. now rewrite Hr.
Qed.

Lemma parseChars_quoteChars s rest :
  parseChars (quoteChars s ++ 34%N :: rest) = Some (s, rest).
Proof. now apply (parseChars_quoteChars_bounded (length s)). Qed.

(** *** Values *)

Lemma js_induction (P : js -> Prop) :
  P JNull -> (forall b, P (JBool b)) -> (forall n, P (JNum n)) ->
  (forall t, P (JNumToken t)) -> (forall s, P (JStr s)) ->
  (forall l, Forall P l -> P (JArr l)) ->
  (forall fields, Forall (fun kv => P (snd kv)) fields -> P (JObj fields)) ->
  forall v, P v.
Proof.
  intros Hnull Hbool Hnum Htok Hstr Harr Hobj.
  fix IH 1. intros [ |b|n|t|s|l|fields].
  - exact Hnull.
  - apply Hbool.
  - apply Hnum.
  - apply Htok.
  - apply Hstr.
  - apply Harr. induction l as [|x l IHl]; constructor; [apply IH|exact IHl].
  - apply Hobj. induction fields as [|[k x] fields IHf]; constructor;
      [apply IH|exact IHf].
Qed.

Lemma stringify_array l :
  stringify (JArr l) = 91%N :: join (map stringify l) ++ [93%N].
Proof. reflexivity. Qed.

Lemma stringify_object fields :
  stringify (JObj fields) = 123%N :: join (map memberText fields) ++ [125%N].
Proof. reflexivity. Qed.

Lemma covered_array l : covered (JArr l) = forallb covered l.
Proof. reflexivity. Qed.

Lemma covered_object fields :
  covered (JObj fields)
  = forallb (fun kv => match arrayIndex (fst kv) with
                       | Some _ => false
                       | None => covered (snd kv)
                       end) fields
    && distinctKeys fields.
Proof. reflexivity. Qed.

Lemma numberText_head z :
  exists c t, numberText z = c :: t /\ (isDigit c || (c =? 45)%N) = true.
Proof.
  destruct z as [|p|p].
  - now exists 48%N, [].
  - destruct (positive_head p) as [c [t [E [Hd _]]]].
    exists c, t. split; [exact E|]. now rewrite Hd.
  - exists 45%N, (uintText (Pos.to_uint p)). now split.
Qed.

Lemma stringify_head v :
  covered v = true -> exists c t, stringify v = c :: t /\ valueStart c = true.
Proof.
  destruct v as [ |[|]|n|t|s|l|fields]; intros Hc;
    try (do 2 eexists; split; [reflexivity|reflexivity]).
  - destruct (numberText_head n) as [c [t [E H]]].
    exists c, t. split; [exact E|]. unfold valueStart.
    apply orb_true_iff in H as [H|H]; rewrite H; [reflexivity|].
    now rewrite orb_true_r.
  - discriminate.
Qed.

Lemma valueStart_facts c :
  valueStart c = true ->
  isJsonSpace c = false /\ (c =? 93)%N = false /\ (c =? 125)%N = false.
Proof.
  unfold valueStart. intros H.
  repeat (apply orb_true_iff in H as [H|H]);
    try (apply N.eqb_eq in H; subst c; repeat split; reflexivity).
  unfold isDigit in H. apply andb_true_iff in H as [H1 H2].
  apply N.leb_le in H1, H2. unfold isJsonSpace.
  repeat split; repeat (apply orb_false_iff; split); apply N.eqb_neq; lia.
Qed.

Lemma skipSpace_head c t : isJsonSpace c = false -> skipSpace (c :: t) = c :: t.
Proof. intros H. cbn [skipSpace]. now rewrite H. Qed.

Lemma skipSpace_delimited rest : delimited rest -> skipSpace rest = rest.
Proof.
  intros H. destruct (delimited_cases rest H) as [->|[c [r [-> Hc]]]];
    [reflexivity|].
  destruct Hc as [->|[->| ->]]; reflexivity.
Qed.

(** [parseValue] on the first character of each kind of value. *)
Lemma parseValue_number fuel c t :
  (isDigit c || (c =? 45)%N) = true ->
  parseValue (S fuel) (c :: t) = lexNumber (c :: t).
Proof.
  intros H. assert (Hs : isJsonSpace c = false).
  { apply (valueStart_facts c). unfold valueStart. now rewrite H. }
  cbn [parseValue]. rewrite (skipSpace_head c t Hs). now rewrite H.
Qed.

Lemma parseValue_string fuel t :
  parseValue (S fuel) (34%N :: t)
  = match parseChars t with
    | Some (x, r) => Some (JStr x, r)
    | None => None
    end.
Proof. reflexivity. Qed.

Lemma parseValue_array fuel t :
  parseValue (S fuel) (91%N :: t)
  = match skipSpace t with
    | c :: r => if (c =? 93)%N then Some (JArr [], r)
                else parseElements (parseValue fuel) (length t) [] t
    | [] => None
    end.
Proof. reflexivity. Qed.

Lemma parseValue_object fuel t :
  parseValue (S fuel) (123%N :: t)
  = match skipSpace t with
    | c :: r => if (c =? 125)%N then Some (JObj [], r)
                else parseMembers (parseValue fuel) (length t) [] t
    | [] => None
    end.
Proof. reflexivity. Qed.

Lemma parseElements_join fuel : forall l acc n rest,
  l <> [] -> Forall (readsBack fuel) l -> (length l <= n)%nat ->
  parseElements (parseValue fuel) n acc (join (map stringify l) ++ 93%N :: rest)
  = Some (JArr (rev acc ++ l), rest).
Proof.
  induction l as [|v l IH]; intros acc n rest Hne Hall Hn; [contradiction|].
  inversion Hall as [|? ? Hv Hl]; subst.
  destruct n as [|n]; [simpl in Hn; lia|].
  destruct l as [|v' l'].
  - cbn [map join parseElements].
    rewrite (Hv (93%N :: rest)) by (simpl; tauto).
    cbn [skipSpace]. change (isJsonSpace 93) with false. cbv iota.
    change ((93 =? 44)%N) with false. change ((93 =? 93)%N) with true.
    cbv iota. reflexivity.
  - change (join (map stringify (v :: v' :: l')))
      with (stringify v ++ 44%N :: join (map stringify (v' :: l'))).
    rewrite <- app_assoc. cbn [app parseElements].
    rewrite (Hv (44%N :: _)) by (simpl; tauto).
    cbn [skipSpace]. change (isJsonSpace 44) with false. cbv iota.
    change ((44 =? 44)%N) with true. cbv iota.
    rewrite (IH (v :: acc) n rest) by (auto; try discriminate; simpl in *; lia).
    cbn [rev]. now rewrite <- app_assoc.
Qed.

Lemma distinctKeys_middle acc : forall k v fields,
  distinctKeys (acc ++ (k, v) :: fields) = true -> hasKey k acc = false.
Proof.
  induction acc as [|[k' v'] acc IH]; intros k v fields H; [reflexivity|].
  cbn [app distinctKeys hasKey] in *.
  apply andb_true_iff in H as [H1 H2]. rewrite (IH k v fields H2).
  rewrite orb_false_r. apply negb_true_iff in H1.
  destruct (streq k' k) eqn:E; [|reflexivity].
  apply streq_eq in E. subst k'. exfalso.
  clear -H1. induction acc as [|[a b] acc IHa]; cbn [app hasKey] in H1.
  - now rewrite streq_refl in H1.
  - apply orb_false_iff in H1 as [_ H1]. now apply IHa.
Qed.

Lemma quote_followed k rest :
  quote k ++ rest = 34%N :: quoteChars k ++ 34%N :: rest.
Proof. unfold quote. cbn [app]. now rewrite <- app_assoc. Qed.

Lemma parseMembers_join fuel : forall fields acc n rest,
  fields <> [] -> Forall (fun kv => readsBack fuel (snd kv)) fields ->
  (length fields <= n)%nat ->
  (forall kv, In kv fields -> arrayIndex (fst kv) = None) ->
  distinctKeys (acc ++ fields) = true ->
  parseMembers (parseValue fuel) n acc
    (join (map memberText fields) ++ 125%N :: rest)
  = Some (JObj (acc ++ fields), rest).
Proof.
  induction fields as [|[k v] fields IH]; intros acc n rest Hne Hall Hn Hidx Hd;
    [contradiction|].
  inversion Hall as [|? ? Hv Hl]; subst. cbn [snd] in Hv.
  destruct n as [|n]; [simpl in Hn; lia|].
  assert (Hdef : defineProperty k v acc = acc ++ [(k, v)]).
  { unfold defineProperty. rewrite (distinctKeys_middle acc k v fields Hd).
    pose proof (Hidx (k, v) (or_introl eq_refl)) as Hk. cbn [fst] in Hk.
    now rewrite Hk. }
  destruct fields as [|kv' fields'].
  - cbn [map join]. unfold memberText. cbn [fst snd].
    rewrite <- app_assoc, quote_followed. cbn [parseMembers skipSpace].
    change (isJsonSpace 34) with false. cbv iota.
    change ((34 =? 34)%N) with true. cbv iota.
    rewrite parseChars_quoteChars. cbn [app skipSpace].
    change (isJsonSpace 58) with false. cbv iota.
    change ((58 =? 58)%N) with true. cbv iota.
    rewrite (Hv (125%N :: rest)) by (simpl; tauto).
    cbn [skipSpace]. change (isJsonSpace 125) with false. cbv iota.
    change ((125 =? 44)%N) with false. change ((125 =? 125)%N) with true.
    cbv iota. now rewrite Hdef.
  - change (join (map memberText ((k, v) :: kv' :: fields')))
      with (memberText (k, v) ++ 44%N :: join (map memberText (kv' :: fields'))).
    unfold memberText at 1. cbn [fst snd].
    rewrite <- !app_assoc, quote_followed. cbn [parseMembers skipSpace].
    change (isJsonSpace 34) with false. cbv iota.
    change ((34 =? 34)%N) with true. cbv iota.
    rewrite parseChars_quoteChars. cbn [app skipSpace].
    change (isJsonSpace 58) with false. cbv iota.
    change ((58 =? 58)%N) with true. cbv iota.
    rewrite (Hv (44%N :: _)) by (simpl; tauto).
    cbn [skipSpace]. change (isJsonSpace 44) with false. cbv iota.
    change ((44 =? 44)%N) with true. cbv iota.
    rewrite Hdef.
    rewrite (IH (acc ++ [(k, v)]) n rest); try assumption; try discriminate.
    + now rewrite <- app_assoc.
    + simpl in *. lia.
    + intros kv Hin. apply Hidx. now right.
    + now rewrite <- app_assoc.
Qed.

Lemma join_length (parts : list jsstring) :
  (forall p, In p parts -> (1 <= length p)%nat) ->
  (length parts <= length (join parts))%nat.
Proof.
  induction parts as [|p parts IH]; intros H; [simpl; lia|].
  destruct parts as [|q parts].
  - simpl. specialize (H p (or_introl eq_refl)). lia.
  - change (join (p :: q :: parts)) with (p ++ 44%N :: join (q :: parts)).
    rewrite length_app. cbn [length] in *.
    assert (IH' : (S (length parts) <= length (join (q :: parts)))%nat)
      by (apply IH; intros x Hx; apply H; now right).
    lia.
Qed.

Lemma join_part_length (parts : list jsstring) p :
  In p parts -> (length p <= length (join parts))%nat.
Proof.
  induction parts as [|q parts IH]; intros Hin; [contradiction|].
  destruct parts as [|q' parts].
  - destruct Hin as [->|[]]. simpl. lia.
  - change (join (q :: q' :: parts)) with (q ++ 44%N :: join (q' :: parts)).
    rewrite length_app. cbn [length]. destruct Hin as [->|Hin]; [lia|].
    specialize (IH Hin). lia.
Qed.

Lemma stringify_nonempty v : covered v = true -> (1 <= length (stringify v))%nat.
Proof.
  intros H. destruct (stringify_head v H) as [c [t [E _]]]. rewrite E.
  simpl. lia.
Qed.

Lemma memberText_nonempty kv : (1 <= length (memberText kv))%nat.
Proof. unfold memberText, quote. cbn [app length]. lia. Qed.

Lemma depth_element l x :
  In x l -> (depth x <= fold_right (fun y acc => Nat.max (depth y) acc) 0 l)%nat.
Proof.
  induction l as [|y l IH]; intros Hin; [contradiction|].
  cbn [fold_right]. destruct Hin as [->|Hin]; [lia|]. specialize (IH Hin). lia.
Qed.

Lemma depth_field (fields : list (jsstring * js)) kv :
  In kv fields ->
  (depth (snd kv)
   <= fold_right (fun y acc => Nat.max (depth (snd y)) acc) 0 fields)%nat.
Proof.
  induction fields as [|y l IH]; intros Hin; [contradiction|].
  cbn [fold_right]. destruct Hin as [->|Hin]; [lia|]. specialize (IH Hin). lia.
Qed.

Lemma covered_field (fields : list (jsstring * js)) :
  forallb (fun kv => match arrayIndex (fst kv) with
                     | Some _ => false
                     | None => covered (snd kv)
                     end) fields = true ->
  forall kv, In kv fields ->
    arrayIndex (fst kv) = None /\ covered (snd kv) = true.
Proof.
  intros H kv Hin. rewrite forallb_forall in H. specialize (H kv Hin).
  destruct (arrayIndex (fst kv)); [discriminate|]. now split.
Qed.

(** A covered value that is written out is read back, whatever
    delimiter follows it, with fuel beyond its depth. *)
Lemma parseValue_stringify v :
  covered v = true -> forall fuel, (depth v < fuel)%nat -> readsBack fuel v.
Proof.
  induction v as [ |b|n|t|s|l IHl|fields IHf] using js_induction;
    intros Hc fuel Hfuel rest Hd;
    (destruct fuel as [|fuel]; [lia|]).
  - reflexivity.
  - destruct b; reflexivity.
  - destruct (numberText_head n) as [c [t [E H]]].
    change (stringify (JNum n)) with (numberText n). rewrite E. cbn [app].
    rewrite (parseValue_number fuel c (t ++ rest) H).
    change (c :: t ++ rest) with ((c :: t) ++ rest). rewrite <- E.
    now apply lexNumber_numberText.
  - discriminate.
  - change (stringify (JStr s)) with (quote s).
    rewrite quote_followed, parseValue_string.
    now rewrite parseChars_quoteChars.
  - rewrite covered_array in Hc. rewrite stringify_array.
    cbn [app]. rewrite <- app_assoc. cbn [app]. rewrite parseValue_array.
    destruct l as [|x l].
    + cbn [map join app skipSpace]. change (isJsonSpace 93) with false.
      cbv iota. change ((93 =? 93)%N) with true. reflexivity.
    + assert (Hx : covered x = true).
      { rewrite forallb_forall in Hc. apply Hc. now left. }
      destruct (stringify_head x Hx) as [c [t [E Hstart]]].
      destruct (valueStart_facts c Hstart) as [Hsp [H93 _]].
      assert (Hjoin : exists t', join (map stringify (x :: l)) = c :: t').
      { cbn [map]. destruct (map stringify l) as [|p ps].
        - exists t. exact E.
        - change (join (stringify x :: p :: ps))
            with (stringify x ++ 44%N :: join (p :: ps)).
          rewrite E. now eexists. }
      destruct Hjoin as [t' Ej].
      rewrite Ej at 1. cbn [app]. rewrite (skipSpace_head c _ Hsp), H93.
      rewrite (parseElements_join fuel (x :: l) [] _ rest); try reflexivity;
        try discriminate.
      * apply Forall_forall. intros y Hy.
        rewrite Forall_forall in IHl. apply IHl; [exact Hy| |].
        -- rewrite forallb_forall in Hc. now apply Hc.
        -- cbn [depth] in Hfuel. pose proof (depth_element _ _ Hy). lia.
      * rewrite length_app.
        assert (L : (length (map stringify (x :: l))
                     <= length (join (map stringify (x :: l))))%nat).
        { apply join_length. intros p Hp. apply in_map_iff in Hp as [y [<- Hy]].
          apply stringify_nonempty. rewrite forallb_forall in Hc. now apply Hc. }
        rewrite length_map in L. lia.
  - rewrite covered_object in Hc. apply andb_true_iff in Hc as [Hc Hkeys].
    rewrite stringify_object. cbn [app]. rewrite <- app_assoc. cbn [app].
    rewrite parseValue_object.
    destruct fields as [|[k x] fields].
    + cbn [map join app skipSpace]. change (isJsonSpace 125) with false.
      cbv iota. change ((125 =? 125)%N) with true. reflexivity.
    + assert (Hjoin : exists t', join (map memberText ((k, x) :: fields))
                                 = 34%N :: t').
      { cbn [map]. destruct (map memberText fields) as [|p ps].
        - unfold join, memberText, quote. cbn [app]. now eexists.
        - change (join (memberText (k, x) :: p :: ps))
            with (memberText (k, x) ++ 44%N :: join (p :: ps)).
          unfold memberText, quote. cbn [app]. now eexists. }
      destruct Hjoin as [t' Ej].
      rewrite Ej at 1. cbn [app skipSpace]. change (isJsonSpace 34) with false.
      cbv iota. change ((34 =? 125)%N) with false. cbv iota.
      rewrite (parseMembers_join fuel ((k, x) :: fields) [] _ rest);
        try reflexivity; try discriminate.
      * apply Forall_forall. intros kv Hkv.
        rewrite Forall_forall in IHf. apply IHf; [exact Hkv| |].
        -- now apply (covered_field _ Hc kv Hkv).
        -- cbn [depth] in Hfuel. pose proof (depth_field _ _ Hkv). lia.
      * rewrite length_app.
        assert (L : (length (map memberText ((k, x) :: fields))
                     <= length (join (map memberText ((k, x) :: fields))))%nat).
        { apply join_length. intros p Hp. apply in_map_iff in Hp as [y [<- Hy]].
          apply memberText_nonempty. }
        rewrite length_map in L. lia.
      * intros kv Hkv. now apply (covered_field _ Hc kv Hkv).
      * exact Hkeys.
Qed.

Lemma depth_below_length v :
  covered v = true -> (depth v < length (stringify v))%nat.
Proof.
  induction v as [ |b|n|t|s|l IHl|fields IHf] using js_induction; intros Hc;
    try (apply stringify_nonempty; exact Hc).
  - rewrite covered_array in Hc. rewrite stringify_array.
    cbn [length depth]. rewrite length_app. cbn [length].
    assert (H : (fold_right (fun y acc => Nat.max (depth y) acc) 0 l
                 <= length (join (map stringify l)))%nat).
    { clear -IHl Hc. rewrite Forall_forall in IHl. rewrite forallb_forall in Hc.
      assert (G : forall m, (forall x, In x m -> In x l) ->
                  (fold_right (fun y acc => Nat.max (depth y) acc) 0 m
                   <= length (join (map stringify l)))%nat).
      { induction m as [|y m IHm]; intros Hsub; cbn [fold_right]; [lia|].
        assert (Hy : In y l) by (apply Hsub; now left).
        pose proof (IHl y Hy (Hc y Hy)) as D.
        pose proof (join_part_length (map stringify l) (stringify y)
                      (in_map stringify l y Hy)) as J.
        assert (IHm' := IHm (fun x Hx => Hsub x (or_intror Hx))). lia. }
      apply G. auto. }
    lia.
  - rewrite covered_object in Hc. apply andb_true_iff in Hc as [Hc _].
    rewrite stringify_object. cbn [length depth]. rewrite length_app.
    cbn [length].
    assert (H : (fold_right (fun y acc => Nat.max (depth (snd y)) acc) 0 fields
                 <= length (join (map memberText fields)))%nat).
    { clear -IHf Hc. rewrite Forall_forall in IHf.
      assert (G : forall m, (forall x, In x m -> In x fields) ->
                  (fold_right (fun y acc => Nat.max (depth (snd y)) acc) 0 m
                   <= length (join (map memberText fields)))%nat).
      { induction m as [|y m IHm]; intros Hsub; cbn [fold_right]; [lia|].
        assert (Hy : In y fields) by (apply Hsub; now left).
        destruct (covered_field _ Hc y Hy) as [_ Hcy].
        pose proof (IHf y Hy Hcy) as D.
        pose proof (join_part_length (map memberText fields) (memberText y)
                      (in_map memberText fields y Hy)) as J.
        assert (M : (length (stringify (snd y)) <= length (memberText y))%nat).
        { unfold memberText. rewrite length_app. cbn [length]. lia. }
        assert (IHm' := IHm (fun x Hx => Hsub x (or_intror Hx))). lia. }
      apply G. auto. }
    lia.
Qed.

(** [JSON.parse(JSON.stringify(v))] is [v] for every covered value. *)
Lemma parse_stringify v : covered v = true -> parse (stringify v) = Ok v.
Proof.
  intros Hc. unfold parse.
  pose proof (parseValue_stringify v Hc (length (stringify v))
                (depth_below_length v Hc) [] I) as H.
  rewrite app_nil_r in H. now rewrite H.
Qed.

End JSONFacts.

(** ** Persistence of the history *)

Section PersistenceFacts.
Import JS JSON History JSONSpec HistorySpec.

Lemma forallb_mapped {A B} (p : B -> bool) (f : A -> B) l :
  forallb p (map f l) = forallb (fun x => p (f x)) l.
Proof. induction l as [|a l IH]; simpl; [reflexivity|]. now rewrite IH. Qed.

Lemma covered_messageValue m :
  safeInteger (m_timestamp m) = true -> covered (messageValue m) = true.
Proof.
  intros H. unfold messageValue. rewrite covered_object.
  apply andb_true_iff. split; [|reflexivity].
  cbn [forallb fst snd]. 
  change (arrayIndex (str "role")) with (@None N).
  change (arrayIndex (str "content")) with (@None N).
  change (arrayIndex (str "id")) with (@None N).
  change (arrayIndex (str "timestamp")) with (@None N).
  cbv iota. rewrite covered_number. fold (safeInteger (m_timestamp m)).
  rewrite H. now destruct (m_role m).
Qed.

Lemma covered_sessionValue s :
  safeInteger (s_createdAt s) = true -> safeInteger (s_updatedAt s) = true ->
  forallb (fun m => safeInteger (m_timestamp m)) (s_messages s) = true ->
  covered (sessionValue s) = true.
Proof.
  intros Hc Hu Hm. unfold sessionValue. rewrite covered_object.
  apply andb_true_iff. split; [|reflexivity].
  cbn [forallb fst snd].
  change (arrayIndex (str "id")) with (@None N).
  change (arrayIndex (str "messages")) with (@None N).
  change (arrayIndex (str "createdAt")) with (@None N).
  change (arrayIndex (str "updatedAt")) with (@None N).
  cbv iota. rewrite !covered_number. fold (safeInteger (s_createdAt s)).
  fold (safeInteger (s_updatedAt s)). rewrite Hc, Hu, covered_array.
  rewrite forallb_mapped. cbn [andb].
  rewrite andb_true_r. apply forallb_forall. intros m Hin.
  apply covered_messageValue. rewrite forallb_forall in Hm. now apply Hm.
Qed.

Lemma covered_sessionsValue l :
  storable l = true -> covered (sessionsValue l) = true.
Proof.
  intros H. unfold sessionsValue. rewrite covered_array, forallb_mapped.
  apply forallb_forall. intros s Hin. unfold storable in H.
  rewrite forallb_forall in H. specialize (H s Hin).
  apply andb_true_iff in H as [H Hm]. apply andb_true_iff in H as [Hc Hu].
  now apply covered_sessionValue.
Qed.

Lemma roleValue_inj a b : roleValue a = roleValue b -> a = b.
Proof. destruct a, b; intros H; try reflexivity; discriminate. Qed.

Lemma messageValue_inj a b : messageValue a = messageValue b -> a = b.
Proof.
  destruct a as [i r c t], b as [i' r' c' t']. unfold messageValue.
  cbn [m_id m_role m_content m_timestamp]. intros H.
  injection H as Hr Hc Hi Ht.
  assert (r = r') by (destruct r, r'; try reflexivity; discriminate).
  congruence.
Qed.

Lemma map_inj {A B} (f : A -> B) :
  (forall a b, f a = f b -> a = b) ->
  forall l l', map f l = map f l' -> l = l'.
Proof.
  intros Hf. induction l as [|a l IH]; intros [|b l'] H; try discriminate;
    [reflexivity|].
  simpl in H. injection H as Ha Hl. f_equal; auto.
Qed.

Lemma sessionValue_inj a b : sessionValue a = sessionValue b -> a = b.
Proof.
  destruct a as [i ms c u], b as [i' ms' c' u']. unfold sessionValue.
  cbn [s_id s_messages s_createdAt s_updatedAt]. intros H.
  injection H as Hi Hm Hc Hu. apply (map_inj _ messageValue_inj) in Hm.
  congruence.
Qed.

(** The JavaScript value determines the session list, field for
    field. *)
Lemma sessionsValue_inj l l' : sessionsValue l = sessionsValue l' -> l = l'.
Proof.
  unfold sessionsValue. intros H. injection H as H.
  now apply (map_inj _ sessionValue_inj) in H.
Qed.

(** *** Saving and loading *)

Lemma setItem_fits value st :
  denied st = false ->
  (otherUse st + length STORAGE_KEY + length value <= quota st)%nat ->
  setItem value st
  = Ok {| entry := Some value; otherUse := otherUse st; quota := quota st;
          denied := false |}.
Proof.
  intros Hd Hq. unfold setItem. rewrite Hd.
  now rewrite (proj2 (Nat.leb_le _ _) Hq).
Qed.

Lemma sessionsValue_text l :
  exists t, stringify (sessionsValue l) = 91%N :: t /\ (1 <= length t)%nat.
Proof.
  unfold sessionsValue. rewrite stringify_array. eexists. split; [reflexivity|].
  rewrite length_app. simpl. lia.
Qed.

(** C7.  A session list with safe time stamps, saved to a storage that
    takes it, and loaded by the hook when it is mounted anew: the text
    that was written parses to the very value that was written, the
    hook holds that value after the mount, the value stands for no other
    session list, and the storage holds the same text as before the
    mount. *)
Theorem saved_sessions_load_back l w :
  storable l = true ->
  denied (storage w) = false ->
  (otherUse (storage w) + length STORAGE_KEY
   + length (stringify (sessionsValue l)) <= quota (storage w))%nat ->
  parse (stringify (sessionsValue l)) = Ok (sessionsValue l) /\
  exists w1 w2,
    change l w = Ok w1 /\
    entry (storage w1) = Some (stringify (sessionsValue l)) /\
    mount (storage w1) = Ok w2 /\
    held w2 = sessionsValue l /\
    (forall l', held w2 = sessionsValue l' -> l' = l) /\
    entry (storage w2) = Some (stringify (sessionsValue l)).
Proof.
  intros Hs Hd Hq.
  pose proof (parse_stringify _ (covered_sessionsValue l Hs)) as Hparse.
  split; [exact Hparse|].
  destruct (sessionsValue_text l) as [t [Et Lt]].
  set (text := stringify (sessionsValue l)) in *.
  set (st1 := {| entry := Some text; otherUse := otherUse (storage w);
                 quota := quota (storage w); denied := false |}).
  assert (Hsave : change l w
                  = Ok {| held := sessionsValue l; renderDue := false;
                          storage := st1; console := console w |}).
  { unfold change, saveEffect. cbn [storage rendered setSessions].
    fold text. rewrite (setItem_fits text (storage w) Hd Hq). reflexivity. }
  assert (Hempty : setItem (stringify (JArr [])) st1
                   = Ok {| entry := Some (stringify (JArr []));
                           otherUse := otherUse (storage w);
                           quota := quota (storage w); denied := false |}).
  { apply (setItem_fits (stringify (JArr [])) st1 eq_refl).
    cbn [otherUse quota st1]. change (length (stringify (JArr []))) with 2%nat.
    rewrite Et in Hq. cbn [length] in Hq. lia. }
  assert (Hagain : setItem text
                     {| entry := Some (stringify (JArr []));
                        otherUse := otherUse (storage w);
                        quota := quota (storage w); denied := false |}
                   = Ok st1).
  { now rewrite setItem_fits. }
  assert (Hmount : mount st1
                   = Ok {| held := sessionsValue l; renderDue := false;
                           storage := st1; console := [] |}).
  { assert (Ht : truthy text = true) by (rewrite Et; reflexivity).
    unfold mount, loadEffect, getItem. cbn [storage].
    change (denied st1) with false. change (entry st1) with (Some text).
    cbn [bind tryCatch]. rewrite Ht, Hparse.
    cbn [bind tryCatch]. unfold saveEffect at 1.
    cbn [storage setSessions]. rewrite Hempty.
    cbn [bind tryCatch setStorage setSessions renderDue held storage console].
    unfold saveEffect.
    cbn [rendered storage held setStorage setSessions renderDue console].
    fold text. rewrite Hagain. reflexivity. }
  eexists. eexists. split; [exact Hsave|]. split; [reflexivity|].
  cbn [storage]. split; [exact Hmount|]. split; [reflexivity|].
  split; [|reflexivity].
  intros l' Hl'. symmetry. now apply sessionsValue_inj.
Qed.

Lemma saved_sessions_load_back_witness :
  let l := [{| s_id := str "session_1700000000000_k3x9q2mzp";
               s_messages :=
                 [{| m_id := str "msg_1700000000100_a1b2c3d4e"; m_role := user;
                     m_content := [77; 117; 114; 97; 104; 111; 34; 10; 55357;
                                   56832]%N;
                     m_timestamp := 1700000000101 |}];
               s_createdAt := 1700000000000;
               s_updatedAt := 1700000000102 |}] in
  let w := {| held := JArr []; renderDue := false;
              storage := {| entry := None; otherUse := 10; quota := 5000;
                            denied := false |};
              console := [] |} in
  parse (stringify (sessionsValue l)) = Ok (sessionsValue l) /\
  exists w1 w2,
    change l w = Ok w1 /\
    entry (storage w1) = Some (stringify (sessionsValue l)) /\
    mount (storage w1) = Ok w2 /\
    held w2 = sessionsValue l /\
    (forall l', held w2 = sessionsValue l' -> l' = l) /\
    entry (storage w2) = Some (stringify (sessionsValue l)).
Proof.
  intros l w. apply (saved_sessions_load_back l w).
  - vm_compute. reflexivity.
  - reflexivity.
  - apply Nat.leb_le. vm_compute. reflexivity.
Defined.

(** *** Failures of the storage *)

Lemma loadEffect_absorbs w :
  exists w', loadEffect w = Ok w' /\ storage w' = storage w /\
             (loadFails (storage w) -> held w' = held w /\ renderDue w' = renderDue w).
Proof.
  unfold loadEffect, getItem, loadFails.
  destruct (denied (storage w)) eqn:Hd; cbn [bind tryCatch].
  { eexists. split; [reflexivity|]. split; [reflexivity|]. now intros _. }
  destruct (entry (storage w)) as [text|] eqn:He.
  2:{ eexists. split; [reflexivity|]. split; [reflexivity|]. now intros _. }
  destruct (truthy text) eqn:Ht.
  2:{ eexists. split; [reflexivity|]. split; [reflexivity|]. now intros _. }
  destruct (parse text) as [v|e] eqn:Hp; cbn [bind tryCatch].
  - eexists. split; [reflexivity|]. split; [reflexivity|].
    intros [H|[H|[H|[text' [e [H1 H2]]]]]]; try discriminate.
    + injection H as ->. discriminate.
    + injection H1 as <-. rewrite Hp in H2. discriminate.
  - eexists. split; [reflexivity|]. split; [reflexivity|]. now intros _.
Qed.

Lemma saveEffect_absorbs v w :
  exists w', saveEffect v w = Ok w' /\ held w' = held w /\
             renderDue w' = renderDue w /\
             (saveFails v (storage w) -> storage w' = storage w).
Proof.
  unfold saveEffect, saveFails.
  destruct (setItem (stringify v) (storage w)) as [st|e] eqn:Hs;
    cbn [bind tryCatch].
  - eexists. repeat split. intros [e He]. discriminate.
  - eexists. repeat split.
Qed.

Lemma loadEffect_cases w :
  exists w',
    loadEffect w = Ok w' /\ storage w' = storage w /\
    (denied (storage w) = true ->
     held w' = held w /\
     console w'
     = console w ++ [(str "Failed to load chat history:", SecurityError)]) /\
    (denied (storage w) = false ->
     entry (storage w) = None \/ entry (storage w) = Some [] ->
     held w' = held w /\ console w' = console w) /\
    (forall text e,
       denied (storage w) = false -> entry (storage w) = Some text ->
       text <> [] -> parse text = Throw e ->
       held w' = held w /\
       console w' = console w ++ [(str "Failed to load chat history:", e)]) /\
    (forall text parsed,
       denied (storage w) = false -> entry (storage w) = Some text ->
       text <> [] -> parse text = Ok parsed ->
       held w' = parsed /\ console w' = console w).
Proof.
  unfold loadEffect, getItem.
  destruct (denied (storage w)) eqn:Hd; cbn [bind tryCatch].
  { eexists. split; [reflexivity|]. split; [reflexivity|].
    split; [intros _; split; reflexivity|].
    split; [discriminate|].
    split; intros text x D; discriminate D. }
  destruct (entry (storage w)) as [text|] eqn:He.
  2:{ eexists. split; [reflexivity|]. split; [reflexivity|].
      split; [discriminate|].
      split; [intros _ _; split; reflexivity|].
      split; intros text x _ E; discriminate E. }
  destruct text as [|c text].
  { eexists. split; [reflexivity|]. split; [reflexivity|].
    split; [discriminate|].
    split; [intros _ _; split; reflexivity|].
    split; intros text' x _ E Hne; injection E as <-; now elim Hne. }
  cbn [truthy].
  destruct (parse (c :: text)) as [v|e] eqn:Hp; cbn [bind tryCatch].
  - eexists. split; [reflexivity|]. split; [reflexivity|].
    split; [discriminate|]. split; [intros _ [E|E]; discriminate|].
    split.
    + intros text' e _ E _ Hp'. injection E as <-. rewrite Hp in Hp'.
      discriminate.
    + intros text' parsed _ E _ Hp'. injection E as <-. rewrite Hp in Hp'.
      injection Hp' as <-. split; reflexivity.
  - eexists. split; [reflexivity|]. split; [reflexivity|].
    split; [discriminate|]. split; [intros _ [E|E]; discriminate|].
    split.
    + intros text' e' _ E _ Hp'. injection E as <-. rewrite Hp in Hp'.
      injection Hp' as <-. split; reflexivity.
    + intros text' parsed _ E _ Hp'. injection E as <-. rewrite Hp in Hp'.
      discriminate.
Qed.

Lemma saveEffect_cases v w :
  exists w',
    saveEffect v w = Ok w' /\ held w' = held w /\
    (forall e, setItem (stringify v) (storage w) = Throw e ->
       storage w' = storage w /\
       console w'
       = console w ++ [(str "Failed to save chat history:", e)]) /\
    (forall st, setItem (stringify v) (storage w) = Ok st ->
       storage w' = st /\ console w' = console w).
Proof.
  unfold saveEffect.
  destruct (setItem (stringify v) (storage w)) as [st|e] eqn:Hs;
    cbn [bind tryCatch].
  - eexists. split; [reflexivity|]. split; [reflexivity|].
    split; [discriminate|]. intros st' E. injection E as <-. split; reflexivity.
  - eexists. split; [reflexivity|]. split; [reflexivity|].
    split; [|discriminate]. intros e' E. injection E as <-. split; reflexivity.
Qed.

(** C8, amended.  Neither effect throws, and neither does the mount as
    a whole, whatever the storage does.  A load that is refused, or
    whose entry is not JSON, leaves the sessions as they were and
    writes the error to the console under "Failed to load chat
    history:"; a missing or empty entry leaves them as they were and
    writes nothing.  An entry that is JSON is not looked at any
    further: the value it parses to becomes the sessions, a list of
    sessions or not.  A save leaves the sessions as they were in any
    case; when the storage refuses it the storage stays as it was and
    the error goes to the console under "Failed to save chat history:".
    After a mount whose load has failed the hook holds the empty
    list. *)
Theorem storage_failures_are_absorbed w v :
  (exists w',
     loadEffect w = Ok w' /\ storage w' = storage w /\
     (loadFails (storage w) -> held w' = held w) /\
     (denied (storage w) = true ->
      console w'
      = console w ++ [(str "Failed to load chat history:", SecurityError)]) /\
     (denied (storage w) = false ->
      entry (storage w) = None \/ entry (storage w) = Some [] ->
      console w' = console w) /\
     (forall text e,
        denied (storage w) = false -> entry (storage w) = Some text ->
        text <> [] -> parse text = Throw e ->
        console w' = console w ++ [(str "Failed to load chat history:", e)]) /\
     (forall text parsed,
        denied (storage w) = false -> entry (storage w) = Some text ->
        text <> [] -> parse text = Ok parsed ->
        held w' = parsed /\ console w' = console w)) /\
  (exists w',
     saveEffect v w = Ok w' /\ held w' = held w /\
     (saveFails v (storage w) -> storage w' = storage w) /\
     (forall e, setItem (stringify v) (storage w) = Throw e ->
        console w'
        = console w ++ [(str "Failed to save chat history:", e)])) /\
  (exists w', mount (storage w) = Ok w' /\
              (loadFails (storage w) -> held w' = JArr [])).
Proof.
  split; [|split].
  - destruct (loadEffect_absorbs w) as [w0 [H0 [_ Hfail]]].
    destruct (loadEffect_cases w) as [w' [H1 [H2 [Hd [Hm [Ht Hp]]]]]].
    rewrite H0 in H1. injection H1 as ->.
    exists w'. split; [exact H0|]. split; [exact H2|].
    split; [intros F; now apply Hfail|].
    split; [intros D; now apply Hd|].
    split; [intros D E; now apply Hm|].
    split; [|exact Hp].
    intros text e D E Hne P. now apply (Ht text e).
  - destruct (saveEffect_cases v w) as [w' [H1 [H2 [Hf _]]]].
    exists w'. split; [exact H1|]. split; [exact H2|]. split.
    + intros [e He]. now apply (Hf e).
    + intros e He. now apply (Hf e).
  - unfold mount.
    set (w0 := {| held := JArr []; renderDue := false; storage := storage w;
                  console := [] |}).
    destruct (loadEffect_absorbs w0) as [w1 [L1 [_ L2]]].
    rewrite L1. cbn [bind].
    destruct (saveEffect_absorbs (JArr []) w1) as [w2 [S1 [S2 [S3 _]]]].
    rewrite S1. cbn [bind].
    destruct (renderDue w2) eqn:Hr.
    + destruct (saveEffect_absorbs (held w2) (rendered w2)) as [w3 [T1 [T2 _]]].
      exists w3. split; [exact T1|]. intros F.
      rewrite T2. cbn [rendered held]. rewrite S2. now apply L2.
    + exists w2. split; [reflexivity|]. intros F. rewrite S2. now apply L2.
Qed.

(** An entry that is not JSON in a full storage: the mount returns with
    the empty list, and both failures went to the console. *)
Lemma storage_failures_are_absorbed_witness :
  let st := {| entry := Some (str "[{id: session_1,");
               otherUse := 4990; quota := 5000; denied := false |} in
  exists w',
    mount st = Ok w' /\ held w' = JArr [] /\ storage w' = st /\
    console w'
    = [(str "Failed to load chat history:", SyntaxError);
       (str "Failed to save chat history:", QuotaExceededError)].
Proof.
  intros st.
  destruct (storage_failures_are_absorbed
              {| held := JArr []; renderDue := false; storage := st;
                 console := [] |} (JArr []))
    as [_ [_ [w' [Hm Hh]]]].
  exists w'. split; [exact Hm|].
  split.
  - apply Hh. right. right. right.
    exists (str "[{id: session_1,"), SyntaxError. split; reflexivity.
  - cbn [storage] in Hm. vm_compute in Hm. injection Hm as <-.
    split; reflexivity.
Defined.

(** C8 as stated fails for an entry that is corrupt and yet JSON: the
    text [{}] is the text of no session list, and after the mount the
    hook holds the object it parses to, not the empty list. *)
Lemma corrupt_entry_is_kept :
  ~ (forall st text,
       entry st = Some text -> corrupt text -> degradesToEmpty st).
Proof.
  intros H.
  destruct (H {| entry := Some (str "{}"); otherUse := 10; quota := 5000;
                 denied := false |} (str "{}") eq_refl)
    as [w [Hm Hh]].
  - intros l E. vm_compute in E. discriminate.
  - vm_compute in Hm. injection Hm as <-. discriminate.
Qed.

End PersistenceFacts.

(** ** The older send handler *)

Section LegacyFacts.
Import JS LegacyApp.

(** [handleSend] does look at [isSending]. *)
Lemma legacy_send_while_sending env c remote :
  isSending c = true -> handleSend env c remote = [].
Proof. intros H. unfold handleSend. rewrite H. now rewrite orb_true_r. Qed.

(** When the remote call fails, [handleSend] stores the user message
    followed by a model message that carries the error text: two
    messages more than before. *)
Lemma legacy_failure_appends_error_text env c remote :
  (negb (truthy (trim (input c))) && negb (present (file c))) = false ->
  isSending c = false ->
  response remote = None ->
  exists u,
    lm_role u = user /\
    lastUpdate (handleSend env c remote)
    = Some (messages c ++ [u; reply env errorText]).
Proof.
  intros Hn Hs Hr. unfold handleSend. rewrite Hn, Hs. cbn [orb].
  eexists. split; [|unfold attempt; rewrite Hr;
    destruct (hasChat c), (startChatResolves remote); cbn;
    rewrite <- app_assoc; reflexivity].
  reflexivity.
Qed.

End LegacyFacts.

(** ** Single flight under discipline *)

Section SingleFlightFacts.
Import JS Chat App AppSpec.

Lemma Forall_updateChat (P Q : ChatSession -> Prop) cid p ss :
  Forall P ss ->
  (forall s, P s -> streq (ses_id s) cid = true -> Q (applyPatch p s)) ->
  (forall s, P s -> streq (ses_id s) cid = false -> Q s) ->
  Forall Q (updateChat cid p ss).
Proof.
  intros H H1 H2. unfold updateChat.
  induction H as [|s ss Hs Hss IH]; simpl; constructor; auto.
  destruct (streq (ses_id s) cid) eqn:E; auto.
Qed.

Lemma NoDup_map_filter {A B} (f : A -> B) (p : A -> bool) l :
  NoDup (map f l) -> NoDup (map f (filter p l)).
Proof.
  induction l as [|a l IH]; simpl; intros H; [constructor|].
  inversion H as [|? ? Hn Hd]; subst.
  destruct (p a); simpl; [constructor|]; auto.
  intros Hin. apply Hn. apply in_map_iff in Hin as [x [E Hx]].
  apply filter_In in Hx as [Hx _]. rewrite <- E. now apply in_map.
Qed.

Lemma filter_none {A} (p : A -> bool) l :
  (forall x, In x l -> p x = false) -> filter p l = [].
Proof.
  induction l as [|a l IH]; simpl; intros H; [reflexivity|].
  rewrite (H a) by now left. apply IH. intros x Hx. apply H. now right.
Qed.

Lemma one_at_most {A B} (f : A -> B) (p : A -> bool) (c : B) l :
  NoDup (map f l) -> (forall x, In x l -> p x = true -> f x = c) ->
  (length (filter p l) <= 1)%nat.
Proof.
  induction l as [|a l IH]; simpl; intros Hnd H; [lia|].
  inversion Hnd as [|? ? Hn Hd]; subst.
  destruct (p a) eqn:Ea.
  - rewrite filter_none; [simpl; lia|].
    intros x Hx. destruct (p x) eqn:Ex; [|reflexivity]. exfalso. apply Hn.
    rewrite (H a (or_introl eq_refl) Ea), <- (H x (or_intror Hx) Ex).
    now apply in_map.
  - apply IH; [exact Hd|]. intros x Hx. apply H. now right.
Qed.

(** In a session that is in order at most one message is pending. *)
Lemma sessionOk_pending ts s :
  sessionOk ts s -> (length (filter is_pending (ses_messages s)) <= 1)%nat.
Proof.
  intros [Hnd Hp]. destruct ts as [|t [|t' ts]].
  - rewrite filter_none; [simpl; lia|]. intros m Hm.
    destruct (is_pending m) eqn:E; [|reflexivity].
    destruct (Hp m Hm E) as [t [Ht _]]. discriminate.
  - apply (one_at_most msg_id is_pending (task_modelMessageId t)); [exact Hnd|].
    intros m Hm E. destruct (Hp m Hm E) as [t0 [Ht [Hid _]]].
    injection Ht as <-. exact Hid.
  - rewrite filter_none; [simpl; lia|]. intros m Hm.
    destruct (is_pending m) eqn:E; [|reflexivity].
    destruct (Hp m Hm E) as [t0 [Ht _]]. discriminate.
Qed.

Lemma sessionOk_quiet s :
  sessionOk [] s <->
  NoDup (map msg_id (ses_messages s)) /\
  forall m, In m (ses_messages s) -> is_pending m = false.
Proof.
  split; intros [Hnd Hp]; split; try exact Hnd.
  - intros m Hm. destruct (is_pending m) eqn:E; [|reflexivity].
    destruct (Hp m Hm E) as [t [Ht _]]. discriminate.
  - intros m Hm E. rewrite (Hp m Hm) in E. discriminate.
Qed.

Lemma messageIds_session st s m :
  In s (sessions st) -> In m (ses_messages s) -> In (msg_id m) (messageIds st).
Proof.
  intros Hs Hm. unfold messageIds. apply in_flat_map. exists s.
  split; [exact Hs|]. now apply in_map.
Qed.

Lemma currentSession_member st s :
  currentSession st = Some s -> In s (sessions st).
Proof.
  unfold currentSession, findSession. destruct (currentChatId st); [|discriminate].
  intros H. now apply find_some in H.
Qed.

(** The pair that a send appends keeps a quiet session in order. *)
Lemma sessionOk_sent env text f rid t s :
  sessionOk [] s ->
  task_modelMessageId t = uuid_model env -> task_chatId t = ses_id s ->
  fresh (uuid_model env) (ses_messages s) ->
  (retriedId rid = None -> fresh (uuid_user env) (ses_messages s)) ->
  from_option (retriedId rid) (uuid_user env) <> uuid_model env ->
  sessionOk [t] (applyPatch (messagesPatch (sentMessages env text f rid)) s).
Proof.
  intros Hq Hmid Hcid Hfm Hfu Hne. apply sessionOk_quiet in Hq as [Hnd Hp].
  unfold sessionOk. cbn [applyPatch messagesPatch patch_messages ses_messages
    ses_id]. unfold sentMessages. split.
  - rewrite map_app. apply NoDup_app.
    + destruct (retriedId rid); [now apply NoDup_map_filter|exact Hnd].
    + cbn [map newUserMessage newModelMessage msg_id]. constructor.
      * intros [H|[]]. now apply Hne.
      * constructor; [intros []|constructor].
    + intros a Ha [H|[H|[]]]; cbn [newUserMessage newModelMessage msg_id] in H;
        subst a.
      * destruct (retriedId rid) as [r|] eqn:Er; cbn [from_option] in Ha.
        -- now apply (dropId_absent r (ses_messages s)).
        -- now apply (Hfu eq_refl).
      * destruct (retriedId rid) as [r|].
        -- now apply (fresh_dropId _ r _ Hfm).
        -- now apply Hfm.
  - intros m Hm E. apply in_app_or in Hm as [Hm|[Hm|[Hm|[]]]].
    + exfalso. assert (In m (ses_messages s)).
      { destruct (retriedId rid); [|exact Hm].
        now apply filter_In in Hm as [Hm _]. }
      rewrite (Hp m H) in E. discriminate.
    + subst m. discriminate.
    + subst m. exists t. cbn [newModelMessage msg_id]. auto.
Qed.

Lemma singleFlight_fields st st' :
  sessions st' = sessions st -> tasks st' = tasks st ->
  isSending st' = isSending st -> singleFlight st -> singleFlight st'.
Proof. unfold singleFlight. now intros -> -> ->. Qed.

(** A send that starts while nothing is in flight. *)
Lemma singleFlight_send st env text f rid :
  singleFlight st -> isSending st = false ->
  ~ In (uuid_model env) (messageIds st) ->
  (retriedId rid = None -> ~ In (uuid_user env) (messageIds st)) ->
  from_option (retriedId rid) (uuid_user env) <> uuid_model env ->
  singleFlight (handleSendMessage env text f rid st).
Proof.
  intros Hsf Hs Hfm Hfu Hne.
  destruct (currentSession st) as [s|] eqn:Hcs.
  2:{ now rewrite handleSendMessage_unselected. }
  destruct (currentChatId st) as [cid|] eqn:Hc.
  2:{ unfold currentSession in Hcs. rewrite Hc in Hcs. discriminate. }
  destruct (nothingToSend text f || negb (truthy cid)) eqn:Hg.
  { unfold handleSendMessage. now rewrite Hc, Hcs, Hg. }
  apply orb_false_iff in Hg as [Hn Ht]. apply negb_false_iff in Ht.
  rewrite (handleSendMessage_flying env text f rid st cid s Hc Ht Hcs Hn).
  destruct Hsf as [Hidle [_ Hall]]. rewrite (Hidle Hs) in Hall.
  unfold singleFlight, flying. cbn [isSending tasks sessions].
  rewrite (Hidle Hs). cbn [app length]. split; [discriminate|]. split; [lia|].
  rewrite Forall_forall in Hall.
  apply (Forall_updateChat (fun x => In x (sessions st))); [now apply Forall_forall|..].
  - intros x Hx E. apply streq_eq in E.
    apply sessionOk_sent; auto.
    + intros Hin. apply Hfm. unfold messageIds. apply in_flat_map. eauto.
    + intros Hr Hin. apply (Hfu Hr). unfold messageIds. apply in_flat_map. eauto.
  - intros x Hx _. specialize (Hall x Hx).
    apply sessionOk_quiet in Hall as [Hnd Hp]. split; [exact Hnd|].
    intros m Hm E. rewrite (Hp m Hm) in E. discriminate.
Qed.

(** Taking messages out of a session keeps the discipline. *)
Lemma singleFlight_filter st cid p :
  singleFlight st ->
  singleFlight (update cid (messagesPatch (filter p)) st) /\
  forall id, In id (messageIds (update cid (messagesPatch (filter p)) st)) ->
             In id (messageIds st).
Proof.
  intros [Hidle [Hlen Hall]]. split.
  - unfold singleFlight, update, set_sessions. cbn [isSending tasks sessions].
    split; [exact Hidle|]. split; [exact Hlen|].
    apply (Forall_updateChat (sessionOk (tasks st))); [exact Hall|..].
    + intros s [Hnd Hp] _. split.
      * cbn. now apply NoDup_map_filter.
      * cbn. intros m Hm E. apply filter_In in Hm as [Hm _]. now apply Hp.
    + auto.
  - intros id Hin. unfold messageIds, update, set_sessions in Hin.
    cbn [sessions] in Hin. apply in_flat_map in Hin as [s' [Hs' Hid]].
    unfold updateChat in Hs'. apply in_map_iff in Hs' as [s [E Hs]].
    unfold messageIds. apply in_flat_map. exists s. split; [exact Hs|].
    destruct (streq (ses_id s) cid); subst s'; [|exact Hid].
    cbn in Hid. apply in_map_iff in Hid as [m [<- Hm]].
    apply filter_In in Hm as [Hm _]. now apply in_map.
Qed.

(** The one call in flight, found by its id. *)
Lemma the_task st id t :
  (length (tasks st) <= 1)%nat -> findTask id st = Some t ->
  tasks st = [t] /\ task_modelMessageId t = id.
Proof.
  unfold findTask. intros Hlen Hf. apply find_some in Hf as [Hin Hs].
  unfold sameTask in Hs. apply streq_eq in Hs.
  destruct (tasks st) as [|t0 [|t1 ts]].
  - contradiction.
  - destruct Hin as [->|[]]. now split.
  - simpl in Hlen. lia.
Qed.

Lemma singleFlight_finish st t p :
  singleFlight st -> tasks st = [t] ->
  (forall s, sessionOk [t] s -> streq (ses_id s) (task_chatId t) = true ->
             sessionOk [] (applyPatch p s)) ->
  singleFlight (finish t (update (task_chatId t) p st)).
Proof.
  intros [_ [_ Hall]] Ht Hp. rewrite Ht in Hall.
  unfold singleFlight, finish, update, set_tasks, setIsSending, set_sessions.
  cbn [isSending tasks sessions]. rewrite Ht. cbn [filter].
  unfold sameTask. rewrite streq_refl. cbn [negb].
  split; [reflexivity|]. split; [simpl; lia|].
  apply (Forall_updateChat (sessionOk [t])); [exact Hall|exact Hp|].
  intros s [Hnd Hpend] E. apply sessionOk_quiet. split; [exact Hnd|].
  intros m Hm. destruct (is_pending m) eqn:Em; [|reflexivity].
  destruct (Hpend m Hm Em) as [t0 [Ht0 [_ Hc]]]. injection Ht0 as <-.
  rewrite Hc, streq_refl in E. discriminate.
Qed.

Lemma map_ids_same (f : ChatMessage -> ChatMessage) l :
  (forall m, msg_id (f m) = msg_id m) -> map msg_id (map f l) = map msg_id l.
Proof. intros H. rewrite map_map. apply map_ext. exact H. Qed.

(** Every event keeps the discipline. *)
Lemma singleFlight_step st e st' :
  singleFlight st -> disciplined st e -> step st e = Some st' ->
  singleFlight st'.
Proof.
  intros Hsf [Hguard Hfresh] Hstep.
  destruct e as [s|f|env|env q|env id|env| |env iso url prompt|id title
                 |id|id|id text|id text g h now|id]; cbn [step] in Hstep.
  - injection Hstep as <-. now apply (singleFlight_fields st).
  - injection Hstep as <-. now apply (singleFlight_fields st).
  - injection Hstep as <-. destruct (isSending st) eqn:Hs; [exact Hsf|].
    destruct (Hfresh env eq_refl) as [Hu [Hm Hne]].
    exact (singleFlight_send st env _ _ None Hsf Hs Hm (fun _ => Hu) Hne).
  - injection Hstep as <-. destruct (Hfresh env eq_refl) as [Hu [Hm Hne]].
    exact (singleFlight_send st env _ _ None Hsf (Hguard eq_refl) Hm
             (fun _ => Hu) Hne).
  - injection Hstep as <-. destruct (Hfresh env eq_refl) as [Hu [Hm Hne]].
    unfold handleRetry. destruct (currentSession st) as [s|] eqn:Hcs; [|exact Hsf].
    destruct (find _ (ses_messages s)) as [m|] eqn:Hfind; [|exact Hsf].
    apply find_some in Hfind as [Hin Hid]. apply streq_eq in Hid.
    apply (singleFlight_send st env _ _ (Some id) Hsf (Hguard eq_refl) Hm).
    + intros _. exact Hu.
    + unfold retriedId. destruct (truthy id); cbn [from_option]; [|exact Hne].
      intros E. apply Hm. rewrite <- E, <- Hid.
      apply (messageIds_session st s m); [|exact Hin].
      now apply currentSession_member.
  - injection Hstep as <-. destruct (Hfresh env eq_refl) as [Hu [Hm Hne]].
    unfold handleRegenerate. destruct (currentSession st) as [s|]; [|exact Hsf].
    destruct (isSending st) eqn:Hs; [exact Hsf|].
    destruct (lastUser (ses_messages s)) as [u|]; [|exact Hsf].
    destruct (last _ None) as [lastId|]; [|exact Hsf].
    destruct (singleFlight_filter st (ses_id s)
                (fun m => negb (role_eqb (msg_role m) model)
                          || negb (streq (msg_id m) lastId)) Hsf)
      as [Hsf' Hids].
    apply (singleFlight_send _ env _ _ None Hsf' Hs); auto.
  - injection Hstep as <-. now apply (singleFlight_fields st).
  - destruct (cameraModalOpen st); [|discriminate]. injection Hstep as <-.
    destruct (Hfresh env eq_refl) as [Hu [Hm Hne]].
    unfold handleSendFromCamera.
    apply (singleFlight_fields
             (handleSendMessage env prompt
                (Has {| file_name := str "capture_" ++ iso ++ str ".jpg";
                        file_type := str "image/jpeg";
                        file_dataUrl := url |}) None st)); try reflexivity.
    exact (singleFlight_send st env _ _ None Hsf (Hguard eq_refl) Hm
             (fun _ => Hu) Hne).
  - injection Hstep as <-. destruct Hsf as [Hidle [Hlen Hall]].
    unfold singleFlight, handleUpdateTitle, update, set_sessions.
    cbn [isSending tasks sessions]. split; [exact Hidle|]. split; [exact Hlen|].
    apply (Forall_updateChat (sessionOk (tasks st))); auto.
  - destruct (findTask id st) as [t|] eqn:Hf; [|discriminate].
    destruct (atPhase AwaitStartChat t); [|discriminate]. injection Hstep as <-.
    destruct Hsf as [Hidle [Hlen Hall]].
    destruct (the_task st id t Hlen Hf) as [Ht Hid].
    unfold singleFlight, set_tasks. cbn [isSending tasks sessions].
    rewrite Ht in *. cbn [map]. unfold sameTask. rewrite Hid, streq_refl.
    split; [intros Hs; now specialize (Hidle Hs)|]. split; [simpl; lia|].
    apply (Forall_impl _ (P := sessionOk [t])); [|exact Hall].
    intros s [Hnd Hp]. split; [exact Hnd|]. intros m Hm E.
    destruct (Hp m Hm E) as [t0 [Ht0 [A B]]]. injection Ht0 as <-.
    eexists. split; [reflexivity|]. now split.
  - destruct (findTask id st) as [t|] eqn:Hf; [|discriminate].
    destruct (atPhase AwaitStartChat t); [|discriminate]. injection Hstep as <-.
    destruct (the_task st id t (proj1 (proj2 Hsf)) Hf) as [Ht Hid].
    unfold onRejected. apply singleFlight_finish; [exact Hsf|exact Ht|].
    intros s [Hnd Hp] _. apply sessionOk_quiet.
    cbn [applyPatch messagesPatch patch_messages ses_messages]. split.
    + unfold failureUpdate, dropId. apply (NoDup_map_filter msg_id).
      rewrite map_ids_same;
        [exact Hnd|intros m0; cbv beta; now destruct (streq _ _)].
    + intros m Hm. unfold failureUpdate, dropId in Hm.
      apply filter_In in Hm as [Hm Hkeep]. apply in_map_iff in Hm as [m0 [E Hm0]].
      destruct (streq (msg_id m0) (task_userMessageId t)); subst m; [reflexivity|].
      destruct (is_pending m0) eqn:Em; [|reflexivity].
      destruct (Hp m0 Hm0 Em) as [t0 [Ht0 [A _]]]. injection Ht0 as <-.
      rewrite A, streq_refl in Hkeep. discriminate.
  - destruct (findTask id st) as [t|] eqn:Hf; [|discriminate].
    destruct (atPhase AwaitSendMessage t); [|discriminate]. injection Hstep as <-.
    destruct Hsf as [Hidle [Hlen Hall]].
    destruct (the_task st id t Hlen Hf) as [Ht Hid].
    unfold singleFlight, handleStreamChunk, update, set_sessions.
    cbn [isSending tasks sessions]. split; [exact Hidle|]. split; [exact Hlen|].
    rewrite Ht in *.
    apply (Forall_updateChat (sessionOk [t])); [exact Hall| |auto].
    intros s [Hnd Hp] E. apply streq_eq in E. unfold sessionOk.
    cbn [applyPatch messagesPatch patch_messages ses_messages]. split.
    + unfold streamChunkUpdate.
      rewrite map_ids_same;
        [exact Hnd|intros m0; cbv beta; now destruct (streq _ _)].
    + cbn [ses_id]. intros m Hm Em. unfold streamChunkUpdate in Hm.
      apply in_map_iff in Hm as [m0 [Eq Hm0]].
      destruct (streq (msg_id m0) (task_modelMessageId t)) eqn:Es; subst m.
      * apply streq_eq in Es. exists t. cbn [with_text_status msg_id]. auto.
      * now apply Hp.
  - destruct (findTask id st) as [t|] eqn:Hf; [|discriminate].
    destruct (atPhase AwaitSendMessage t); [|discriminate]. injection Hstep as <-.
    destruct (the_task st id t (proj1 (proj2 Hsf)) Hf) as [Ht Hid].
    unfold onResolved. apply singleFlight_finish; [exact Hsf|exact Ht|].
    intros s [Hnd Hp] _. apply sessionOk_quiet.
    cbn [applyPatch patch_messages ses_messages]. split.
    + unfold completionUpdate.
      rewrite map_ids_same;
        [exact Hnd|intros m0; cbv beta; now destruct (streq _ _)].
    + intros m Hm. unfold completionUpdate in Hm.
      apply in_map_iff in Hm as [m0 [E Hm0]].
      destruct (streq (msg_id m0) (task_modelMessageId t)) eqn:Es; subst m;
        [reflexivity|].
      destruct (is_pending m0) eqn:Em; [|reflexivity].
      destruct (Hp m0 Hm0 Em) as [t0 [Ht0 [A _]]]. injection Ht0 as <-.
      rewrite A, streq_refl in Es. discriminate.
  - destruct (findTask id st) as [t|] eqn:Hf; [|discriminate].
    destruct (atPhase AwaitSendMessage t); [|discriminate]. injection Hstep as <-.
    destruct (the_task st id t (proj1 (proj2 Hsf)) Hf) as [Ht Hid].
    unfold onRejected. apply singleFlight_finish; [exact Hsf|exact Ht|].
    intros s [Hnd Hp] _. apply sessionOk_quiet.
    cbn [applyPatch messagesPatch patch_messages ses_messages]. split.
    + unfold failureUpdate, dropId. apply (NoDup_map_filter msg_id).
      rewrite map_ids_same;
        [exact Hnd|intros m0; cbv beta; now destruct (streq _ _)].
    + intros m Hm. unfold failureUpdate, dropId in Hm.
      apply filter_In in Hm as [Hm Hkeep]. apply in_map_iff in Hm as [m0 [E Hm0]].
      destruct (streq (msg_id m0) (task_userMessageId t)); subst m; [reflexivity|].
      destruct (is_pending m0) eqn:Em; [|reflexivity].
      destruct (Hp m0 Hm0 Em) as [t0 [Ht0 [A _]]]. injection Ht0 as <-.
      rewrite A, streq_refl in Hkeep. discriminate.
Qed.

(** X8.  With the discipline kept, single flight holds in every state
    that is reached: at most one message of a session is pending, and a
    pending message is the placeholder of the call in flight for that
    chat. *)
Lemma disciplined_runs_are_single_flight st0 st :
  singleFlight st0 -> reaches st0 st ->
  singleFlight st /\
  forall s, In s (sessions st) ->
    (length (filter is_pending (ses_messages s)) <= 1)%nat /\
    forall m, In m (ses_messages s) -> is_pending m = true ->
      exists t, findTask (msg_id m) st = Some t /\ task_chatId t = ses_id s.
Proof.
  intros H0 Hr.
  assert (Hsf : singleFlight st).
  { induction Hr as [|st e st' _ IH Hd Hstep]; [exact H0|].
    exact (singleFlight_step st e st' IH Hd Hstep). }
  split; [exact Hsf|]. intros s Hs.
  destruct Hsf as [_ [_ Hall]]. rewrite Forall_forall in Hall.
  specialize (Hall s Hs). split; [exact (sessionOk_pending _ _ Hall)|].
  intros m Hm E. destruct Hall as [_ Hp].
  destruct (Hp m Hm E) as [t [Ht [Hid Hc]]]. exists t. split; [|now symmetry].
  unfold findTask. rewrite Ht. cbn [find]. unfold sameTask.
  now rewrite Hid, streq_refl.
Qed.

Lemma idle_is_single_flight : singleFlight Scenario.idle.
Proof.
  unfold singleFlight. split; [reflexivity|]. split; [simpl; lia|].
  repeat constructor. intros m [].
Qed.

End SingleFlightFacts.

(** ** The life cycle of a send *)

Section LifecycleFacts.
Import JS Chat App AppSpec SendSpec.

(** *** Nothing to send *)

Lemma trimStart_blank s : forallb is_whitespace s = true -> trimStart s = [].
Proof.
  induction s as [|c s IH]; simpl; [reflexivity|].
  intros H. apply andb_true_iff in H as [Hc Hs]. rewrite Hc. now apply IH.
Qed.

Lemma trimStart_head s c t : trimStart s = c :: t -> is_whitespace c = false.
Proof.
  induction s as [|a s IH]; simpl; [discriminate|].
  destruct (is_whitespace a) eqn:E; [exact IH|].
  intros H. injection H as <- _. exact E.
Qed.

Lemma trimStart_nil s : trimStart s = [] -> forallb is_whitespace s = true.
Proof.
  induction s as [|a s IH]; simpl; [reflexivity|].
  destruct (is_whitespace a); [exact IH|discriminate].
Qed.

Lemma forallb_rev {A} (p : A -> bool) l : forallb p (rev l) = forallb p l.
Proof.
  induction l as [|a l IH]; simpl; [reflexivity|].
  rewrite forallb_app, IH. simpl. rewrite andb_true_r. apply andb_comm.
Qed.

Lemma trim_blank s : trim s = [] <-> forallb is_whitespace s = true.
Proof.
  unfold trim. split.
  - intros H. apply (f_equal (@rev N)) in H. rewrite rev_involutive in H.
    simpl in H. apply trimStart_nil in H. rewrite forallb_rev in H.
    apply trimStart_nil. destruct (trimStart s) as [|c t] eqn:E; [reflexivity|].
    apply trimStart_head in E. simpl in H. rewrite E in H. discriminate.
  - intros H. now rewrite (trimStart_blank s H).
Qed.

Lemma nothingToSend_blank text f :
  nothingToSend text f = true
  <-> forallb is_whitespace text = true /\ present f = false.
Proof.
  unfold nothingToSend. rewrite andb_true_iff, !negb_true_iff.
  rewrite <- trim_blank. split; intros [H1 H2]; split; auto.
  - now destruct (trim text).
  - now rewrite H1.
Qed.

Lemma snoc_neq {A} (l : list A) x : l ++ [x] <> l.
Proof.
  intros H. apply (f_equal (@length A)) in H. rewrite length_app in H.
  simpl in H. lia.
Qed.

(** X1.  In a selected chat [handleSendMessage] leaves the component as
    it is exactly when there is nothing to send: no file, and a text
    that holds nothing but white space. *)
Theorem send_is_noop_iff_blank st env text f rid cid s :
  currentChatId st = Some cid -> truthy cid = true ->
  currentSession st = Some s ->
  (handleSendMessage env text f rid st = st
   <-> forallb is_whitespace text = true /\ present f = false).
Proof.
  intros Hc Ht Hs. rewrite <- nothingToSend_blank. split.
  - intros H. destruct (nothingToSend text f) eqn:Hn; [reflexivity|].
    rewrite (handleSendMessage_sent env text f rid st cid s Hc Ht Hs Hn) in H.
    apply (f_equal tasks) in H. cbn [tasks] in H.
    now apply snoc_neq in H.
  - intros Hn. unfold handleSendMessage. now rewrite Hc, Hs, Hn.
Qed.

Lemma send_is_noop_iff_blank_witness :
  handleSendMessage Scenario.env1 (str "   ") Null None Scenario.idle
  = Scenario.idle.
Proof.
  apply (send_is_noop_iff_blank Scenario.idle Scenario.env1 (str "   ") Null
           None Scenario.chat1 Scenario.emptySession);
    try reflexivity.
  split; reflexivity.
Defined.

(** *** The state a send leaves behind *)

Lemma currentSession_landed st cid p s :
  currentChatId st = Some cid -> currentSession st = Some s ->
  currentSession (landed st cid p) = Some (applyPatch p s).
Proof.
  intros Hc Hs. unfold currentSession, landed. cbn [currentChatId sessions].
  unfold currentSession in Hs. rewrite Hc in Hs.
  now rewrite findSession_updateChat, Hs.
Qed.

Lemma othersUntouched_updateChat cid p ss :
  othersUntouched cid ss (updateChat cid p ss).
Proof.
  unfold othersUntouched, updateChat. split; [apply length_map|].
  intros i s Hi Hne. rewrite nth_error_map, Hi. cbn [option_map].
  now rewrite (streq_neq _ _ Hne).
Qed.

Lemma run_completing st cid F t cs final g h now :
  findTask (task_modelMessageId t) st = None -> task_chatId t = cid ->
  task_phase t = AwaitStartChat ->
  run (flying st cid F t)
      (completingRun (task_modelMessageId t) cs final g h now)
  = Some (landed st cid
            {| patch_title := None; patch_history := Some h;
               patch_messages :=
                 Some (fun prev =>
                         completionUpdate (task_modelMessageId t) final now g
                           (streamed (task_modelMessageId t) cs (F prev))) |}).
Proof.
  intros Hn Hc Hp. unfold completingRun.
  rewrite run_streaming by auto. cbn [run].
  now rewrite (step_resolved st cid _ (set_phase AwaitSendMessage t)
                 final g h now) by auto.
Qed.

Lemma sentUser_id env text f rid :
  msg_id (sentUser env text f rid) = from_option (retriedId rid) (uuid_user env).
Proof. reflexivity. Qed.


Lemma send_lands_completed st env text f rid cid s cs final g h now :
  currentChatId st = Some cid -> truthy cid = true ->
  currentSession st = Some s ->
  nothingToSend text f = false ->
  fresh (uuid_model env) (ses_messages s) ->
  from_option (retriedId rid) (uuid_user env) <> uuid_model env ->
  findTask (uuid_model env) st = None ->
  exists p,
    run (handleSendMessage env text f rid st)
        (completingRun (uuid_model env) cs final g h now)
    = Some (landed st cid p) /\
    applyPatch p s
    = {| ses_id := ses_id s; ses_title := ses_title s;
         ses_messages :=
           sentBase rid (ses_messages s)
           ++ [sentUser env text f rid;
               completed final now g
                 (newModelMessage (uuid_model env) (now_model env))];
         ses_history := h; ses_createdAt := ses_createdAt s |}.
Proof.
  intros Hc Ht Hs Hn Hfm Hne Hnt.
  rewrite (handleSendMessage_flying env text f rid st cid s Hc Ht Hs Hn).
  change (uuid_model env)
    with (task_modelMessageId (sentTask env cid text f rid s)) at 1.
  rewrite run_completing by (auto; reflexivity).
  eexists. split; [reflexivity|].
  unfold applyPatch. cbn [patch_title patch_history patch_messages from_option
    sentTask task_modelMessageId]. f_equal.
  unfold sentMessages. fold (sentBase rid (ses_messages s)).
  fold (sentUser env text f rid).
  rewrite streamed_tail by (auto using sentBase_fresh).
  rewrite completionUpdate_tail
    by (auto using sentBase_fresh; now destruct cs).
  now destruct cs.
Qed.






(** *** A failed send and its retry *)






(** *** The flag and the calls in flight *)

Lemma find_filter_same {A} (p q : A -> bool) l :
  (forall x, p x = true -> q x = true) -> find p (filter q l) = find p l.
Proof.
  intros H. induction l as [|a l IH]; simpl; [reflexivity|].
  destruct (q a) eqn:Eq; simpl.
  - now rewrite IH.
  - destruct (p a) eqn:Ep; [|exact IH]. rewrite (H a Ep) in Eq. discriminate.
Qed.

Lemma findTask_finish other t p st :
  other <> task_modelMessageId t ->
  findTask other (finish t (update (task_chatId t) p st)) = findTask other st.
Proof.
  intros Hne. unfold findTask, finish. cbn [tasks set_tasks setIsSending update
    set_sessions].
  apply find_filter_same. intros x Hx. unfold sameTask in *.
  apply streq_eq in Hx. rewrite Hx. now rewrite (streq_neq _ _ Hne).
Qed.

(** X5.  [isSending] is a flag, not a count: when a call ends, by
    success or by failure, the flag is false from then on, also while
    another call is still in flight, and that other call stays
    suspended as it was. *)
Theorem flag_drops_while_call_in_flight st e st' id other t :
  step st e = Some st' -> finishes e = Some id ->
  other <> id -> findTask other st = Some t ->
  isSending st' = false /\ findTask other st' = Some t.
Proof.
  intros Hstep Hfin Hne Ht.
  destruct e; try discriminate; cbn [finishes] in Hfin; injection Hfin as ->;
    cbn [step] in Hstep;
    (destruct (findTask id st) as [t0|] eqn:Hf; [|discriminate]);
    (destruct (atPhase _ t0); [|discriminate]); injection Hstep as <-;
    unfold findTask in Hf; apply find_some in Hf as [_ Hid];
    unfold sameTask in Hid; apply streq_eq in Hid; subst id;
    (split; [reflexivity|]); unfold onRejected, onResolved;
    now rewrite findTask_finish.
Qed.

Lemma flag_drops_while_call_in_flight_witness :
  exists st',
    step Overlap.twoInFlight (StartChatRejected (str "m-1")) = Some st' /\
    isSending st' = false /\
    findTask (str "m-2") st' = Some Overlap.cameraTask.
Proof.
  eexists. split; [vm_compute; reflexivity|].
  apply (flag_drops_while_call_in_flight Overlap.twoInFlight
           (StartChatRejected (str "m-1")) _ (str "m-1") (str "m-2")
           Overlap.cameraTask);
    first [vm_compute; reflexivity | discriminate].
Defined.

(** *** Retry and regenerate with nothing to act on *)

(** X9.  [handleRetry] with an id that no message of the current session
    carries, or with no chat selected, does nothing. *)
Theorem retry_of_unknown_message_is_noop st env id :
  ~ In id (map msg_id (shownMessages st)) -> handleRetry env id st = st.
Proof.
  unfold shownMessages, handleRetry. destruct (currentSession st) as [s|];
    [|reflexivity].
  intros Hf. destruct (find _ (ses_messages s)) as [m|] eqn:E; [|reflexivity].
  apply find_some in E as [Hin Hid]. apply streq_eq in Hid.
  exfalso. apply Hf. rewrite <- Hid. now apply in_map.
Qed.

Lemma retry_of_unknown_message_is_noop_witness :
  handleRetry Scenario.env2 (str "u-7") Scenario.afterFailure
  = Scenario.afterFailure.
Proof.
  apply (retry_of_unknown_message_is_noop Scenario.afterFailure Scenario.env2
           (str "u-7")).
  intros [H|[]]. discriminate.
Defined.

Lemma find_none_filter {A} (p : A -> bool) l : filter p l = [] -> find p l = None.
Proof.
  induction l as [|a l IH]; simpl; [reflexivity|].
  destruct (p a); [discriminate|exact IH].
Qed.

Lemma filter_rev_nil {A} (p : A -> bool) l : filter p l = [] -> filter p (rev l) = [].
Proof.
  intros H. apply filter_none. intros x Hx. apply in_rev in Hx.
  destruct (p x) eqn:E; [|reflexivity].
  assert (Hin : In x (filter p l)) by (apply filter_In; now split).
  rewrite H in Hin. contradiction.
Qed.

(** X10.  [handleRegenerate] does nothing while a send is in flight, and
    nothing when the current session holds no user message, which is
    also the case when no chat is selected. *)
Theorem regenerate_needs_a_user_message st env :
  isSending st = true \/ filter isUser (shownMessages st) = [] ->
  handleRegenerate env st = st.
Proof.
  unfold shownMessages, handleRegenerate.
  destruct (currentSession st) as [s|]; [|reflexivity].
  intros [H|H]; [now rewrite H|].
  destruct (isSending st); [reflexivity|].
  unfold lastUser. fold isUser.
  now rewrite (find_none_filter _ _ (filter_rev_nil _ _ H)).
Qed.

Lemma regenerate_needs_a_user_message_witness :
  handleRegenerate Scenario.env2 Scenario.inFlight = Scenario.inFlight /\
  handleRegenerate Scenario.env1 Scenario.idle = Scenario.idle.
Proof.
  split.
  - apply (regenerate_needs_a_user_message Scenario.inFlight Scenario.env2).
    left. reflexivity.
  - apply (regenerate_needs_a_user_message Scenario.idle Scenario.env1).
    right. reflexivity.
Defined.

(** *** A capture sent from the camera dialog *)



(** *** From one turn to the next *)

Lemma findTask_landed id st cid p : findTask id (landed st cid p) = findTask id st.
Proof. reflexivity. Qed.

(** X25.  The context threads through the turns: the history that the
    remote chat hands back when a send succeeds is the history with
    which the next send of that chat opens its remote chat. *)
Theorem next_send_starts_from_returned_history
    st env env' text f rid text' f' cid s cs final g h now :
  currentChatId st = Some cid -> truthy cid = true ->
  currentSession st = Some s ->
  nothingToSend text f = false ->
  fresh (uuid_model env) (ses_messages s) ->
  from_option (retriedId rid) (uuid_user env) <> uuid_model env ->
  findTask (uuid_model env) st = None ->
  nothingToSend text' f' = false ->
  findTask (uuid_model env') st = None ->
  exists st1 t,
    run (handleSendMessage env text f rid st)
        (completingRun (uuid_model env) cs final g h now) = Some st1 /\
    findTask (uuid_model env') (handleSendMessage env' text' f' None st1)
    = Some t /\
    task_history t = h /\ task_chatId t = cid /\
    task_messageText t = text' /\ task_messageFile t = f' /\
    task_phase t = AwaitStartChat.
Proof.
  intros Hc Ht Hs Hn Hfm Hne Hnt Hn' Hnt'.
  destruct (send_lands_completed st env text f rid cid s cs final g h now
              Hc Ht Hs Hn Hfm Hne Hnt) as [p [Hrun Hp]].
  set (st1 := landed st cid p) in *.
  assert (Hc1 : currentChatId st1 = Some cid) by reflexivity.
  assert (Hs1 : currentSession st1 = Some (applyPatch p s))
    by exact (currentSession_landed _ _ _ s Hc Hs).
  exists st1, (sentTask env' cid text' f' None (applyPatch p s)).
  split; [exact Hrun|]. split.
  - rewrite (handleSendMessage_flying env' text' f' None st1 cid _ Hc1 Ht Hs1 Hn').
    change (uuid_model env')
      with (task_modelMessageId
              (sentTask env' cid text' f' None (applyPatch p s))) at 1.
    apply findTask_flying. exact Hnt'.
  - cbn [sentTask task_history task_chatId task_messageText task_messageFile
      task_phase]. rewrite Hp. repeat split.
Qed.

Lemma next_send_starts_from_returned_history_witness :
  exists st1 t,
    run (handleSendMessage Scenario.env1 Scenario.muraho Null None Scenario.idle)
        (completingRun (str "m-1") [str "Mu"] (str "Muraho neza") None
           [JSON.JStr (str "ctx")] 1700000000900) = Some st1 /\
    findTask (str "m-2")
      (handleSendMessage Scenario.env2 (str "Amakuru?") Null None st1)
    = Some t /\
    task_history t = [JSON.JStr (str "ctx")] /\ task_chatId t = Scenario.chat1 /\
    task_messageText t = str "Amakuru?" /\ task_messageFile t = Null /\
    task_phase t = AwaitStartChat.
Proof.
  apply (next_send_starts_from_returned_history Scenario.idle Scenario.env1
           Scenario.env2 Scenario.muraho Null None (str "Amakuru?") Null
           Scenario.chat1 Scenario.emptySession [str "Mu"] (str "Muraho neza")
           None [JSON.JStr (str "ctx")] 1700000000900);
    first [reflexivity | discriminate | intros []].
Defined.



(** *** Answers of the remote service *)

Lemma othersUntouched_refl cid ss : othersUntouched cid ss ss.
Proof. split; auto. Qed.

(** X6.  An answer of the remote service goes to the chat the message
    was sent from, whichever chat is selected when it arrives: the
    selection stays as it is, the session of the send is the only one
    that can change, it keeps its id and its creation time, and it keeps
    its title. *)
Theorem reply_lands_in_its_chat st e st' id t :
  step st e = Some st' -> answers e = Some id -> findTask id st = Some t ->
  currentChatId st' = currentChatId st /\
  othersUntouched (task_chatId t) (sessions st) (sessions st') /\
  forall i s, nth_error (sessions st) i = Some s ->
    exists s', nth_error (sessions st') i = Some s' /\
               ses_id s' = ses_id s /\ ses_title s' = ses_title s /\
               ses_createdAt s' = ses_createdAt s.
Proof.
  intros Hstep Ha Ht.
  assert (Hupd : forall p, patch_title p = None ->
            forall i s, nth_error (sessions st) i = Some s ->
            exists s', nth_error (updateChat (task_chatId t) p (sessions st)) i
                       = Some s' /\
                       ses_id s' = ses_id s /\ ses_title s' = ses_title s /\
                       ses_createdAt s' = ses_createdAt s).
  { intros p Hp i s Hi. unfold updateChat. rewrite nth_error_map, Hi.
    cbn [option_map]. eexists. split; [reflexivity|].
    destruct (streq (ses_id s) (task_chatId t)); [|auto].
    unfold applyPatch. cbn [ses_id ses_title ses_createdAt]. now rewrite Hp. }
  destruct e; try discriminate; cbn [answers] in Ha; injection Ha as ->;
    cbn [step] in Hstep; rewrite Ht in Hstep;
    (destruct (atPhase _ t); [|discriminate]); injection Hstep as <-.
  - split; [reflexivity|]. split; [apply othersUntouched_refl|]. eauto.
  - split; [reflexivity|]. split; [apply othersUntouched_updateChat|].
    now apply Hupd.
  - split; [reflexivity|]. split; [apply othersUntouched_updateChat|].
    now apply Hupd.
  - split; [reflexivity|]. split; [apply othersUntouched_updateChat|].
    now apply Hupd.
  - split; [reflexivity|]. split; [apply othersUntouched_updateChat|].
    now apply Hupd.
Qed.

Lemma reply_lands_in_its_chat_witness :
  exists st',
    step Overlap.switched
      (SendMessageResolved (str "m-1") (str "Muraho neza") None [] 1700000000900)
    = Some st' /\
    currentChatId st' = Some Overlap.chat2 /\
    nth_error (sessions st') 1 = Some Overlap.otherSession /\
    option_map (fun s => map msg_text (ses_messages s)) (nth_error (sessions st') 0)
    = Some [Scenario.muraho; str "Muraho neza"].
Proof.
  eexists. split; [vm_compute; reflexivity|].
  destruct (reply_lands_in_its_chat Overlap.switched
              (SendMessageResolved (str "m-1") (str "Muraho neza") None []
                 1700000000900) _ (str "m-1")
              (set_phase AwaitSendMessage Scenario.murahoTask)
              eq_refl eq_refl eq_refl) as [Hc [[_ Ho] _]].
  split; [exact Hc|]. split; [|reflexivity].
  apply (Ho 1%nat Overlap.otherSession eq_refl). discriminate.
Defined.

(** The chunk "Mu" arrives while "Muraho" streams. *)
Lemma streamChunk_touches_placeholder_only_witness :
  let st' := handleStreamChunk (set_phase AwaitSendMessage Scenario.murahoTask)
               (str "Mu") Overlap.streaming in
  tasks st' = tasks Overlap.streaming /\
  isSending st' = isSending Overlap.streaming /\
  forall i s, nth_error (sessions Overlap.streaming) i = Some s ->
    exists s',
      nth_error (sessions st') i = Some s' /\ ses_id s' = ses_id s /\
      length (ses_messages s') = length (ses_messages s) /\
      forall j m, nth_error (ses_messages s) j = Some m ->
                  streq (msg_id m) (str "m-1") = false ->
                  nth_error (ses_messages s') j = Some m.
Proof.
  apply (streamChunk_touches_placeholder_only Overlap.streaming (str "m-1")
           (str "Mu")).
  reflexivity.
Defined.

(** Typing "Muraho" and submitting it keeps the discipline. *)
Lemma disciplined_runs_are_single_flight_witness :
  singleFlight Scenario.inFlight /\
  forall s, In s (sessions Scenario.inFlight) ->
    (length (filter is_pending (ses_messages s)) <= 1)%nat /\
    forall m, In m (ses_messages s) -> is_pending m = true ->
      exists t, findTask (msg_id m) Scenario.inFlight = Some t
                /\ task_chatId t = ses_id s.
Proof.
  apply (disciplined_runs_are_single_flight Scenario.idle Scenario.inFlight).
  - exact idle_is_single_flight.
  - apply (reaches_step _ (setInput Scenario.muraho Scenario.idle)
             (ComposerSubmit Scenario.env1)).
    + apply (reaches_step _ Scenario.idle (TypeInput Scenario.muraho)).
      * apply reaches_start.
      * split; [discriminate|]. intros env H. discriminate.
      * reflexivity.
    + split; [discriminate|]. intros env H. injection H as <-.
      split; [intros []|]. split; [intros []|discriminate].
    + vm_compute. reflexivity.
Defined.

End LifecycleFacts.

(** ** The operations of the history hook *)

Section HookFacts.
Import JS JSON History HookSpec.

Lemma find_snoc {A} (p : A -> bool) l x :
  find p (l ++ [x])
  = match find p l with Some a => Some a | None => find p [x] end.
Proof.
  induction l as [|a l IH]; [simpl; now destruct (p x)|].
  simpl. destruct (p a); [reflexivity|exact IH].
Qed.

Lemma find_absent (sid : jsstring) l :
  ~ In sid (map s_id l) -> find (fun s => streq (s_id s) sid) l = None.
Proof.
  intros H. induction l as [|a l IH]; simpl; [reflexivity|].
  rewrite streq_neq.
  - apply IH. intros Hin. apply H. now right.
  - intros E. apply H. now left.
Qed.

Lemma sessionId_truthy t r : truthy (sessionId t r) = true.
Proof. reflexivity. Qed.

(** X12.  [createSession] returns the id of the session it appends,
    makes that id the current one and leaves the sessions in front as
    they are; a lookup that found a session before finds the same one
    after.  The current session is then the new, empty one, unless an
    older session carries the same id: the lookup finds the older one
    first. *)
Theorem createSession_selects_new_session env k j st :
  let id := sessionId (now env k) (random env j) in
  let st' := snd (createSession env k j st) in
  fst (createSession env k j st) = id /\
  sessions st' = sessions st ++ [createdSession env k j] /\
  currentSessionId st' = Some id /\
  getCurrentSession st'
  = Some (match getSession id st with
          | Some older => older
          | None => createdSession env k j
          end) /\
  (forall id' s, getSession id' st = Some s -> getSession id' st' = Some s).
Proof.
  intros id st'. subst id st'. unfold createSession. cbn [fst snd sessions
    currentSessionId s_id]. fold (createdSession env k j).
  split; [reflexivity|]. split; [reflexivity|]. split; [reflexivity|]. split.
  - unfold getCurrentSession. cbn [currentSessionId].
    rewrite sessionId_truthy. unfold getSession. cbn [sessions].
    rewrite find_snoc. destruct (find _ (sessions st)); [reflexivity|].
    cbn [find createdSession s_id]. now rewrite streq_refl.
  - intros id' s H. unfold getSession in *. cbn [sessions].
    now rewrite find_snoc, H.
Qed.

Lemma createSession_selects_new_session_witness :
  let env := {| now := fun n => (1700000000000 + Z.of_nat n)%Z;
                random := fun _ => str "k3x9q2mzp" |} in
  let one := {| s_id := str "session_1_a"; s_messages := [];
                s_createdAt := 1; s_updatedAt := 1 |} in
  let st := {| sessions := [one]; currentSessionId := None |} in
  getCurrentSession (snd (createSession env 0 0 st))
  = Some {| s_id := str "session_1700000000000_k3x9q2mzp"; s_messages := [];
            s_createdAt := 1700000000001; s_updatedAt := 1700000000002 |} /\
  getSession (str "session_1_a") (snd (createSession env 0 0 st)) = Some one.
Proof.
  intros env one st.
  destruct (createSession_selects_new_session env 0%nat 0%nat st)
    as [_ [_ [_ [Hcur Hold]]]].
  split; [exact Hcur|]. apply Hold. reflexivity.
Defined.

Lemma find_filter_out {A} (p : A -> bool) l :
  find p (filter (fun x => negb (p x)) l) = None.
Proof.
  induction l as [|a l IH]; simpl; [reflexivity|].
  destruct (p a) eqn:E; simpl; [exact IH|]. now rewrite E.
Qed.

Lemma getSession_deleteSession sid id' st :
  id' <> sid -> getSession id' (deleteSession sid st) = getSession id' st.
Proof.
  intros Hne. unfold getSession, deleteSession. cbn [sessions].
  apply find_filter_same. intros x Hx. apply streq_eq in Hx.
  rewrite Hx. now rewrite (streq_neq _ _ Hne).
Qed.

(** X13.  After [deleteSession] no lookup finds a session under the
    deleted id, and the lookups under every other id give what they gave
    before.  When the deleted id was the current one there is no current
    session any more; otherwise the selection and the current session
    are the old ones.  An id that no session carries leaves the list as
    it is. *)
Theorem deleteSession_forgets_session sid st :
  let st' := deleteSession sid st in
  getSession sid st' = None /\
  (forall id', id' <> sid -> getSession id' st' = getSession id' st) /\
  (currentSessionId st = Some sid ->
   currentSessionId st' = None /\ getCurrentSession st' = None) /\
  (currentSessionId st <> Some sid ->
   currentSessionId st' = currentSessionId st /\
   getCurrentSession st' = getCurrentSession st) /\
  (~ In sid (sessionIds st) -> sessions st' = sessions st).
Proof.
  intros st'. subst st'. split; [|split; [|split; [|split]]].
  - unfold getSession, deleteSession. cbn [sessions].
    apply (find_filter_out (fun s => streq (s_id s) sid)).
  - intros id' Hne. now apply getSession_deleteSession.
  - intros Hc. unfold getCurrentSession, deleteSession.
    cbn [currentSessionId]. rewrite Hc. cbn [optEq]. now rewrite streq_refl.
  - intros Hc.
    assert (Hk : currentSessionId (deleteSession sid st) = currentSessionId st).
    { unfold deleteSession. cbn [currentSessionId].
      destruct (currentSessionId st) as [c|]; cbn [optEq]; [|reflexivity].
      rewrite streq_neq; [reflexivity|]. intros E. apply Hc. now rewrite E. }
    split; [exact Hk|]. unfold getCurrentSession. rewrite Hk.
    destruct (currentSessionId st) as [c|]; [|reflexivity].
    destruct (truthy c); [|reflexivity].
    apply getSession_deleteSession. intros E. apply Hc. now rewrite E.
  - intros Hni. unfold deleteSession. cbn [sessions]. apply filter_all.
    intros s Hs. rewrite streq_neq; [reflexivity|].
    intros E. apply Hni. rewrite <- E. unfold sessionIds. now apply in_map.
Qed.

Lemma deleteSession_forgets_session_witness :
  let one := {| s_id := str "session_1_a"; s_messages := [];
                s_createdAt := 1; s_updatedAt := 1 |} in
  let two := {| s_id := str "session_2_b"; s_messages := [];
                s_createdAt := 2; s_updatedAt := 2 |} in
  let st := {| sessions := [one; two];
               currentSessionId := Some (str "session_2_b") |} in
  getCurrentSession (deleteSession (str "session_2_b") st) = None /\
  getCurrentSession (deleteSession (str "session_1_a") st) = Some two.
Proof.
  intros one two st. split.
  - apply (deleteSession_forgets_session (str "session_2_b") st). reflexivity.
  - apply (proj2 (proj1 (proj2 (proj2 (proj2
             (deleteSession_forgets_session (str "session_1_a") st))))
             ltac:(discriminate))).
Defined.

(** X14.  A session that was created under a new id and is deleted in a
    later render is gone without a trace in the list, which is the one
    from before the creation; nothing is selected then, whatever was
    selected before. *)
Theorem deleteSession_undoes_createSession env k j st :
  ~ In (sessionId (now env k) (random env j)) (sessionIds st) ->
  deleteSession (fst (createSession env k j st)) (snd (createSession env k j st))
  = {| sessions := sessions st; currentSessionId := None |}.
Proof.
  intros Hf. unfold createSession, deleteSession.
  cbn [fst snd sessions currentSessionId s_id optEq].
  rewrite streq_refl, filter_app. cbn [filter s_id]. rewrite streq_refl.
  cbn [negb]. rewrite app_nil_r. f_equal. apply filter_all.
  intros s Hs. rewrite streq_neq; [reflexivity|].
  intros E. apply Hf. rewrite <- E. unfold sessionIds. now apply in_map.
Qed.

Lemma deleteSession_undoes_createSession_witness :
  let env := {| now := fun n => (1700000000000 + Z.of_nat n)%Z;
                random := fun _ => str "k3x9q2mzp" |} in
  let one := {| s_id := str "session_1_a"; s_messages := [];
                s_createdAt := 1; s_updatedAt := 1 |} in
  let st := {| sessions := [one]; currentSessionId := Some (str "session_1_a") |} in
  deleteSession (str "session_1700000000000_k3x9q2mzp")
    (snd (createSession env 0 0 st))
  = {| sessions := [one]; currentSessionId := None |}.
Proof.
  intros env one st.
  apply (deleteSession_undoes_createSession env 0%nat 0%nat st).
  intros [H|[]]. vm_compute in H. discriminate.
Defined.

Lemma find_appendMessage env sid msg : forall prev k,
  find (fun s => streq (s_id s) sid) (appendMessage env k sid msg prev)
  = option_map (withMessage env k msg)
      (find (fun s => streq (s_id s) sid) prev).
Proof.
  induction prev as [|a prev IH]; intros k; [reflexivity|].
  simpl. destruct (streq (s_id a) sid) eqn:E; simpl; rewrite E;
    [reflexivity|apply IH].
Qed.

Lemma find_appendMessage_other env sid msg id' : id' <> sid -> forall prev k,
  find (fun s => streq (s_id s) id') (appendMessage env k sid msg prev)
  = find (fun s => streq (s_id s) id') prev.
Proof.
  intros Hne. induction prev as [|a prev IH]; intros k; [reflexivity|].
  simpl. destruct (streq (s_id a) sid) eqn:E; simpl.
  - apply streq_eq in E. rewrite E. rewrite (streq_neq sid id') by congruence.
    apply IH.
  - destruct (streq (s_id a) id'); [reflexivity|apply IH].
Qed.

(** X15.  After [addMessage] the lookup under the id finds the session
    it found before, with the new message at the end of its messages and
    [updatedAt] read from the clock after the time stamp of the message;
    where it found none it finds none.  The lookups under every other id
    give what they gave before, and so does the selection. *)
Theorem addMessage_is_found_by_lookup env k j sid message st :
  let st' := addMessage env k j sid message st in
  getSession sid st'
  = option_map (withMessage env (k + 2) (newMessage env k j message))
      (getSession sid st) /\
  (forall id', id' <> sid -> getSession id' st' = getSession id' st) /\
  currentSessionId st' = currentSessionId st.
Proof.
  intros st'. subst st'. unfold getSession, addMessage. cbn [sessions].
  split; [apply find_appendMessage|]. split; [|reflexivity].
  intros id' Hne. now apply find_appendMessage_other.
Qed.

Lemma addMessage_is_found_by_lookup_witness :
  let env := {| now := fun n => (1700000000000 + Z.of_nat n)%Z;
                random := fun _ => str "k3x9q2mzp" |} in
  let one := {| s_id := str "session_1_a"; s_messages := [];
                s_createdAt := 1; s_updatedAt := 1 |} in
  let two := {| s_id := str "session_2_b"; s_messages := [];
                s_createdAt := 2; s_updatedAt := 2 |} in
  let st := {| sessions := [one; two]; currentSessionId := None |} in
  let message := {| in_role := user; in_content := str "Muraho" |} in
  getSession (str "session_2_b")
    (addMessage env 0 0 (str "session_2_b") message st)
  = Some {| s_id := str "session_2_b";
            s_messages :=
              [{| m_id := str "msg_1700000000000_k3x9q2mzp"; m_role := user;
                  m_content := str "Muraho"; m_timestamp := 1700000000001 |}];
            s_createdAt := 2; s_updatedAt := 1700000000002 |} /\
  getSession (str "session_1_a")
    (addMessage env 0 0 (str "session_2_b") message st)
  = Some one.
Proof.
  intros env one two st message.
  destruct (addMessage_is_found_by_lookup env 0%nat 0%nat (str "session_2_b")
              message st) as [Hfound [Hother _]].
  split; [exact Hfound|]. apply Hother. discriminate.
Defined.

(** *** Invariants of the hook *)

Lemma sessionIds_addMessage env k j sid message st :
  sessionIds (addMessage env k j sid message st) = sessionIds st.
Proof.
  unfold sessionIds, addMessage. cbn [sessions]. generalize (k + 2)%nat.
  induction (sessions st) as [|a l IH]; intros n; [reflexivity|].
  simpl. destruct (streq (s_id a) sid); simpl; now rewrite IH.
Qed.





Lemma NoDup_snoc {A} (l : list A) x : NoDup l -> ~ In x l -> NoDup (l ++ [x]).
Proof.
  intros Hl Hx. apply NoDup_app; [exact Hl|repeat constructor; intros []|].
  intros a Ha [<-|[]]. contradiction.
Qed.

Lemma distinct_perform env st op :
  NoDup (sessionIds st) ->
  match op with
  | Create k j => ~ In (sessionId (now env k) (random env j)) (sessionIds st)
  | _ => True
  end ->
  NoDup (sessionIds (perform env st op)).
Proof.
  intros Hnd Hf. destruct op as [k j|k j sid message|sid|].
  - unfold sessionIds. cbn [perform createSession snd sessions s_id].
    rewrite map_app. now apply NoDup_snoc.
  - cbn [perform]. now rewrite sessionIds_addMessage.
  - unfold sessionIds. cbn [perform deleteSession sessions].
    now apply NoDup_map_filter.
  - constructor.
Qed.

(** X18.  The ids of the sessions stay distinct: when they are distinct
    and every [createSession] of a sequence of calls draws an id that no
    session carries at that moment, they are distinct after the
    sequence, so that a lookup by id names one session and [addMessage]
    reaches one session at most. *)
Theorem session_ids_stay_distinct env ops : forall st,
  NoDup (sessionIds st) -> createsFresh env st ops ->
  NoDup (sessionIds (performAll env ops st)).
Proof.
  induction ops as [|op ops IH]; intros st Hnd Hf; cbn [performAll fold_left];
    [exact Hnd|].
  destruct Hf as [Hop Hrest]. apply (IH (perform env st op)); [|exact Hrest].
  now apply distinct_perform.
Qed.

Lemma session_ids_stay_distinct_witness :
  let env := {| now := fun n => (1700000000000 + Z.of_nat n)%Z;
                random := fun n => [N.of_nat (97 + n)] |} in
  NoDup (sessionIds
           (performAll env
              [Create 0 0; Add 3 1 (str "session_1700000000000_a")
                             {| in_role := user; in_content := str "Muraho" |};
               Create 6 2; Delete (str "session_1700000000000_a")]
              {| sessions := []; currentSessionId := None |})).
Proof.
  intros env.
  apply (session_ids_stay_distinct env _
           {| sessions := []; currentSessionId := None |}).
  - constructor.
  - cbn [createsFresh]. split; [intros []|]. split; [exact I|].
    split; [|split; exact I].
    vm_compute. intros [H|[]]. discriminate.
Defined.

(** *** The ids that the hook hands out *)

Lemma uintText_digits d : forallb isDigit (uintText d) = true.
Proof. induction d; simpl; auto. Qed.

Lemma uintText_inj : forall d d', uintText d = uintText d' -> d = d'.
Proof.
  induction d; destruct d'; simpl; intros H; try discriminate;
    try reflexivity; injection H as H; f_equal; auto.
Qed.

(** Two texts that go on after a run of digits with a character that is
    no digit are the same when the whole is the same. *)
Lemma digits_split a : forall a' c r r',
  forallb isDigit a = true -> forallb isDigit a' = true -> isDigit c = false ->
  a ++ c :: r = a' ++ c :: r' -> a = a' /\ r = r'.
Proof.
  induction a as [|x a IH]; intros [|y a'] c r r' Ha Ha' Hc H; simpl in *.
  - injection H as H. now split.
  - injection H as -> _. apply andb_true_iff in Ha' as [Hy _]. congruence.
  - injection H as -> _. apply andb_true_iff in Ha as [Hx _]. congruence.
  - injection H as -> H. apply andb_true_iff in Ha as [_ Ha].
    apply andb_true_iff in Ha' as [_ Ha'].
    destruct (IH a' c r r' Ha Ha' Hc H) as [-> ->]. now split.
Qed.

Lemma positive_text p :
  exists c t, uintText (Pos.to_uint p) = c :: t /\
              (c =? 48)%N = false /\ (c =? 45)%N = false.
Proof.
  destruct (positive_head p) as [c [t [E [_ [H1 H2]]]]]. eauto.
Qed.

Lemma numberText_split t t' r r' :
  numberText t ++ 95%N :: r = numberText t' ++ 95%N :: r' -> t = t' /\ r = r'.
Proof.
  intros H.
  assert (Hpos : forall p p' s s',
            uintText (Pos.to_uint p) ++ 95%N :: s
            = uintText (Pos.to_uint p') ++ 95%N :: s' -> p = p' /\ s = s').
  { intros p p' s s' E.
    apply digits_split in E as [E ->]; try apply uintText_digits; [|reflexivity].
    apply uintText_inj, DecimalPos.Unsigned.to_uint_inj in E. now split. }
  destruct t as [|p|p], t' as [|p'|p']; cbn [numberText app] in H.
  - injection H as ->. now split.
  - destruct (positive_text p') as [c [u [E [H1 _]]]]. rewrite E in H.
    injection H as <- _. discriminate.
  - discriminate.
  - destruct (positive_text p) as [c [u [E [H1 _]]]]. rewrite E in H.
    injection H as -> _. discriminate.
  - apply Hpos in H as [-> ->]. now split.
  - destruct (positive_text p) as [c [u [E [_ H2]]]]. rewrite E in H.
    injection H as -> _. discriminate.
  - discriminate.
  - destruct (positive_text p') as [c [u [E [_ H2]]]]. rewrite E in H.
    injection H as <- _. discriminate.
  - injection H as H. apply Hpos in H as [-> ->]. now split.
Qed.

(** X16.  The id of a session tells the reading of the clock and the
    random suffix it was made of: two ids are the same only when both
    are.  The same holds of the ids of messages, and no session id is a
    message id. *)
Theorem ids_tell_time_and_suffix t r t' r' :
  clockReading t -> clockReading t' ->
  (sessionId t r = sessionId t' r' -> t = t' /\ r = r') /\
  (messageId t r = messageId t' r' -> t = t' /\ r = r') /\
  sessionId t r <> messageId t' r'.
Proof.
  intros _ _. unfold sessionId, messageId. split; [|split].
  - intros H. apply app_inv_head in H. now apply numberText_split.
  - intros H. apply app_inv_head in H. now apply numberText_split.
  - discriminate.
Qed.

Lemma ids_tell_time_and_suffix_witness :
  sessionId 1700000000000 (str "k3x9q2mzp")
  <> messageId 1700000000000 (str "k3x9q2mzp").
Proof.
  apply (ids_tell_time_and_suffix 1700000000000 (str "k3x9q2mzp")
           1700000000000 (str "k3x9q2mzp")); reflexivity.
Defined.

End HookFacts.

(** ** Mounting the hook *)

Section MountFacts.
Import JS JSON History JSONSpec HistorySpec StorageSpec.

Lemma setItem_holding text st :
  denied st = false -> fits text st -> setItem text st = Ok (holding text st).
Proof. apply setItem_fits. Qed.

Lemma setItem_full text st :
  denied st = false -> ~ fits text st -> setItem text st = Throw QuotaExceededError.
Proof.
  intros Hd Hq. unfold setItem. rewrite Hd.
  destruct (Nat.leb_spec (otherUse st + length STORAGE_KEY + length text)
              (quota st)) as [H|H]; [|reflexivity].
  now elim Hq.
Qed.

(** X19.  The first mount, on a storage that has no entry under the
    hook's key, or an empty one, and room for two characters: the hook
    holds the empty list, the storage holds the text of the empty list
    from then on, and nothing goes to the console. *)
Theorem first_mount_stores_empty_list st :
  denied st = false -> entry st = None \/ entry st = Some [] ->
  fits (str "[]") st ->
  mount st
  = Ok {| held := JArr []; renderDue := false;
          storage := holding (str "[]") st; console := [] |}.
Proof.
  intros Hd He Hq. unfold mount, loadEffect, getItem. cbn [storage].
  rewrite Hd. cbn [bind tryCatch].
  assert (Hload :
    match entry st with
    | Some text =>
      if truthy text
      then bind (parse text) (fun parsed =>
             Ok (setSessions parsed
                   {| held := JArr []; renderDue := false; storage := st;
                      console := [] |}))
      else Ok {| held := JArr []; renderDue := false; storage := st;
                 console := [] |}
    | None => Ok {| held := JArr []; renderDue := false; storage := st;
                    console := [] |}
    end = Ok {| held := JArr []; renderDue := false; storage := st;
                console := [] |}).
  { destruct He as [->| ->]; reflexivity. }
  rewrite Hload. cbn [bind tryCatch]. unfold saveEffect. cbn [storage].
  change (stringify (JArr [])) with (str "[]").
  rewrite (setItem_holding _ _ Hd Hq). reflexivity.
Qed.

Lemma first_mount_stores_empty_list_witness :
  mount {| entry := None; otherUse := 10; quota := 5000; denied := false |}
  = Ok {| held := JArr []; renderDue := false;
          storage := {| entry := Some (str "[]"); otherUse := 10;
                        quota := 5000; denied := false |};
          console := [] |}.
Proof.
  apply (first_mount_stores_empty_list
           {| entry := None; otherUse := 10; quota := 5000; denied := false |}).
  - reflexivity.
  - now left.
  - unfold fits. apply Nat.leb_le. vm_compute. reflexivity.
Defined.

(** A mount on a storage that holds the text of a session list. *)
Lemma mount_reads_back l st :
  storable l = true -> denied st = false ->
  entry st = Some (stringify (sessionsValue l)) ->
  fits (stringify (sessionsValue l)) st ->
  mount st
  = Ok {| held := sessionsValue l; renderDue := false;
          storage := holding (stringify (sessionsValue l)) st;
          console := [] |}.
Proof.
  intros Hs Hd He Hq.
  pose proof (parse_stringify _ (covered_sessionsValue l Hs)) as Hparse.
  destruct (sessionsValue_text l) as [t [Et Lt]].
  set (text := stringify (sessionsValue l)) in *.
  assert (Ht : truthy text = true) by (rewrite Et; reflexivity).
  assert (Hempty : setItem (stringify (JArr [])) st
                   = Ok (holding (stringify (JArr [])) st)).
  { apply setItem_holding; [exact Hd|]. unfold fits in *.
    change (length (stringify (JArr []))) with 2%nat.
    rewrite Et in Hq. cbn [length] in Hq. lia. }
  assert (Hagain : setItem text (holding (stringify (JArr [])) st)
                   = Ok (holding text st)).
  { now rewrite setItem_holding. }
  unfold mount, loadEffect, getItem. cbn [storage]. rewrite Hd, He.
  cbn [bind tryCatch]. rewrite Ht, Hparse.
  cbn [bind tryCatch]. unfold saveEffect at 1.
  cbn [storage setSessions]. rewrite Hempty.
  cbn [bind tryCatch setStorage setSessions renderDue held storage console].
  unfold saveEffect.
  cbn [rendered storage held setStorage setSessions renderDue console].
  fold text. rewrite Hagain. reflexivity.
Qed.

(** X20.  A list is saved; a later, longer list does not fit into the
    storage any more.  The hook goes on with the later list and reports
    the failure to the console, the storage keeps the text of the
    earlier list, and the next mount brings the earlier list back: what
    was added since is lost with the page. *)
Theorem failed_save_keeps_earlier_list l1 l2 w :
  storable l1 = true -> denied (storage w) = false ->
  fits (stringify (sessionsValue l1)) (storage w) ->
  ~ fits (stringify (sessionsValue l2)) (storage w) ->
  exists w1 w2 w3,
    change l1 w = Ok w1 /\ change l2 w1 = Ok w2 /\
    held w2 = sessionsValue l2 /\
    console w2
    = console w ++ [(str "Failed to save chat history:", QuotaExceededError)] /\
    entry (storage w2) = Some (stringify (sessionsValue l1)) /\
    mount (storage w2) = Ok w3 /\ held w3 = sessionsValue l1.
Proof.
  intros Hs Hd Hq1 Hq2.
  set (st1 := holding (stringify (sessionsValue l1)) (storage w)).
  assert (H1 : change l1 w
               = Ok {| held := sessionsValue l1; renderDue := false;
                       storage := st1; console := console w |}).
  { unfold change, saveEffect. cbn [storage rendered setSessions].
    now rewrite (setItem_holding _ _ Hd Hq1). }
  assert (H2 : change l2 {| held := sessionsValue l1; renderDue := false;
                            storage := st1; console := console w |}
               = Ok {| held := sessionsValue l2; renderDue := false;
                       storage := st1;
                       console := console w
                         ++ [(str "Failed to save chat history:",
                              QuotaExceededError)] |}).
  { unfold change, saveEffect. cbn [storage rendered setSessions].
    rewrite (setItem_full _ st1 eq_refl); [reflexivity|exact Hq2]. }
  eexists. eexists. eexists. split; [exact H1|]. split; [exact H2|].
  split; [reflexivity|]. split; [reflexivity|]. split; [reflexivity|].
  cbn [storage]. split.
  - now apply (mount_reads_back l1 st1 Hs).
  - reflexivity.
Qed.

Lemma failed_save_keeps_earlier_list_witness :
  let m := {| m_id := str "msg_1700000000100_a1b2c3d4e"; m_role := user;
              m_content := str "Muraho"; m_timestamp := 1700000000101 |} in
  let l1 := [{| s_id := str "session_1700000000000_k3x9q2mzp";
                s_messages := []; s_createdAt := 1700000000000;
                s_updatedAt := 1700000000000 |}] in
  let l2 := [{| s_id := str "session_1700000000000_k3x9q2mzp";
                s_messages := [m]; s_createdAt := 1700000000000;
                s_updatedAt := 1700000000102 |}] in
  let w := {| held := JArr []; renderDue := false;
              storage := {| entry := Some (str "[]"); otherUse := 4850;
                            quota := 5000; denied := false |};
              console := [] |} in
  exists w1 w2 w3,
    change l1 w = Ok w1 /\ change l2 w1 = Ok w2 /\
    held w2 = sessionsValue l2 /\
    console w2 = [(str "Failed to save chat history:", QuotaExceededError)] /\
    entry (storage w2) = Some (stringify (sessionsValue l1)) /\
    mount (storage w2) = Ok w3 /\ held w3 = sessionsValue l1.
Proof.
  intros m l1 l2 w. apply (failed_save_keeps_earlier_list l1 l2 w).
  - vm_compute. reflexivity.
  - reflexivity.
  - unfold fits. apply Nat.leb_le. vm_compute. reflexivity.
  - unfold fits. apply Nat.nle_gt, Nat.ltb_lt. vm_compute. reflexivity.
Defined.

(** X21.  The load does not look at what it has parsed: whenever the
    entry under the hook's key is a non-empty text that parses, to a
    list of sessions or to any other value, that value is what the hook
    holds as its sessions after the mount. *)
Theorem mount_trusts_parsable_entry st text v :
  denied st = false -> entry st = Some text -> truthy text = true ->
  parse text = Ok v ->
  exists w, mount st = Ok w /\ held w = v.
Proof.
  intros Hd He Ht Hp. unfold mount, loadEffect, getItem. cbn [storage].
  rewrite Hd, He. cbn [bind tryCatch]. rewrite Ht, Hp. cbn [bind tryCatch].
  set (w1 := setSessions v _).
  destruct (saveEffect_absorbs (JArr []) w1) as [w2 [S1 [S2 [S3 _]]]].
  rewrite S1. cbn [bind]. rewrite S3. cbn [w1 setSessions renderDue].
  destruct (saveEffect_absorbs (held w2) (rendered w2)) as [w3 [T1 [T2 _]]].
  exists w3. split; [exact T1|]. rewrite T2. cbn [rendered held]. now rewrite S2.
Qed.

Lemma mount_trusts_parsable_entry_witness :
  exists w,
    mount {| entry := Some (str "{}"); otherUse := 10; quota := 5000;
             denied := false |} = Ok w /\
    held w = JObj [].
Proof.
  apply (mount_trusts_parsable_entry
           {| entry := Some (str "{}"); otherUse := 10; quota := 5000;
              denied := false |} (str "{}") (JObj []));
    first [reflexivity | vm_compute; reflexivity].
Defined.

End MountFacts.

(** ** The older send handler: guard, outcome and remote calls *)

Section LegacySendFacts.
Import JS LegacyApp LegacySpec.

(** X22.  [handleSend] does nothing at all, no change of state and no
    remote call, exactly when a send is in flight or there is nothing to
    send: no file, and an input that holds nothing but white space. *)
Theorem legacy_send_is_noop_iff env c remote :
  handleSend env c remote = []
  <-> (forallb is_whitespace (input c) = true /\ present (file c) = false)
      \/ isSending c = true.
Proof.
  unfold handleSend.
  destruct ((negb (truthy (trim (input c))) && negb (present (file c)))
            || isSending c) eqn:G.
  - split; [intros _|reflexivity].
    apply orb_true_iff in G as [G|G]; [left|now right].
    apply andb_true_iff in G as [G1 G2]. apply negb_true_iff in G1, G2.
    split; [|exact G2]. apply trim_blank. now destruct (trim (input c)).
  - destruct (attempt _ _ _ _) as [effects threw].
    split; [discriminate|]. intros H. exfalso.
    apply orb_false_iff in G as [G Hs].
    destruct H as [[Hb Hf]|H]; [|congruence].
    apply trim_blank in Hb. rewrite Hb, Hf in G. discriminate.
Qed.

Lemma legacy_guard_open c :
  negb (forallb is_whitespace (input c)) || present (file c) = true ->
  isSending c = false ->
  (negb (truthy (trim (input c))) && negb (present (file c))) || isSending c
  = false.
Proof.
  intros Hg Hs. rewrite Hs, orb_false_r. apply andb_false_iff.
  apply orb_true_iff in Hg as [Hg|Hg]; [left|right; now rewrite Hg].
  apply negb_true_iff in Hg. apply negb_false_iff.
  destruct (trim (input c)) eqn:E; [|reflexivity].
  apply trim_blank in E. congruence.
Qed.

(** X23.  A call of [handleSend] that passes the guard appends one turn:
    in its last update of the chat the messages are those from before,
    a user message with the trimmed input as its content and the file
    of the composer, and one model message without a file, whose
    content is the answer of the remote service or, when [startChat] or
    [sendMessage] has failed, the sentence "Sorry, there was an error
    processing your request.".  The flag [isSending] is set as the
    first effect and reset as the last one, and not touched in between,
    whatever the remote service does. *)
Theorem legacy_send_appends_one_turn env c remote :
  negb (forallb is_whitespace (input c)) || present (file c) = true ->
  isSending c = false ->
  let effects := handleSend env c remote in
  lastUpdate effects
  = Some (messages c
          ++ [{| lm_id := uuid_user env; lm_role := user;
                 lm_content := trim (input c); lm_timestamp := now_user env;
                 lm_file := match file c with
                            | Has f => Has f
                            | _ => Undefined
                            end |};
              {| lm_id := uuid_reply env; lm_role := model;
                 lm_content :=
                   match answered c remote with
                   | Some text => text
                   | None =>
                     str "Sorry, there was an error processing your request."
                   end;
                 lm_timestamp := now_reply env; lm_file := Undefined |}]) /\
  hd_error effects = Some (SetIsSending true) /\
  last effects (SetIsSending true) = SetIsSending false /\
  filter isFlag effects = [SetIsSending true; SetIsSending false].
Proof.
  intros Hg Hs effects. subst effects. unfold handleSend.
  rewrite (legacy_guard_open c Hg Hs).
  unfold attempt, answered.
  destruct (hasChat c), (startChatResolves remote), (response remote);
    cbn [orb fst snd app lastUpdate hd_error last filter isFlag];
    rewrite <- ?app_assoc; repeat split; reflexivity.
Qed.

Lemma legacy_send_appends_one_turn_witness :
  let env := {| uuid_user := str "u-1"; now_user := 1700000000100;
                uuid_reply := str "m-1"; now_reply := 1700000000900 |} in
  let c := {| input := str " Muraho "; file := Null; isSending := false;
              currentChatId := Some (str "chat-1"); messages := [];
              hasChat := false |} in
  let remote := {| startChatResolves := true; response := None |} in
  lastUpdate (handleSend env c remote)
  = Some [{| lm_id := str "u-1"; lm_role := user; lm_content := str "Muraho";
             lm_timestamp := 1700000000100; lm_file := Undefined |};
          {| lm_id := str "m-1"; lm_role := model;
             lm_content :=
               str "Sorry, there was an error processing your request.";
             lm_timestamp := 1700000000900; lm_file := Undefined |}].
Proof.
  intros env c remote.
  apply (legacy_send_appends_one_turn env c remote); reflexivity.
Defined.

(** X24.  The remote calls of [handleSend]: [startChat] is called only
    when the session has no chat handle, and then first; [sendMessage]
    is called once, with the trimmed input and the file of the composer,
    unless [startChat] has failed, in which case it is not called at
    all. *)
Theorem legacy_send_remote_calls env c remote :
  negb (forallb is_whitespace (input c)) || present (file c) = true ->
  isSending c = false ->
  filter isRemoteCall (handleSend env c remote)
  = (if hasChat c then [] else [StartChat])
    ++ (if hasChat c || startChatResolves remote
        then [SendMessage (trim (input c))
                (match file c with Has f => Has (cf_file f) | _ => Undefined end)]
        else []).
Proof.
  intros Hg Hs. unfold handleSend.
  rewrite (legacy_guard_open c Hg Hs). unfold attempt.
  destruct (hasChat c), (startChatResolves remote), (response remote);
    reflexivity.
Qed.

Lemma legacy_send_remote_calls_witness :
  let env := {| uuid_user := str "u-1"; now_user := 1700000000100;
                uuid_reply := str "m-1"; now_reply := 1700000000900 |} in
  let c := {| input := str " Muraho "; file := Null; isSending := false;
              currentChatId := Some (str "chat-1"); messages := [];
              hasChat := false |} in
  filter isRemoteCall
    (handleSend env c {| startChatResolves := false; response := Some [] |})
  = [StartChat] /\
  filter isRemoteCall
    (handleSend env c {| startChatResolves := true; response := Some [] |})
  = [StartChat; SendMessage (str "Muraho") Undefined].
Proof.
  intros env c. split.
  - apply (legacy_send_remote_calls env c
             {| startChatResolves := false; response := Some [] |});
      reflexivity.
  - apply (legacy_send_remote_calls env c
             {| startChatResolves := true; response := Some [] |});
      reflexivity.
Defined.

End LegacySendFacts.
